(** * mcp-code-indexer: chunking, structural analysis, indexing pipeline,
      retrieval and path validation, embedded from the Python sources.

    Python [int] is [Z]; [str] is [string] (one [ascii] per character);
    [list] is [list]; [dict] is stdpp's [gmap] or, for SQL tables, a list of
    rows in insertion order; [None]-able values are [option]. A [while] loop
    that may not exit is a fuelled function into [option]. *)

From Stdlib Require Import ZArith Lia QArith Lqa Floats Ascii String DecimalString.
From stdpp Require Import gmap strings list.

Local Open Scope string_scope.
Local Open Scope list_scope.
Local Open Scope Z_scope.

(** ** Python string and list primitives *)

Module PyStr.

(** [len(s)] *)
Definition slen (s : string) : Z := Z.of_nat (String.length s).

(** [str.isspace] on one ASCII character: tab, LF, VT, FF, CR, FS, GS, RS,
    US and space. *)
Definition is_space (c : ascii) : bool :=
  let n := nat_of_ascii c in
  ((9 <=? n) && (n <=? 13) || (28 <=? n) && (n <=? 32))%nat.

Fixpoint lstrip (s : string) : string :=
  match s with
  | EmptyString => EmptyString
  | String c r => if is_space c then lstrip r else s
  end.

Fixpoint rstrip (s : string) : string :=
  match s with
  | EmptyString => EmptyString
  | String c r =>
      match rstrip r with
      | EmptyString => if is_space c then EmptyString else String c EmptyString
      | r' => String c r'
      end
  end.

(** [s.strip()] *)
Definition strip (s : string) : string := lstrip (rstrip s).

(** [sep.join(l)] *)
Fixpoint join (sep : string) (l : list string) : string :=
  match l with
  | [] => EmptyString
  | [x] => x
  | x :: r => x +:+ sep +:+ join sep r
  end.

(** Truthiness of a string: non-empty. *)
Definition truthy (s : string) : bool :=
  match s with EmptyString => false | _ => true end.

Definition LF : ascii := ascii_of_nat 10.
Definition CR : ascii := ascii_of_nat 13.
Definition nl : string := String LF EmptyString.

(** Line boundaries of [str.splitlines] in the ASCII range: LF, VT, FF, CR,
    FS, GS, RS (CR LF counts as one boundary). *)
Definition is_linebreak (c : ascii) : bool :=
  let n := nat_of_ascii c in
  ((10 <=? n) && (n <=? 13) || (28 <=? n) && (n <=? 30))%nat.

(** [splitlines_from cur s]: [cur] is the line read so far, reversed. *)
Fixpoint splitlines_from (cur : list ascii) (s : string) : list string :=
  match s with
  | EmptyString =>
      match cur with [] => [] | _ => [string_of_list_ascii (rev cur)] end
  | String c r =>
      if is_linebreak c then
        match r with
        | String c2 r2 =>
            if (Ascii.eqb c CR && Ascii.eqb c2 LF)%bool
            then string_of_list_ascii (rev cur) :: splitlines_from [] r2
            else string_of_list_ascii (rev cur) :: splitlines_from [] r
        | EmptyString => [string_of_list_ascii (rev cur)]
        end
      else splitlines_from (c :: cur) r
  end.

(** [s.splitlines()] *)
Definition splitlines (s : string) : list string := splitlines_from [] s.

(** Index normalisation of a slice bound: negative bounds count from the
    end, and the result is clamped to [0, n]. *)
Definition slice_bound (n i : Z) : Z :=
  if i <? 0 then Z.max 0 (i + n) else Z.min i n.

(** [l[lo:hi]] *)
Definition py_slice {A} (l : list A) (lo hi : Z) : list A :=
  let n := Z.of_nat (length l) in
  let a := slice_bound n lo in
  let b := slice_bound n hi in
  take (Z.to_nat (b - a)) (drop (Z.to_nat a) l).

(** [s[:k]] on a string *)
Definition str_prefix (s : string) (k : Z) : string :=
  string_of_list_ascii (py_slice (list_ascii_of_string s) 0 k).

(** [s.split(sep)[-1]]: the part after the last occurrence of the
    one-character separator [sep] (the whole string when absent). *)
Fixpoint last_segment_from (sep : ascii) (cur : string) (s : string) : string :=
  match s with
  | EmptyString => cur
  | String c r =>
      if Ascii.eqb c sep then last_segment_from sep r r
      else last_segment_from sep cur r
  end.

Definition last_segment (sep : ascii) (s : string) : string :=
  last_segment_from sep s s.

End PyStr.

Import PyStr.

(** ** chunkers.py *)

Module Chunkers.

Record Chunk := mkChunk {
  file_path : string;
  language : string;
  chunk_type : string;
  symbol_name : option string;
  start_line : Z;
  end_line : Z;
  text : string
}.

(** *** [_window_chunks] *)

(** The closure [flush] inside [_window_chunks]: appends a window chunk
    unless its trimmed text is empty. *)
Definition flush (rel_path lang : string) (symbol : option string)
    (out : list Chunk) (buf_start cur_line_exclusive : Z) (buf : list string)
    : list Chunk :=
  let t := strip (join nl buf) in
  if truthy t
  then out ++ [mkChunk rel_path lang "window" symbol buf_start (cur_line_exclusive - 1) t]
  else out.

(** The mutable locals of [_window_chunks]. *)
Record WState := mkWState {
  w_out : list Chunk;
  w_buf : list string;
  w_buf_start : Z;
  w_cur_line : Z
}.

(** One iteration of [for line in lines]. *)
Definition window_step (rel_path lang : string) (symbol : option string)
    (max_chunk_chars : Z) (st : WState) (line : string) : WState :=
  let prospective := join nl (w_buf st ++ [line]) in
  let st1 :=
    if (bool_decide (w_buf st ≠ []) && (max_chunk_chars <? slen prospective))%bool
    then mkWState (flush rel_path lang symbol (w_out st) (w_buf_start st) (w_cur_line st) (w_buf st))
                  [] (w_cur_line st) (w_cur_line st)
    else st in
  mkWState (w_out st1) (w_buf st1 ++ [line]) (w_buf_start st1) (w_cur_line st1 + 1).

(** The [chunk_type] argument is accepted and ignored by the source: every
    chunk is labelled "window". *)
Definition _window_chunks (rel_path lang chunk_type : string) (symbol : option string)
    (lines : list string) (start_line max_chunk_chars : Z) : list Chunk :=
  let st := fold_left (window_step rel_path lang symbol max_chunk_chars) lines
                      (mkWState [] [] start_line start_line) in
  if bool_decide (w_buf st ≠ [])
  then flush rel_path lang symbol (w_out st) (w_buf_start st) (w_cur_line st) (w_buf st)
  else w_out st.

(** *** [chunk_fallback] *)

(** [window] of one iteration: the trimmed text of [lines[i:j]]. *)
Definition window_text (lines : list string) (max_lines i : Z) : string :=
  let n := Z.of_nat (length lines) in
  strip (join nl (py_slice lines i (Z.min n (i + max_lines)))).

(** The [while i < n] loop, with its iterations bounded by [fuel];
    [None] when the fuel runs out before the loop exits. *)
Fixpoint chunk_fallback_loop (fuel : nat) (rel_path language : string)
    (lines : list string) (max_lines overlap_lines : Z) (i : Z) (out : list Chunk)
    : option (list Chunk) :=
  match fuel with
  | O => None
  | S fuel' =>
      let n := Z.of_nat (length lines) in
      if i <? n then
        let j := Z.min n (i + max_lines) in
        let window := strip (join nl (py_slice lines i j)) in
        let out' :=
          if truthy window
          then out ++ [mkChunk rel_path language "window" None (i + 1) j window]
          else out in
        if n <=? j then Some out'
        else chunk_fallback_loop fuel' rel_path language lines max_lines overlap_lines
               (Z.max 0 (j - overlap_lines)) out'
      else Some out
  end.

(** [chunk_fallback]: [None] stands for a loop that never exits; the fuel
    [len(lines) + 1] is enough whenever any fuel is
    ([chunk_fallback_fuel_adequate] below). *)
Definition chunk_fallback (rel_path text language : string)
    (max_lines overlap_lines : Z) : option (list Chunk) :=
  let lines := splitlines text in
  chunk_fallback_loop (S (length lines)) rel_path language lines
    max_lines overlap_lines 0 [].

End Chunkers.

Import Chunkers.

(** ** The syntax tree of the analyzed language

    The tagged-variant view of the [ast] nodes that the chunker and the
    analyzer distinguish. [children] lists a node's child nodes in the
    order [ast.NodeVisitor.generic_visit] walks them. Positions read with
    [getattr(node, ..., default)] are optional. *)

Module PyAst.

Inductive expr_context := Load | Store | Del.

#[local] Unset Elimination Schemes.

Inductive node :=
| ClassDef (name : string) (lineno : Z) (end_lineno : option Z) (children : list node)
| FunctionDef (name : string) (lineno end_lineno : option Z) (children : list node)
| AsyncFunctionDef (name : string) (lineno end_lineno : option Z) (children : list node)
| Name (id : string) (ctx : expr_context) (lineno col_offset : option Z)
| Attribute (value : node) (attr : string)
| Call (func : node) (args : list node) (lineno : option Z)
| Other (children : list node).

#[local] Set Elimination Schemes.

(** [ast.Module]: its [body]. *)
Definition module := list node.

End PyAst.

Import PyAst.

(** ** chunkers.py: [chunk_python] *)

Module ChunkPython.

(** A row of [symbols]: (symbol_name, kind, start, end). *)
Definition symbol_row : Type := string * string * Z * Z.

(** The result of the [isinstance] test and the [getattr] reads on one
    node of [tree.body]: (is_class, name, lineno, end_lineno). *)
Definition top_level_def (nd : node) : option (bool * string * option Z * option Z) :=
  match nd with
  | ClassDef name ln eln _ => Some (true, name, Some ln, eln)
  | FunctionDef name ln eln _ => Some (false, name, ln, eln)
  | AsyncFunctionDef name ln eln _ => Some (false, name, ln, eln)
  | _ => None
  end.

(** One iteration of [for node in tree.body], on the pair
    ([chunks], [symbols]). *)
Definition chunk_python_step (rel_path : string) (lines : list string)
    (max_chunk_chars : Z) (acc : list Chunk * list symbol_row) (nd : node)
    : list Chunk * list symbol_row :=
  let '(chunks, symbols) := acc in
  match top_level_def nd with
  | Some (is_class, name, Some start, Some end_) =>
      let kind := if is_class then "class" else "function" in
      let symbols' :=
        symbols ++ [(if truthy name then name else "<unknown>", kind, start, end_)] in
      let seg_lines := py_slice lines (start - 1) end_ in
      let seg_text := strip (join nl seg_lines) in
      if truthy seg_text then
        if max_chunk_chars <? slen seg_text
        then (chunks ++ _window_chunks rel_path "python" kind (Some name)
                          seg_lines start max_chunk_chars, symbols')
        else (chunks ++ [mkChunk rel_path "python" kind (Some name) start end_ seg_text],
              symbols')
      else (chunks, symbols')
  | _ => acc
  end.

Section WithParser.

(** [ast.parse]: [None] is [SyntaxError], the one exception its callers
    handle. *)
Variable ast_parse : string -> option module.

(** [None] stands for a call that does not return. *)
Definition chunk_python (rel_path text : string) (max_chunk_chars : Z)
    : option (list Chunk * list symbol_row) :=
  match ast_parse text with
  | None =>
      match chunk_fallback rel_path text "python" 220 40 with
      | Some chunks => Some (chunks, [])
      | None => None
      end
  | Some tree =>
      let lines := splitlines text in
      let head_end := Z.min (Z.of_nat (length lines)) 80 in
      let head_text := strip (join nl (py_slice lines 0 head_end)) in
      let chunks0 :=
        if truthy head_text
        then [mkChunk rel_path "python" "module" None 1 head_end
                (str_prefix head_text max_chunk_chars)]
        else [] in
      Some (fold_left (chunk_python_step rel_path lines max_chunk_chars) tree
              (chunks0, []))
  end.

End WithParser.

End ChunkPython.

Import ChunkPython.

(** ** py_analyze.py *)

Module PyAnalyze.

Inductive def_kind := KFunction | KClass | KMethod.

Definition kind_str (k : def_kind) : string :=
  match k with KFunction => "function" | KClass => "class" | KMethod => "method" end.

Record PyDef := mkPyDef {
  d_name : string;
  d_qualname : string;
  d_kind : def_kind;
  d_start_line : Z;
  d_end_line : Z
}.

Record PyRef := mkPyRef {
  r_name : string;
  r_line : Z;
  r_col : Z;
  r_context : string
}.

Record PyCall := mkPyCall {
  caller_qualname : string;
  callee : string;
  call_line : Z
}.

(** [_get_line] *)
Definition _get_line (lines : list string) (lineno : Z) : string :=
  if (1 <=? lineno) && (lineno <=? Z.of_nat (length lines))
  then default "" (lines !! Z.to_nat (lineno - 1))
  else "".

(** The [parts] list of [_callee_str] before it is reversed. *)
Fixpoint attr_parts (nd : node) : list string :=
  match nd with
  | Attribute v a => a :: attr_parts v
  | Name id _ _ _ => [id]
  | _ => []
  end.

(** [_callee_str] *)
Definition _callee_str (nd : node) : string :=
  match nd with
  | Name id _ _ _ => id
  | Attribute _ _ => join "." (rev (attr_parts nd))
  | _ => "<call>"
  end.

(** The mutable fields of [Analyzer]. *)
Record Analyzer := mkAnalyzer {
  defs : list PyDef;
  refs : list PyRef;
  calls : list PyCall;
  _scope : list string;
  _current_callable : list string
}.

(** [Analyzer._qualname] *)
Definition _qualname (an : Analyzer) (name : string) : string :=
  match _scope an with
  | [] => name
  | _ => join "." (_scope an ++ [name])
  end.

Definition push_def (an : Analyzer) (d : PyDef) : Analyzer :=
  mkAnalyzer (defs an ++ [d]) (refs an) (calls an) (_scope an) (_current_callable an).

Definition push_scope (an : Analyzer) (name : string) : Analyzer :=
  mkAnalyzer (defs an) (refs an) (calls an) (_scope an ++ [name]) (_current_callable an).

Definition pop_scope (an : Analyzer) : Analyzer :=
  mkAnalyzer (defs an) (refs an) (calls an) (removelast (_scope an)) (_current_callable an).

Definition push_callable (an : Analyzer) (qn : string) : Analyzer :=
  mkAnalyzer (defs an) (refs an) (calls an) (_scope an) (_current_callable an ++ [qn]).

Definition pop_callable (an : Analyzer) : Analyzer :=
  mkAnalyzer (defs an) (refs an) (calls an) (_scope an) (removelast (_current_callable an)).

Definition push_ref (an : Analyzer) (r : PyRef) : Analyzer :=
  mkAnalyzer (defs an) (refs an ++ [r]) (calls an) (_scope an) (_current_callable an).

Definition push_call (an : Analyzer) (c : PyCall) : Analyzer :=
  mkAnalyzer (defs an) (refs an) (calls an ++ [c]) (_scope an) (_current_callable an).

(** [Analyzer._visit_function] up to its [generic_visit]: the definition
    is recorded, then the name is pushed on both stacks. *)
Definition enter_function (an : Analyzer) (name : string) (lineno end_lineno : option Z)
    : Analyzer :=
  let qn := _qualname an name in
  let kind := match _scope an with [] => KFunction | _ => KMethod end in
  let ln := default 1 lineno in
  let an1 := push_def an (mkPyDef name qn kind ln (default ln end_lineno)) in
  push_callable (push_scope an1 name) qn.

(** [Analyzer.visit_ClassDef] up to its [generic_visit]. *)
Definition enter_class (an : Analyzer) (name : string) (lineno : Z) (end_lineno : option Z)
    : Analyzer :=
  let qn := _qualname an name in
  push_scope (push_def an (mkPyDef name qn KClass lineno (default lineno end_lineno))) name.

(** [Analyzer.visit_Name] before its [generic_visit]. *)
Definition record_name (lines : list string) (an : Analyzer) (id : string)
    (ctx : expr_context) (lineno col_offset : option Z) : Analyzer :=
  match ctx with
  | Load =>
      let line := default 1 lineno in
      let col := default 0 col_offset in
      let lt := _get_line lines line in
      let start := Z.max 0 (col - 40) in
      let end_ := Z.min (slen lt) (col + slen id + 40) in
      let context := string_of_list_ascii (py_slice (list_ascii_of_string lt) start end_) in
      push_ref an (mkPyRef id line col context)
  | _ => an
  end.

(** [Analyzer.visit_Call] before its [generic_visit]. *)
Definition record_call (an : Analyzer) (func : node) (lineno : option Z) : Analyzer :=
  match last (_current_callable an) with
  | Some caller => push_call an (mkPyCall caller (_callee_str func) (default 1 lineno))
  | None => an
  end.

(** [Analyzer.visit]: the dispatch on the node class, then the class's
    visitor; node classes without a visitor are walked by
    [generic_visit]. *)
Fixpoint visit (lines : list string) (nd : node) (an : Analyzer) : Analyzer :=
  let generic_visit children an :=
    fold_left (fun a child => visit lines child a) children an in
  match nd with
  | ClassDef name ln eln children =>
      pop_scope (generic_visit children (enter_class an name ln eln))
  | FunctionDef name ln eln children
  | AsyncFunctionDef name ln eln children =>
      pop_scope (pop_callable (generic_visit children (enter_function an name ln eln)))
  | Name id ctx ln col => record_name lines an id ctx ln col
  | Attribute v _ => visit lines v an
  | Call func args ln =>
      generic_visit args (visit lines func (record_call an func ln))
  | Other children => generic_visit children an
  end.

Section WithParser.

Variable ast_parse : string -> option module.

Definition analyze_python_source (text : string)
    : list PyDef * list PyRef * list PyCall :=
  match ast_parse text with
  | None => ([], [], [])
  | Some tree =>
      let an := fold_left (fun a child => visit (splitlines text) child a) tree
                  (mkAnalyzer [] [] [] [] []) in
      (defs an, refs an, calls an)
  end.

End WithParser.

End PyAnalyze.

Import PyAnalyze.

(** ** db.py: the snapshot store

    Each table is the list of its rows in insertion order. *)

Module Db.

Record FileRow := mkFileRow {
  fs_workspace_id : string; fs_git_ref : string; fs_file_path : string;
  fs_sha256 : string; fs_mtime : float; fs_size : Z;
  fs_language : string; fs_updated_at : string
}.

Record SymbolSnapRow := mkSymbolSnapRow {
  ss_workspace_id : string; ss_git_ref : string; ss_file_path : string;
  ss_symbol_name : string; ss_symbol_kind : string;
  ss_start_line : Z; ss_end_line : Z
}.

Record PySymbolRow := mkPySymbolRow {
  ps_symbol_id : string;
  ps_workspace_id : string; ps_git_ref : string; ps_file_path : string;
  ps_symbol_name : string; ps_qualname : string; ps_symbol_kind : string;
  ps_start_line : Z; ps_end_line : Z
}.

Record PyRefRow := mkPyRefRow {
  pr_workspace_id : string; pr_git_ref : string; pr_symbol_name : string;
  pr_file_path : string; pr_line : Z; pr_col : Z; pr_context : string
}.

Record EdgeRow := mkEdgeRow {
  e_workspace_id : string; e_git_ref : string; e_from_symbol_id : string;
  e_to_name : string; e_to_symbol_id : option string; e_call_line : Z
}.

Record ChunkRow := mkChunkRow {
  cf_workspace_id : string; cf_git_ref : string; cf_file_path : string;
  cf_start_line : Z; cf_end_line : Z; cf_language : string;
  cf_chunk_type : string; cf_symbol_name : option string; cf_text : string
}.

(** The legacy table [symbols]: no [git_ref] column. *)
Record LegacySymbolRow := mkLegacySymbolRow {
  ls_workspace_id : string; ls_file_path : string;
  ls_symbol_name : string; ls_symbol_kind : string;
  ls_start_line : Z; ls_end_line : Z
}.

Record Tables := mkTables {
  workspaces : list (string * string * string);
  snapshots : list (string * string * string);
  files_snap : list FileRow;
  symbols_snap : list SymbolSnapRow;
  py_symbols : list PySymbolRow;
  py_refs : list PyRefRow;
  py_call_edges : list EdgeRow;
  chunk_fts : list ChunkRow;
  symbols : list LegacySymbolRow
}.

Definition empty_tables : Tables := mkTables [] [] [] [] [] [] [] [] [].

(** [s1 == s2] on strings *)
Definition seqb (a b : string) : bool := bool_decide (a = b).

(** [WHERE workspace_id=? AND git_ref=? AND file_path=?] *)
Definition file_key (wid ref path w r p : string) : bool :=
  seqb w wid && seqb r ref && seqb p path.

(** [INSERT OR REPLACE]: rows in conflict with the new row are deleted,
    then the new row is added. *)
Definition insert_or_replace {A} (conflict : A -> A -> bool) (tbl : list A) (row : A) : list A :=
  filter (fun old => conflict old row = false) tbl ++ [row].

(** [INSERT OR IGNORE]: a new row in conflict with a stored row is dropped. *)
Definition insert_or_ignore {A} (conflict : A -> A -> bool) (tbl : list A) (row : A) : list A :=
  if existsb (fun old => conflict old row) tbl then tbl else tbl ++ [row].

(** [executemany] of an insert statement: one row after the other. *)
Definition insert_many {A} (ins : list A -> A -> list A) (tbl : list A) (rows : list A) : list A :=
  fold_left ins rows tbl.

(** Primary keys of the tables. In SQLite a NULL in a primary-key column
    of an ordinary table is distinct from every value, NULL included, so a
    row of [py_call_edges] with a NULL [to_symbol_id] conflicts with none. *)
Definition py_symbols_pk (a b : PySymbolRow) : bool :=
  seqb (ps_symbol_id a) (ps_symbol_id b).

Definition py_refs_pk (a b : PyRefRow) : bool :=
  seqb (pr_workspace_id a) (pr_workspace_id b) && seqb (pr_git_ref a) (pr_git_ref b)
  && seqb (pr_symbol_name a) (pr_symbol_name b) && seqb (pr_file_path a) (pr_file_path b)
  && (pr_line a =? pr_line b) && (pr_col a =? pr_col b).

Definition py_call_edges_pk (a b : EdgeRow) : bool :=
  seqb (e_workspace_id a) (e_workspace_id b) && seqb (e_git_ref a) (e_git_ref b)
  && seqb (e_from_symbol_id a) (e_from_symbol_id b) && seqb (e_to_name a) (e_to_name b)
  && (e_call_line a =? e_call_line b)
  && match e_to_symbol_id a, e_to_symbol_id b with
     | Some x, Some y => seqb x y
     | _, _ => false
     end.

Definition symbols_snap_pk (a b : SymbolSnapRow) : bool :=
  seqb (ss_workspace_id a) (ss_workspace_id b) && seqb (ss_git_ref a) (ss_git_ref b)
  && seqb (ss_file_path a) (ss_file_path b) && seqb (ss_symbol_name a) (ss_symbol_name b)
  && seqb (ss_symbol_kind a) (ss_symbol_kind b) && (ss_start_line a =? ss_start_line b).

Definition files_snap_pk (a b : FileRow) : bool :=
  seqb (fs_workspace_id a) (fs_workspace_id b) && seqb (fs_git_ref a) (fs_git_ref b)
  && seqb (fs_file_path a) (fs_file_path b).

(** [INSERT ... ON CONFLICT(...) DO UPDATE SET ...] on [files_snap]: the
    stored row is updated in place, or the new row is added. *)
Definition upsert_file (tbl : list FileRow) (row : FileRow) : list FileRow :=
  if existsb (fun old => files_snap_pk old row) tbl
  then map (fun old => if files_snap_pk old row then row else old) tbl
  else tbl ++ [row].

End Db.

Import Db.

(** ** ids.py and indexer.py *)

Module Indexer.

Record Config := mkConfig {
  max_chunk_chars : Z;
  max_fallback_lines : Z;
  fallback_overlap_lines : Z
}.

(** [str(n)] for an [int] *)
Definition str_of_int (z : Z) : string := NilZero.string_of_int (Z.to_int z).

Record Payload := mkPayload {
  p_workspace_id : string; p_git_ref : string; p_file_path : string;
  p_language : string; p_chunk_type : string; p_symbol_name : option string;
  p_start_line : Z; p_end_line : Z; p_text : string;
  p_chunk_sha256 : string; p_updated_at : string
}.

Record Point (V : Type) := mkPoint {
  pt_id : string;
  pt_vector : V;
  pt_payload : Payload
}.

Arguments mkPoint {V}.
Arguments pt_id {V}.
Arguments pt_vector {V}.
Arguments pt_payload {V}.

(** One entry per write call: [execute] or [executemany] with its
    statement, or a mutating request to the vector index. *)
Inductive WriteOp :=
| Sql (statement : string)
| VectorDelete
| VectorUpsert.

(** The state the pipeline writes to: the SQLite tables, the points of the
    vector index, and the trace of write calls so far. *)
Record Store (V : Type) := mkStore {
  tables : Tables;
  points : list (Point V);
  log : list WriteOp
}.

Arguments mkStore {V}.
Arguments tables {V}.
Arguments points {V}.
Arguments log {V}.

(** What the loop body reads of one discovered file: its relative path,
    [f.stat()] as (st_mtime, st_size) or [None] on [OSError],
    [guess_language(f)], [sha256_file(f)] and [safe_read_text(f)]. *)
Record FileObs := mkFileObs {
  f_rel : string;
  f_stat : option (float * Z);
  f_lang : string;
  f_hash : string;
  f_text : string
}.

Definition set_files_snap (x : list FileRow) (t : Tables) : Tables :=
  mkTables (workspaces t) (snapshots t) x (symbols_snap t) (py_symbols t)
    (py_refs t) (py_call_edges t) (chunk_fts t) (symbols t).
Definition set_symbols_snap (x : list SymbolSnapRow) (t : Tables) : Tables :=
  mkTables (workspaces t) (snapshots t) (files_snap t) x (py_symbols t)
    (py_refs t) (py_call_edges t) (chunk_fts t) (symbols t).
Definition set_py_symbols (x : list PySymbolRow) (t : Tables) : Tables :=
  mkTables (workspaces t) (snapshots t) (files_snap t) (symbols_snap t) x
    (py_refs t) (py_call_edges t) (chunk_fts t) (symbols t).
Definition set_py_refs (x : list PyRefRow) (t : Tables) : Tables :=
  mkTables (workspaces t) (snapshots t) (files_snap t) (symbols_snap t) (py_symbols t)
    x (py_call_edges t) (chunk_fts t) (symbols t).
Definition set_py_call_edges (x : list EdgeRow) (t : Tables) : Tables :=
  mkTables (workspaces t) (snapshots t) (files_snap t) (symbols_snap t) (py_symbols t)
    (py_refs t) x (chunk_fts t) (symbols t).
Definition set_chunk_fts (x : list ChunkRow) (t : Tables) : Tables :=
  mkTables (workspaces t) (snapshots t) (files_snap t) (symbols_snap t) (py_symbols t)
    (py_refs t) (py_call_edges t) x (symbols t).
Definition set_workspaces (x : list (string * string * string)) (t : Tables) : Tables :=
  mkTables x (snapshots t) (files_snap t) (symbols_snap t) (py_symbols t)
    (py_refs t) (py_call_edges t) (chunk_fts t) (symbols t).
Definition set_snapshots (x : list (string * string * string)) (t : Tables) : Tables :=
  mkTables (workspaces t) x (files_snap t) (symbols_snap t) (py_symbols t)
    (py_refs t) (py_call_edges t) (chunk_fts t) (symbols t).

(** [execute] / [executemany]: the statement's effect on the tables, and
    one entry in the trace. *)
Definition exec {V} (statement : string) (f : Tables -> Tables) (st : Store V) : Store V :=
  mkStore (f (tables st)) (points st) (log st ++ [Sql statement]).

(** [if cond: ...] around a write *)
Definition when {V} (cond : bool) (f : Store V -> Store V) (st : Store V) : Store V :=
  if cond then f st else st.

Definition nonempty {A} (l : list A) : bool :=
  match l with [] => false | _ => true end.

(** *** Call-edge resolution *)

(** [d.setdefault(nm, []).append(sid)] *)
Definition add_name (m : gmap string (list string)) (nm sid : string)
    : gmap string (list string) :=
  <[nm := default [] (m !! nm) ++ [sid]]> m.

(** The dict built from (symbol_name, symbol_id) pairs. *)
Definition name_to_ids (rows : list (string * string)) : gmap string (list string) :=
  fold_left (fun m r => add_name m r.1 r.2) rows ∅.

(** [base in d and len(d[base]) == 1] *)
Definition unique_in (d : gmap string (list string)) (base : string) : bool :=
  match d !! base with
  | Some l => Nat.eqb (length l) 1
  | None => false
  end.

(** [d[base][0]] *)
Definition first_of (d : gmap string (list string)) (base : string) : option string :=
  d !! base ≫= head.

(** [to_id] of one call site. *)
Definition resolve_callee (name_to_ids_local name_to_ids_global : gmap string (list string))
    (to_name : string) : option string :=
  let base := last_segment "." to_name in
  if unique_in name_to_ids_local base then first_of name_to_ids_local base
  else if unique_in name_to_ids_global base then first_of name_to_ids_global base
  else None.

(** The loop [for c in py_calls] that builds [edge_rows]. *)
Definition call_edge_rows (wid git_ref : string) (qual_to_id : gmap string string)
    (name_to_ids_local name_to_ids_global : gmap string (list string))
    (py_calls : list PyCall) : list EdgeRow :=
  fold_left
    (fun edge_rows c =>
       match qual_to_id !! caller_qualname c with
       | Some from_id =>
           if truthy from_id then
             edge_rows ++
               [mkEdgeRow wid git_ref from_id (callee c)
                  (resolve_callee name_to_ids_local name_to_ids_global (callee c))
                  (call_line c)]
           else edge_rows
       | None => edge_rows
       end)
    py_calls [].

(** [SELECT symbol_name, symbol_id FROM py_symbols WHERE workspace_id=? AND git_ref=?] *)
Definition snapshot_symbols (wid git_ref : string) (t : Tables) : list (string * string) :=
  map (fun r => (ps_symbol_name r, ps_symbol_id r))
    (filter (fun r => seqb (ps_workspace_id r) wid && seqb (ps_git_ref r) git_ref = true)
       (py_symbols t)).

(** *** The three [DELETE] statements of the enrichment block *)

(** [DELETE FROM py_symbols WHERE workspace_id=? AND git_ref=? AND file_path=?] *)
Definition delete_py_symbols (wid git_ref rel : string) (t : Tables) : Tables :=
  set_py_symbols
    (filter (fun r => file_key wid git_ref rel (ps_workspace_id r) (ps_git_ref r)
                        (ps_file_path r) = false) (py_symbols t)) t.

(** [DELETE FROM py_refs WHERE workspace_id=? AND git_ref=? AND file_path=?] *)
Definition delete_py_refs (wid git_ref rel : string) (t : Tables) : Tables :=
  set_py_refs
    (filter (fun r => file_key wid git_ref rel (pr_workspace_id r) (pr_git_ref r)
                        (pr_file_path r) = false) (py_refs t)) t.

(** [SELECT symbol_id FROM py_symbols WHERE workspace_id=? AND git_ref=? AND file_path=?] *)
Definition file_symbol_ids (wid git_ref rel : string) (t : Tables) : list string :=
  map ps_symbol_id
    (filter (fun r => file_key wid git_ref rel (ps_workspace_id r) (ps_git_ref r)
                        (ps_file_path r) = true) (py_symbols t)).

(** [DELETE FROM py_call_edges WHERE workspace_id=? AND git_ref=? AND
    from_symbol_id IN (SELECT symbol_id FROM py_symbols WHERE ...)]: the
    subquery reads [py_symbols] as it is when the statement runs. *)
Definition delete_file_edges (wid git_ref rel : string) (t : Tables) : Tables :=
  set_py_call_edges
    (filter (fun e => (seqb (e_workspace_id e) wid && seqb (e_git_ref e) git_ref
                       && existsb (seqb (e_from_symbol_id e)) (file_symbol_ids wid git_ref rel t))
                      = false)
       (py_call_edges t)) t.

Section Pipeline.

Variable ast_parse : string -> option module.
(** [str(uuid.uuid5(uuid.NAMESPACE_URL, key))] and [sha256_text] *)
Variable uuid5 : string -> string.
Variable sha256_text : string -> string.
(** The embedding provider: [Embedder.embed_passages]. *)
Variable V : Type.
Variable embed_passages : list string -> list V.

(** ids.py: [make_symbol_id] *)
Definition make_symbol_id (workspace_id git_ref file_path qualname kind : string)
    (start_line end_line : Z) : string :=
  uuid5 (workspace_id +:+ "|" +:+ git_ref +:+ "|" +:+ file_path +:+ "|" +:+ qualname
         +:+ "|" +:+ kind +:+ "|" +:+ str_of_int start_line +:+ "|" +:+ str_of_int end_line).

(** [QdrantStore.delete_file] *)
Definition delete_file (wid rel git_ref : string) (st : Store V) : Store V :=
  mkStore (tables st)
    (filter (fun p => file_key wid git_ref rel (p_workspace_id (pt_payload p))
                        (p_git_ref (pt_payload p)) (p_file_path (pt_payload p)) = false)
       (points st))
    (log st ++ [VectorDelete]).

(** [QdrantStore.upsert_chunks]: returns at once on an empty list; a point
    replaces the stored point of the same id. *)
Definition upsert_chunks (pts : list (Point V)) (st : Store V) : Store V :=
  match pts with
  | [] => st
  | _ =>
      mkStore (tables st)
        (insert_many (insert_or_replace (fun a b => seqb (pt_id a) (pt_id b))) (points st) pts)
        (log st ++ [VectorUpsert])
  end.

Definition point_of (wid git_ref now : string) (c : Chunk) (v : V) : Point V :=
  mkPoint
    (uuid5 (wid +:+ ":" +:+ git_ref +:+ ":" +:+ file_path c +:+ ":"
            +:+ str_of_int (start_line c) +:+ ":" +:+ str_of_int (end_line c) +:+ ":"
            +:+ sha256_text (text c)))
    v
    (mkPayload wid git_ref (file_path c) (language c) (chunk_type c) (symbol_name c)
       (start_line c) (end_line c) (text c) (sha256_text (text c)) now).

(** The row of [def_rows] for one definition. *)
Definition def_row (wid git_ref rel : string) (d : PyDef) : PySymbolRow :=
  mkPySymbolRow
    (make_symbol_id wid git_ref rel (d_qualname d) (kind_str (d_kind d))
       (d_start_line d) (d_end_line d))
    wid git_ref rel (d_name d) (d_qualname d) (kind_str (d_kind d))
    (d_start_line d) (d_end_line d).

(** The [if lang == "python":] block of the loop body. *)
Definition index_python (wid git_ref rel text : string) (st0 : Store V) : Store V :=
  let '(py_defs, py_refs_, py_calls) := analyze_python_source ast_parse text in
  let st1 := exec "DELETE FROM py_symbols" (delete_py_symbols wid git_ref rel) st0 in
  let st2 := exec "DELETE FROM py_refs" (delete_py_refs wid git_ref rel) st1 in
  let st3 := exec "DELETE FROM py_call_edges" (delete_file_edges wid git_ref rel) st2 in
  let def_rows := map (def_row wid git_ref rel) py_defs in
  let qual_to_id : gmap string string :=
    fold_left (fun m r => <[ps_qualname r := ps_symbol_id r]> m) def_rows ∅ in
  let st4 :=
    when (nonempty def_rows)
      (exec "INSERT OR REPLACE INTO py_symbols"
         (fun t => set_py_symbols
            (insert_many (insert_or_replace py_symbols_pk) (py_symbols t) def_rows) t)) st3 in
  let st5 :=
    when (nonempty py_refs_)
      (exec "INSERT OR REPLACE INTO py_refs"
         (fun t => set_py_refs
            (insert_many (insert_or_replace py_refs_pk) (py_refs t)
               (map (fun r => mkPyRefRow wid git_ref (r_name r) rel (r_line r) (r_col r)
                                (r_context r)) py_refs_)) t)) st4 in
  if nonempty py_calls && nonempty def_rows then
    let name_to_ids_local :=
      name_to_ids (map (fun r => (ps_symbol_name r, ps_symbol_id r)) def_rows) in
    let name_to_ids_global := name_to_ids (snapshot_symbols wid git_ref (tables st5)) in
    let edge_rows :=
      call_edge_rows wid git_ref qual_to_id name_to_ids_local name_to_ids_global py_calls in
    when (nonempty edge_rows)
      (exec "INSERT OR REPLACE INTO py_call_edges"
         (fun t => set_py_call_edges
            (insert_many (insert_or_replace py_call_edges_pk) (py_call_edges t) edge_rows) t))
      st5
  else st5.

(** The test that classifies a file as unchanged. *)
Definition unchanged (row : option FileRow) (file_hash : string) (st_mtime : float)
    (st_size : Z) : bool :=
  match row with
  | Some r => seqb (fs_sha256 r) file_hash && PrimFloat.eqb (fs_mtime r) st_mtime
              && (fs_size r =? st_size)
  | None => false
  end.

(** [fetch_one] on [files_snap] by primary key. *)
Definition fetch_file_row (wid git_ref rel : string) (t : Tables) : option FileRow :=
  head (filter (fun r => file_key wid git_ref rel (fs_workspace_id r) (fs_git_ref r)
                           (fs_file_path r) = true) (files_snap t)).

(** The part of the loop body that re-indexes a changed file, from
    [store.delete_file] on. *)
Definition reindex_file (wid git_ref now : string) (f : FileObs) (st_mtime : float)
    (st_size : Z) (chunks : list Chunk) (symbols_ : list symbol_row) (st0 : Store V)
    : Store V :=
  let rel := f_rel f in
  let st1 := delete_file wid rel git_ref st0 in
  let passages := map text chunks in
  let vecs := if nonempty passages then embed_passages passages else [] in
  let pts := map (fun cv => point_of wid git_ref now cv.1 cv.2) (zip chunks vecs) in
  let st2 := upsert_chunks pts st1 in
  let st3 := if seqb (f_lang f) "python" then index_python wid git_ref rel (f_text f) st2
             else st2 in
  let st4 :=
    exec "DELETE FROM chunk_fts"
      (fun t => set_chunk_fts
         (filter (fun r => file_key wid git_ref rel (cf_workspace_id r) (cf_git_ref r)
                             (cf_file_path r) = false) (chunk_fts t)) t) st3 in
  let st5 :=
    when (nonempty chunks)
      (exec "INSERT INTO chunk_fts"
         (fun t => set_chunk_fts
            (chunk_fts t ++
             map (fun c => mkChunkRow wid git_ref (file_path c) (start_line c) (end_line c)
                             (language c) (chunk_type c) (symbol_name c) (text c)) chunks) t))
      st4 in
  let st6 :=
    exec "INSERT INTO files_snap ON CONFLICT DO UPDATE"
      (fun t => set_files_snap
         (upsert_file (files_snap t)
            (mkFileRow wid git_ref rel (f_hash f) st_mtime st_size (f_lang f) now)) t) st5 in
  let st7 :=
    exec "DELETE FROM symbols_snap"
      (fun t => set_symbols_snap
         (filter (fun r => file_key wid git_ref rel (ss_workspace_id r) (ss_git_ref r)
                             (ss_file_path r) = false) (symbols_snap t)) t) st6 in
  when (nonempty symbols_)
    (exec "INSERT OR IGNORE INTO symbols_snap"
       (fun t => set_symbols_snap
          (insert_many (insert_or_ignore symbols_snap_pk) (symbols_snap t)
             (map (fun s => let '(sname, skind, sstart, send) := s in
                            mkSymbolSnapRow wid git_ref rel sname skind sstart send)
                symbols_)) t))
    st7.

(** The counters and the store threaded through [for f in files]. *)
Record Run := mkRun {
  processed : Z;
  changed : Z;
  store : Store V
}.

(** One iteration of [for f in files] in [index_repo]; [None] when the
    chunker does not return. *)
Definition index_file (cfg : Config) (wid git_ref now : string) (run : Run) (f : FileObs)
    : option Run :=
  let processed' := processed run + 1 in
  match f_stat f with
  | None => Some (mkRun processed' (changed run) (store run))
  | Some (st_mtime, st_size) =>
      let row := fetch_file_row wid git_ref (f_rel f) (tables (store run)) in
      if unchanged row (f_hash f) st_mtime st_size
      then Some (mkRun processed' (changed run) (store run))
      else
        let chunked :=
          if seqb (f_lang f) "python"
          then chunk_python ast_parse (f_rel f) (f_text f) (max_chunk_chars cfg)
          else option_map (fun cs => (cs, []))
                 (chunk_fallback (f_rel f) (f_text f) (f_lang f)
                    (max_fallback_lines cfg) (fallback_overlap_lines cfg)) in
        match chunked with
        | Some (chunks, symbols_) =>
            Some (mkRun processed' (changed run + 1)
                    (reindex_file wid git_ref now f st_mtime st_size chunks symbols_
                       (store run)))
        | None => None
        end
  end.

(** [index_repo] from the registration of the workspace and snapshot on:
    [files] is what [discover_files] found. Returns the final store with
    [files_total] and [files_changed]. *)
Definition index_repo (cfg : Config) (wid repo_root git_ref now : string)
    (files : list FileObs) (st0 : Store V) : option (Store V * Z * Z) :=
  let st1 :=
    exec "INSERT OR IGNORE INTO workspaces"
      (fun t => set_workspaces
         (insert_or_ignore (fun a b => seqb a.1.1 b.1.1) (workspaces t)
            (wid, repo_root, now)) t) st0 in
  let st2 :=
    exec "INSERT OR REPLACE INTO snapshots"
      (fun t => set_snapshots
         (insert_or_replace (fun a b => seqb a.1.1 b.1.1 && seqb a.1.2 b.1.2) (snapshots t)
            (wid, git_ref, now)) t) st1 in
  let final :=
    fold_left (fun acc f => acc ≫= fun run => index_file cfg wid git_ref now run f)
      files (Some (mkRun 0 0 st2)) in
  option_map (fun run => (store run, Z.of_nat (length files), changed run)) final.

End Pipeline.

End Indexer.

Import Indexer.

(** ** search.py *)

Module Search.

(** *** Score fusion in [hybrid_search]

    The arithmetic of the fusion is written once over the operations it
    uses, and read both over binary64 (what Python's [float] computes) and
    over the rationals (the formula in exact arithmetic). *)

Class FloatOps (F : Type) := {
  fzero : F;
  fone : F;
  fadd : F -> F -> F;
  fsub : F -> F -> F;
  fmul : F -> F -> F;
  flt : F -> F -> bool;
  feq : F -> F -> bool
}.

#[export] Instance binary64_ops : FloatOps float := {
  fzero := 0%float;
  fone := 1%float;
  fadd := PrimFloat.add;
  fsub := PrimFloat.sub;
  fmul := PrimFloat.mul;
  flt := PrimFloat.ltb;
  feq := PrimFloat.eqb
}.

#[export] Instance exact_ops : FloatOps Q := {
  fzero := 0%Q;
  fone := 1%Q;
  fadd := Qplus;
  fsub := Qminus;
  fmul := Qmult;
  flt := fun a b => negb (Qle_bool b a);
  feq := Qeq_bool
}.

Section Fusion.

Context {F : Type} `{FloatOps F}.

(** [min(a, b)] and [max(a, b)] of two arguments: the first argument
    unless the second is strictly smaller (greater). *)
Definition py_min (a b : F) : F := if flt b a then b else a.
Definition py_max (a b : F) : F := if flt a b then b else a.

(** The closure [clamp01]: [x != x] singles out NaN. *)
Definition clamp01 (x : F) : F :=
  if negb (feq x x) then fzero else py_max fzero (py_min fone x).

(** [c["_hybrid"]] for a merged candidate with [_sem = sem] and
    [_lex = lex], from the caller's [alpha]. *)
Definition hybrid_score (alpha sem lex : F) : F :=
  let alpha := py_max fzero (py_min fone alpha) in
  let beta := fsub fone alpha in
  fadd (fmul alpha sem) (fmul beta lex).

End Fusion.

(** *** Symbol lookup *)

(** ASCII lower-casing, as SQLite's [LIKE] folds case. *)
Definition ascii_lower (c : ascii) : ascii :=
  let n := nat_of_ascii c in
  if ((65 <=? n) && (n <=? 90))%nat then ascii_of_nat (n + 32) else c.

(** SQLite's [s LIKE pat]: [%] matches any run of characters, [_] any one
    character, and ASCII letters match regardless of case. *)
Fixpoint like_chars (pat s : list ascii) : bool :=
  match pat with
  | [] => match s with [] => true | _ => false end
  | p :: pat' =>
      if Ascii.eqb p "%"%char then
        (fix star (s : list ascii) : bool :=
           like_chars pat' s || match s with [] => false | _ :: s' => star s' end) s
      else
        match s with
        | [] => false
        | c :: s' =>
            (Ascii.eqb p "_"%char || Ascii.eqb (ascii_lower p) (ascii_lower c))
            && like_chars pat' s'
        end
  end.

Definition like (s pat : string) : bool :=
  like_chars (list_ascii_of_string pat) (list_ascii_of_string s).

(** [s.lstrip("/")] *)
Fixpoint lstrip_slash (s : string) : string :=
  match s with
  | String c r => if Ascii.eqb c "/"%char then lstrip_slash r else s
  | EmptyString => EmptyString
  end.

(** [s.startswith(pref)] *)
Definition startswith (s pref : string) : bool := String.prefix pref s.

(** [ORDER BY file_path, start_line] on rows of [symbols_snap]: a stable
    insertion sort under the byte-wise order on paths. *)
Definition snap_le (a b : SymbolSnapRow) : bool :=
  match String.compare (ss_file_path a) (ss_file_path b) with
  | Lt => true
  | Eq => ss_start_line a <=? ss_start_line b
  | Gt => false
  end.

Fixpoint insert_sorted (r : SymbolSnapRow) (l : list SymbolSnapRow) : list SymbolSnapRow :=
  match l with
  | [] => [r]
  | x :: l' => if snap_le x r then x :: insert_sorted r l' else r :: l
  end.

Definition order_by_path_line (l : list SymbolSnapRow) : list SymbolSnapRow :=
  fold_left (fun acc r => insert_sorted r acc) l [].

(** [LIMIT ?]: a negative limit is no limit. *)
Definition sql_limit {A} (limit : Z) (l : list A) : list A :=
  if limit <? 0 then l else take (Z.to_nat limit) l.

(** A result row: file_path, symbol_name, symbol_kind, start_line,
    end_line, and git_ref where the query selects it. *)
Record SymbolHit := mkSymbolHit {
  h_file_path : string; h_symbol_name : string; h_symbol_kind : string;
  h_start_line : Z; h_end_line : Z; h_git_ref : option string
}.

(** The first [def symbol_find] of class [SearchEngine], with parameters
    (name, language, path_prefix, git_ref, limit). The second definition of
    the same name below replaces it when the class body runs. *)
Definition symbol_find_shadowed (t : Tables) (wid name : string) (language : option string)
    (path_prefix git_ref : option string) (limit : Z) : list SymbolHit :=
  let by_ref r :=
    match git_ref with
    | Some g => if truthy g then seqb (ss_git_ref r) g else true
    | None => true
    end in
  let by_prefix r :=
    match path_prefix with
    | Some p => if truthy p then like (ss_file_path r) (lstrip_slash (strip p) +:+ "%")
                else true
    | None => true
    end in
  let rows :=
    filter (fun r => (seqb (ss_workspace_id r) wid && by_ref r && by_prefix r
                      && like (ss_symbol_name r) ("%" +:+ name +:+ "%")) = true)
      (symbols_snap t) in
  map (fun r => mkSymbolHit (ss_file_path r) (ss_symbol_name r) (ss_symbol_kind r)
                  (ss_start_line r) (ss_end_line r) (Some (ss_git_ref r)))
    (sql_limit limit (order_by_path_line rows)).

(** [SearchEngine.symbol_find] as the class ends up with it: the second
    definition, with parameters (name, language, path_prefix, limit). It
    reads the legacy table [symbols]; the query has no [ORDER BY], so the
    rows come in the table's own order. *)
Definition symbol_find (t : Tables) (wid name : string) (language : option string)
    (path_prefix : option string) (limit : Z) : list SymbolHit :=
  let other_language :=
    match language with
    | Some l => truthy l && negb (seqb l "python")
    | None => false
    end in
  if other_language then []
  else
    let rows :=
      filter (fun r => (seqb (ls_workspace_id r) wid
                        && like (ls_symbol_name r) ("%" +:+ name +:+ "%")) = true)
        (symbols t) in
    let rows :=
      match path_prefix with
      | Some p =>
          if truthy p
          then filter (fun r => startswith (ls_file_path r) (lstrip_slash (strip p)) = true) rows
          else rows
      | None => rows
      end in
    map (fun r => mkSymbolHit (ls_file_path r) (ls_symbol_name r) (ls_symbol_kind r)
                    (ls_start_line r) (ls_end_line r) None)
      (py_slice rows 0 limit).

End Search.

Import Search.

(** ** security.py *)

Module Security.

(** A [pathlib] path on POSIX: whether it is anchored at the root, and its
    components ([.] and empty components are dropped when a path is built,
    [..] is kept). *)
Record Path := mkPath {
  is_absolute : bool;
  parts : list string
}.

(** [s.split("/")] *)
Fixpoint split_slash_from (cur : list ascii) (s : string) : list string :=
  match s with
  | EmptyString => [string_of_list_ascii (rev cur)]
  | String c r =>
      if Ascii.eqb c "/"%char
      then string_of_list_ascii (rev cur) :: split_slash_from [] r
      else split_slash_from (c :: cur) r
  end.

(** [Path(s)] *)
Definition path_of_string (s : string) : Path :=
  mkPath (String.prefix "/" s)
    (filter (fun p => p ≠ "" /\ p ≠ ".") (split_slash_from [] s)).

(** [a / b]: an absolute right operand replaces the left one. *)
Definition path_join (a b : Path) : Path :=
  if is_absolute b then b else mkPath (is_absolute a) (parts a ++ parts b).

(** [p.relative_to(base)] succeeds: same anchor, and the components of
    [base] are a prefix of those of [p]. *)
Definition is_relative_to (p base : Path) : bool :=
  Bool.eqb (is_absolute p) (is_absolute base)
  && bool_decide (take (length (parts base)) (parts p) = parts base).

(** [Path.resolve] where no component is a symbolic link: every [..]
    removes the component before it, and stays at the root there. *)
Definition lexical_resolve (p : Path) : Path :=
  mkPath true
    (fold_left (fun acc c => if seqb c ".." then removelast acc else acc ++ [c])
       (parts p) []).

(** How a call ends: a value, the access-denied error of this module, or
    an [OSError] of the file system. *)
Inductive result (A : Type) :=
| Ok (a : A)
| PathAccessError (message : string)
| OSError.

Arguments Ok {A}.
Arguments PathAccessError {A}.
Arguments OSError {A}.

Section WithFileSystem.

(** [Path.resolve] on the host file system. *)
Variable resolve : Path -> Path.

Definition normalize_rel_file (repo_root : Path) (file_path : string) : result Path :=
  let p := path_of_string file_path in
  if is_absolute p
  then PathAccessError "file_path must be relative to repo_root (not absolute)."
  else
    let resolved := resolve (path_join repo_root p) in
    if is_relative_to resolved repo_root
    then Ok resolved
    else PathAccessError "file_path escapes repo_root (.. or symlink traversal).".

(** [abs_path.read_text(...)]: the file's text, or [None] on [OSError]. *)
Variable read_text : Path -> option string.

(** The tool [codebase_fetch] on an already normalised [repo_root]: the
    outcome, and the paths whose contents were read. *)
Definition codebase_fetch (rr : Path) (file_path : string) (start_line end_line : Z)
    : result (Z * Z * string) * list Path :=
  match normalize_rel_file rr file_path with
  | PathAccessError m => (PathAccessError m, [])
  | OSError => (OSError, [])
  | Ok abs_path =>
      let start := Z.max 1 start_line in
      let end_ := Z.min (Z.max start end_line) (start + 600) in
      match read_text abs_path with
      | None => (OSError, [abs_path])
      | Some content =>
          let text := splitlines content in
          let sl := Z.min start (Z.of_nat (length text) + 1) in
          let el := Z.min end_ (Z.of_nat (length text)) in
          (Ok (sl, el, join nl (py_slice text (sl - 1) el)), [abs_path])
      end
  end.

End WithFileSystem.

End Security.

Import Security.

(** ** rerank.py *)

Module Rerank.

Section WithModel.

Context {F : Type} `{FloatOps F}.

(** [self._model]: [None] when the cross-encoder package is missing,
    else its [predict] on (query, passage) pairs. *)
Variable model : option (list (string * string) -> list F).

(** [Reranker.available] *)
Definition available : bool :=
  match model with Some _ => true | None => false end.

(** [Reranker.rerank] *)
Definition rerank (max_pairs : Z) (query : string) (passages : list string) : list F :=
  match model with
  | None => map (fun _ => fzero) passages
  | Some predict =>
      let pairs := map (fun p => (query, p)) (py_slice passages 0 max_pairs) in
      let scores := predict pairs in
      scores ++ map (fun _ => fzero)
                  (py_slice passages (Z.of_nat (length pairs))
                     (Z.of_nat (length passages)))
  end.

End WithModel.

End Rerank.

Import Rerank.

(** ** security.py and server.py: the repository root and the fetch tool *)

Module RepoRoot.

Section WithFileSystem.

Variable resolve : Path -> Path.
(** [Path.expanduser], [Path.exists] and [Path.is_dir] on the host. *)
Variable expanduser : Path -> Path.
Variable exists_ : Path -> bool.
Variable is_dir : Path -> bool.

(** The loop [for base in allowed_roots] of [normalize_repo_root]. *)
Fixpoint first_allowed (rr : Path) (allowed_roots : list Path) : bool :=
  match allowed_roots with
  | [] => false
  | base :: rest => if is_relative_to rr base then true else first_allowed rr rest
  end.

(** The values interpolated into the two messages are left out. *)
Definition normalize_repo_root (repo_root : string) (allowed_roots : list Path)
    : result Path :=
  let rr := resolve (expanduser (path_of_string repo_root)) in
  if negb (exists_ rr) || negb (is_dir rr)
  then PathAccessError "repo_root does not exist or is not a directory"
  else if first_allowed rr allowed_roots
  then Ok rr
  else PathAccessError "repo_root is not within MCP_ALLOWED_ROOTS.".

Variable read_text : Path -> option string.

(** The tool [codebase_fetch] of server.py from its arguments: the
    outcome and the paths whose contents were read. *)
Definition codebase_fetch_tool (allowed_roots : list Path) (repo_root file_path : string)
    (start_line end_line : Z) : result (Z * Z * string) * list Path :=
  match normalize_repo_root repo_root allowed_roots with
  | Ok rr => codebase_fetch resolve read_text rr file_path start_line end_line
  | PathAccessError m => (PathAccessError m, [])
  | OSError => (OSError, [])
  end.

End WithFileSystem.

(** The path cleaning of the tool [index_refresh]: each path is trimmed
    and stripped of leading slashes, and dropped when nothing is left or
    when it begins with two dots. *)
Definition clean_rel_paths (rel_paths : list string) : list string :=
  fold_left
    (fun clean p =>
       let p := lstrip_slash (strip p) in
       if negb (truthy p) || startswith p ".." then clean else clean ++ [p])
    rel_paths [].

End RepoRoot.

Import RepoRoot.

(** ** indexer.py: [index_paths] *)

Module IndexPaths.

(** [str(p)] *)
Definition path_str (p : Path) : string :=
  if is_absolute p then "/" +:+ join "/" (parts p)
  else match parts p with
       | [] => "."
       | _ => join "/" (parts p)
       end.

Section Paths.

Variable ast_parse : string -> option module.
Variable uuid5 : string -> string.
Variable sha256_text : string -> string.
Variable V : Type.
Variable embed_passages : list string -> list V.

Variable resolve : Path -> Path.
(** What the loop reads of the host at a resolved path [f]: [None] when
    [not f.exists() or not f.is_file()], else [f.stat()] (as in
    [FileObs]), [guess_language(f)], [sha256_file(f)] and
    [safe_read_text(f)]. *)
Variable file_at : Path -> option (option (float * Z) * string * string * string).

(** One iteration of [for rel in rel_paths]. From [st = f.stat()] on,
    its text is that of the loop body of [index_repo], with the given
    [rel] as the file's key. *)
Definition index_path (cfg : Config) (repo_root : Path) (wid git_ref now : string)
    (run : Run V) (rel : string) : option (Run V) :=
  let processed' := processed V run + 1 in
  let f := resolve (path_join repo_root (path_of_string rel)) in
  if is_relative_to f repo_root then
    match file_at f with
    | None => Some (mkRun V processed' (changed V run) (store V run))
    | Some (st, lang, file_hash, text_) =>
        index_file ast_parse uuid5 sha256_text V embed_passages cfg wid git_ref now run
          (mkFileObs rel st lang file_hash text_)
    end
  else Some (mkRun V processed' (changed V run) (store V run)).

(** [index_paths] from the registration of the workspace and snapshot
    on. Returns the final store with [paths_total] and [paths_changed]. *)
Definition index_paths (cfg : Config) (repo_root : Path) (wid git_ref now : string)
    (rel_paths : list string) (st0 : Store V) : option (Store V * Z * Z) :=
  let st1 :=
    exec "INSERT OR IGNORE INTO workspaces"
      (fun t => set_workspaces
         (insert_or_ignore (fun a b => seqb a.1.1 b.1.1) (workspaces t)
            (wid, path_str repo_root, now)) t) st0 in
  let st2 :=
    exec "INSERT OR REPLACE INTO snapshots"
      (fun t => set_snapshots
         (insert_or_replace (fun a b => seqb a.1.1 b.1.1 && seqb a.1.2 b.1.2) (snapshots t)
            (wid, git_ref, now)) t) st1 in
  let final :=
    fold_left (fun acc rel => acc ≫= fun run => index_path cfg repo_root wid git_ref now run rel)
      rel_paths (Some (mkRun V 0 0 st2)) in
  option_map (fun run => (store V run, Z.of_nat (length rel_paths), changed V run)) final.

End Paths.

End IndexPaths.

Import IndexPaths.

(** ** search.py: the merge of [hybrid_search] and the reference lookup *)

Module Hybrid.

(** A hit as [semantic_search] and [lexical_search] return it. *)
Record Hit (F : Type) := mkHit {
  hit_score : F;
  hit_file_path : option string;
  hit_start_line : Z;
  hit_end_line : Z;
  hit_language : option string;
  hit_chunk_type : option string;
  hit_symbol_name : option string;
  hit_git_ref : option string;
  hit_preview : string;
  hit_text : string;
  hit_source : string
}.

Arguments mkHit {F}.
Arguments hit_score {F}.
Arguments hit_file_path {F}.
Arguments hit_start_line {F}.
Arguments hit_end_line {F}.
Arguments hit_language {F}.
Arguments hit_chunk_type {F}.
Arguments hit_symbol_name {F}.
Arguments hit_git_ref {F}.
Arguments hit_preview {F}.
Arguments hit_text {F}.
Arguments hit_source {F}.

(** A merged candidate: the copied hit with [_sem] and [_lex]. *)
Record Candidate (F : Type) := mkCandidate {
  c_hit : Hit F;
  _sem : F;
  _lex : F
}.

Arguments mkCandidate {F}.
Arguments c_hit {F}.
Arguments _sem {F}.
Arguments _lex {F}.

(** The location key: (git_ref, file_path, start_line, end_line). *)
Definition Key : Type := option string * option string * Z * Z.

Section Merge.

Context {F : Type} `{FloatOps F}.

(** The closure [key] *)
Definition key (h : Hit F) : Key :=
  (hit_git_ref h, hit_file_path h, hit_start_line h, hit_end_line h).

(** [merged[k]] and [merged[k] = v] on a dict, which keeps its keys in
    the order of their first insertion. *)
Fixpoint dict_get (k : Key) (merged : list (Key * Candidate F)) : option (Candidate F) :=
  match merged with
  | [] => None
  | (k', v) :: rest => if decide (k' = k) then Some v else dict_get k rest
  end.

Fixpoint dict_set (k : Key) (v : Candidate F) (merged : list (Key * Candidate F))
    : list (Key * Candidate F) :=
  match merged with
  | [] => [(k, v)]
  | (k', v') :: rest =>
      if decide (k' = k) then (k, v) :: rest else (k', v') :: dict_set k v rest
  end.

Definition set_lex (x : F) (c : Candidate F) : Candidate F :=
  mkCandidate (c_hit c) (_sem c) x.

Definition set_text (t : string) (c : Candidate F) : Candidate F :=
  let h := c_hit c in
  mkCandidate
    (mkHit (hit_score h) (hit_file_path h) (hit_start_line h) (hit_end_line h)
       (hit_language h) (hit_chunk_type h) (hit_symbol_name h) (hit_git_ref h)
       (hit_preview h) t (hit_source h))
    (_sem c) (_lex c).

(** [for h in sem] *)
Definition merge_semantic (sem : list (Hit F)) (merged : list (Key * Candidate F))
    : list (Key * Candidate F) :=
  fold_left
    (fun merged h => dict_set (key h) (mkCandidate h (clamp01 (hit_score h)) fzero) merged)
    sem merged.

(** [for h in lex] *)
Definition merge_lexical (lex : list (Hit F)) (merged : list (Key * Candidate F))
    : list (Key * Candidate F) :=
  fold_left
    (fun merged h =>
       let k := key h in
       match dict_get k merged with
       | None => dict_set k (mkCandidate h fzero (clamp01 (hit_score h))) merged
       | Some c =>
           let c := set_lex (py_max (_lex c) (clamp01 (hit_score h))) c in
           let c := if negb (truthy (hit_text (c_hit c))) && truthy (hit_text h)
                    then set_text (hit_text h) c else c in
           dict_set k c merged
       end)
    lex merged.

(** [candidates = list(merged.values())] *)
Definition merge_candidates (sem lex : list (Hit F)) : list (Candidate F) :=
  map snd (merge_lexical lex (merge_semantic sem [])).

(** [c["_hybrid"]] *)
Definition _hybrid (alpha : F) (c : Candidate F) : F :=
  hybrid_score alpha (_sem c) (_lex c).

End Merge.

(** *** [py_symbol_references] *)

(** [ORDER BY file_path, line] on rows of [py_refs]: a stable insertion
    sort under the byte-wise order on paths. *)
Definition ref_le (a b : PyRefRow) : bool :=
  match String.compare (pr_file_path a) (pr_file_path b) with
  | Lt => true
  | Eq => pr_line a <=? pr_line b
  | Gt => false
  end.

Fixpoint insert_ref (r : PyRefRow) (l : list PyRefRow) : list PyRefRow :=
  match l with
  | [] => [r]
  | x :: l' => if ref_le x r then x :: insert_ref r l' else r :: l
  end.

Definition order_refs (l : list PyRefRow) : list PyRefRow :=
  fold_left (fun acc r => insert_ref r acc) l [].

(** A result row: file_path, line, col, context, git_ref. *)
Record RefHit := mkRefHit {
  rh_file_path : string; rh_line : Z; rh_col : Z; rh_context : string;
  rh_git_ref : string
}.

Definition ref_selected (wid symbol_name : string) (git_ref path_prefix : option string)
    (r : PyRefRow) : bool :=
  seqb (pr_workspace_id r) wid && seqb (pr_symbol_name r) symbol_name
  && match git_ref with
     | Some g => if truthy g then seqb (pr_git_ref r) g else true
     | None => true
     end
  && match path_prefix with
     | Some p => if truthy p then like (pr_file_path r) (lstrip_slash (strip p) +:+ "%")
                 else true
     | None => true
     end.

Definition py_symbol_references (t : Tables) (wid symbol_name : string)
    (git_ref path_prefix : option string) (limit : Z) : list RefHit :=
  map (fun r => mkRefHit (pr_file_path r) (pr_line r) (pr_col r) (pr_context r)
                  (pr_git_ref r))
    (sql_limit limit
       (order_refs
          (filter (fun r => ref_selected wid symbol_name git_ref path_prefix r = true)
             (py_refs t)))).

End Hybrid.

Import Hybrid.

(** ** search.py: [py_callgraph] *)

Module Callgraph.

(** An entry of [nodes]: the row of the symbol, or the marker
    [{"symbol_id": sid, "missing": True}]. *)
Inductive NodeInfo :=
| Found (r : PySymbolRow)
| Missing (symbol_id : string).

(** An entry of [edges]. *)
Record GraphEdge := mkGraphEdge {
  ge_from : string;
  ge_to : string;
  ge_to_symbol_id : option string;
  ge_to_name : string;
  ge_call_line : Z
}.

(** What the loops update: the dict [nodes], the list [edges] and the
    set [new_frontier] (in the order of first insertion). *)
Record Graph := mkGraph {
  nodes : list (string * NodeInfo);
  edges : list GraphEdge;
  new_frontier : list string
}.

(** What [py_callgraph] returns: nodes, edges and, without the error,
    the revision. *)
Inductive GraphResult :=
| GraphOf (nodes : list NodeInfo) (edges : list GraphEdge) (git_ref : string)
| GraphError (nodes : list NodeInfo) (edges : list GraphEdge) (error : string).

(** Truthiness of a nullable text column. *)
Definition truthy_opt (x : option string) : bool :=
  match x with Some s => truthy s | None => false end.

(** [s.lower()] on the ASCII letters. *)
Fixpoint py_lower (s : string) : string :=
  match s with
  | EmptyString => EmptyString
  | String c r => String (ascii_lower c) (py_lower r)
  end.

(** [SELECT ... FROM py_symbols WHERE symbol_id=? AND workspace_id=? AND git_ref=? LIMIT 1] *)
Definition fetch_symbol (t : Tables) (wid git_ref sid : string) : option PySymbolRow :=
  head (filter (fun r => (seqb (ps_symbol_id r) sid && seqb (ps_workspace_id r) wid
                          && seqb (ps_git_ref r) git_ref) = true) (py_symbols t)).

(** The closure [add_node] *)
Definition add_node (t : Tables) (wid git_ref sid : string)
    (nodes : list (string * NodeInfo)) : list (string * NodeInfo) :=
  if existsb (seqb sid) (map fst nodes) then nodes
  else nodes ++ [(sid, match fetch_symbol t wid git_ref sid with
                       | Some r => Found r
                       | None => Missing sid
                       end)].

(** [s.add(x)] on a set *)
Definition set_add (x : string) (s : list string) : list string :=
  if existsb (seqb x) s then s else s ++ [x].

Section Graph.

(** [list(frontier)]: the order in which a set is iterated. *)
Variable set_order : list string -> list string.

Variables (t : Tables) (wid git_ref : string) (limit_per_hop : Z).

(** The rows of the two [SELECT ... FROM py_call_edges] statements. *)
Definition out_rows (sid : string) : list EdgeRow :=
  sql_limit limit_per_hop
    (filter (fun r => (seqb (e_workspace_id r) wid && seqb (e_git_ref r) git_ref
                       && seqb (e_from_symbol_id r) sid) = true) (py_call_edges t)).

Definition in_rows (sid : string) : list EdgeRow :=
  sql_limit limit_per_hop
    (filter (fun r => (seqb (e_workspace_id r) wid && seqb (e_git_ref r) git_ref
                       && bool_decide (e_to_symbol_id r = Some sid)) = true)
       (py_call_edges t)).

(** The body of [for r in out_rows] *)
Definition out_row (sid : string) (g : Graph) (r : EdgeRow) : Graph :=
  let to_id := e_to_symbol_id r in
  let edges' :=
    edges g ++ [mkGraphEdge sid
                  (match to_id with
                   | Some i => if truthy i then i else e_to_name r
                   | None => e_to_name r
                   end)
                  to_id (e_to_name r) (e_call_line r)] in
  match to_id with
  | Some i =>
      if truthy i
      then mkGraph (add_node t wid git_ref i (nodes g)) edges' (set_add i (new_frontier g))
      else mkGraph (nodes g) edges' (new_frontier g)
  | None => mkGraph (nodes g) edges' (new_frontier g)
  end.

(** The body of [for r in in_rows] *)
Definition in_row (sid : string) (g : Graph) (r : EdgeRow) : Graph :=
  let frm := e_from_symbol_id r in
  let edges' :=
    edges g ++ [mkGraphEdge frm sid (Some sid) (e_to_name r) (e_call_line r)] in
  if truthy frm
  then mkGraph (add_node t wid git_ref frm (nodes g)) edges' (set_add frm (new_frontier g))
  else mkGraph (nodes g) edges' (new_frontier g).

(** The body of [for sid in list(frontier)] *)
Definition visit_symbol (direction : string) (g : Graph) (sid : string) : Graph :=
  let g1 :=
    if seqb direction "out" || seqb direction "both"
    then fold_left (out_row sid) (out_rows sid) g else g in
  if seqb direction "in" || seqb direction "both"
  then fold_left (in_row sid) (in_rows sid) g1 else g1.

(** [for _ in range(depth)], from a frontier: one hop, then the next
    ones unless the new frontier is empty. *)
Fixpoint hops (depth : nat) (direction : string) (frontier : list string) (g : Graph)
    : Graph :=
  match depth with
  | O => g
  | S depth' =>
      let g' :=
        fold_left (visit_symbol direction) (set_order frontier)
          (mkGraph (nodes g) (edges g) []) in
      match new_frontier g' with
      | [] => g'
      | frontier' => hops depth' direction frontier' g'
      end
  end.

End Graph.

(** [py_callgraph] *)
Definition py_callgraph (set_order : list string -> list string) (t : Tables)
    (wid symbol_id : string) (depth : Z) (direction : string) (git_ref : option string)
    (limit_per_hop : Z) : GraphResult :=
  let git_ref :=
    if truthy_opt git_ref then git_ref
    else
      match filter (fun r => (seqb (ps_symbol_id r) symbol_id
                              && seqb (ps_workspace_id r) wid) = true) (py_symbols t) with
      | r0 :: _ => Some (ps_git_ref r0)
      | [] => git_ref
      end in
  match git_ref with
  | Some g =>
      if truthy g then
        let direction := py_lower (if truthy direction then direction else "out") in
        let depth := Z.max 1 depth in
        let g0 := mkGraph (add_node t wid g symbol_id []) [] [] in
        let final :=
          hops set_order t wid g limit_per_hop (Z.to_nat depth) direction [symbol_id] g0 in
        GraphOf (map snd (nodes final)) (edges final) g
      else GraphError [] [] "git_ref not found for symbol_id"
  | None => GraphError [] [] "git_ref not found for symbol_id"
  end.

End Callgraph.

Import Callgraph.

(** * Properties *)

(** ** Sanity checks of the primitives *)

Example strip_ex : strip "  a b  " = "a b".
Proof. reflexivity. Qed.

Example last_segment_ex : last_segment "." "os.path.join" = "join".
Proof. reflexivity. Qed.

Example window_chunks_ex :
  map (fun c => (start_line c, end_line c, text c))
      (_window_chunks "a.py" "python" "function" (Some "f")
         ["def f():"; "    x = 1"; "    return x"] 10 20)
  = [(10, 11, "def f():" +:+ nl +:+ "    x = 1"); (12, 12, "return x")].
Proof. reflexivity. Qed.

Example chunk_fallback_ex :
  option_map (map (fun c => (start_line c, end_line c)))
    (chunk_fallback "t.txt" ("L1" +:+ nl +:+ "L2" +:+ nl +:+ "L3" +:+ nl +:+ "L4" +:+ nl +:+ "L5") "text" 2 1)
  = Some [(1, 2); (2, 3); (3, 4); (4, 5)].
Proof. reflexivity. Qed.

(** ** Facts about the string and slice primitives *)

Lemma slen_nonneg s : 0 <= slen s.
Proof. unfold slen. lia. Qed.

Lemma lstrip_length s : (String.length (lstrip s) <= String.length s)%nat.
Proof.
  induction s as [|c r IH]; simpl; [lia|].
  destruct (is_space c); simpl; lia.
Qed.

Lemma rstrip_length s : (String.length (rstrip s) <= String.length s)%nat.
Proof.
  induction s as [|c r IH]; simpl; [lia|].
  destruct (rstrip r) eqn:E.
  - destruct (is_space c); simpl; lia.
  - simpl in *. lia.
Qed.

Lemma strip_slen s : slen (strip s) <= slen s.
Proof.
  unfold strip, slen.
  pose proof (lstrip_length (rstrip s)). pose proof (rstrip_length s). lia.
Qed.


(** ** Properties of the chunkers *)

Section ChunkFallbackFacts.

Variables (rel_path language : string) (lines : list string).
Variables (max_lines overlap_lines : Z).

Let n : Z := Z.of_nat (length lines).

(** The chunk formed by the iteration that starts at index [i]. *)
Definition fallback_chunk (i : Z) : Chunk :=
  mkChunk rel_path language "window" None (i + 1)
    (Z.min (Z.of_nat (length lines)) (i + max_lines))
    (window_text lines max_lines i).

(** What that iteration appends to [out]. *)
Definition fallback_emit (i : Z) : list Chunk :=
  if truthy (window_text lines max_lines i) then [fallback_chunk i] else [].

(** [i] after one iteration that does not [break]. *)
Definition fallback_next (i : Z) : Z :=
  Z.max 0 (Z.min (Z.of_nat (length lines)) (i + max_lines) - overlap_lines).

Local Abbreviation loop fuel i out :=
  (chunk_fallback_loop fuel rel_path language lines max_lines overlap_lines i out).

Lemma loop_unfold fuel i out :
  loop (S fuel) i out =
  if i <? n then
    if n <=? Z.min n (i + max_lines) then Some (out ++ fallback_emit i)
    else loop fuel (fallback_next i) (out ++ fallback_emit i)
  else Some out.
Proof.
  subst n. cbn [chunk_fallback_loop]. unfold fallback_emit, fallback_chunk, window_text.
  destruct (i <? _); [|reflexivity].
  destruct (truthy _); rewrite ?app_nil_r; reflexivity.
Qed.

(** The accumulator [out] is only ever appended to. *)
Lemma loop_acc fuel : forall i out,
  loop fuel i out = option_map (app out) (loop fuel i []).
Proof.
  induction fuel as [|fuel IH]; intros i out; [reflexivity|].
  rewrite !loop_unfold.
  destruct (i <? n); [|simpl; by rewrite app_nil_r].
  destruct (n <=? _); [reflexivity|].
  rewrite (IH _ (out ++ _)), (IH _ ([] ++ _)).
  destruct (loop fuel _ []); simpl; [by rewrite app_assoc|reflexivity].
Qed.

(** More fuel never changes a result. *)
Lemma loop_fuel_mono fuel : forall fuel' i out r,
  (fuel <= fuel')%nat -> loop fuel i out = Some r -> loop fuel' i out = Some r.
Proof.
  induction fuel as [|fuel IH]; intros fuel' i out r Hle H; [discriminate|].
  destruct fuel' as [|fuel']; [lia|].
  rewrite loop_unfold in *.
  destruct (i <? n); [|exact H].
  destruct (n <=? _); [exact H|].
  apply IH; [lia|exact H].
Qed.

(** If an iteration neither breaks nor advances [i], the loop never exits. *)
Lemma loop_stuck fuel : forall i out,
  i < n -> i + max_lines < n -> fallback_next i <= i ->
  loop fuel i out = None.
Proof.
  induction fuel as [|fuel IH]; intros i out H1 H2 H3; [reflexivity|].
  rewrite loop_unfold.
  destruct (Z.ltb_spec i n); [|lia].
  destruct (Z.leb_spec n (Z.min n (i + max_lines))); [lia|].
  unfold fallback_next in *. fold n in H3 |- *.
  apply IH; fold n; lia.
Qed.

(** Whenever the loop exits at all, it exits within [n - i + 1] iterations. *)
Lemma loop_fuel_adequate fuel : forall i out r,
  0 <= i -> loop fuel i out = Some r ->
  loop (S (Z.to_nat (n - i))) i out = Some r.
Proof.
  induction fuel as [|fuel IH]; intros i out r Hi H; [discriminate|].
  rewrite loop_unfold in *.
  destruct (Z.ltb_spec i n); [|exact H].
  destruct (Z.leb_spec n (Z.min n (i + max_lines))); [exact H|].
  destruct (Z_le_gt_dec (fallback_next i) i) as [Hs|Hs].
  - rewrite loop_stuck in H; [discriminate|unfold fallback_next in *; subst n; lia..].
  - apply IH in H; [|unfold fallback_next; lia].
    eapply loop_fuel_mono; [|exact H]. lia.
Qed.

(** In the parameter range [overlap_lines < max_lines] the start index
    strictly advances on every iteration that does not break. *)
Lemma fallback_next_advances i :
  overlap_lines < max_lines -> 0 <= i ->
  Z.min n (i + max_lines) < n -> i < fallback_next i.
Proof. unfold fallback_next. fold n. lia. Qed.

Lemma loop_returns fuel : forall i,
  overlap_lines < max_lines -> 0 <= i ->
  (Z.to_nat (n - i) < fuel)%nat ->
  exists p, loop fuel i [] = Some p.
Proof.
  induction fuel as [|fuel IH]; intros i Hp Hi Hf; [lia|].
  rewrite loop_unfold.
  destruct (Z.ltb_spec i n); [|eauto].
  destruct (Z.leb_spec n (Z.min n (i + max_lines))); [eauto|].
  rewrite loop_acc.
  pose proof (fallback_next_advances i Hp Hi ltac:(lia)) as Hadv.
  destruct (IH (fallback_next i) Hp ltac:(lia) ltac:(lia)) as [p ->].
  simpl. eauto.
Qed.

End ChunkFallbackFacts.

Lemma chunk_fallback_fuel_adequate rel_path text language max_lines overlap_lines fuel r :
  chunk_fallback_loop fuel rel_path language (splitlines text)
    max_lines overlap_lines 0 [] = Some r ->
  chunk_fallback rel_path text language max_lines overlap_lines = Some r.
Proof.
  intros H. apply loop_fuel_adequate in H; [|lia].
  unfold chunk_fallback. rewrite Z.sub_0_r, Nat2Z.id in H. exact H.
Qed.

Section WindowChunksFacts.

Variables (rel_path lang : string) (symbol : option string).
Variables (all_lines : list string) (max_chunk_chars : Z).

(** A window fits the character limit, or it is one source line that is
    itself longer than the limit. *)
Definition window_fits (c : Chunk) : Prop :=
  slen (text c) <= max_chunk_chars
  \/ (start_line c = end_line c /\
      exists line, line ∈ all_lines /\ max_chunk_chars < slen line /\ text c = strip line).

Definition buf_fits (buf : list string) : Prop :=
  buf = [] \/ slen (join nl buf) <= max_chunk_chars
  \/ exists line, buf = [line] /\ line ∈ all_lines /\ max_chunk_chars < slen line.

Definition wstate_ok (st : WState) : Prop :=
  w_cur_line st = w_buf_start st + Z.of_nat (length (w_buf st))
  /\ buf_fits (w_buf st)
  /\ Forall window_fits (w_out st).

Lemma flush_fits out buf_start cur buf :
  cur = buf_start + Z.of_nat (length buf) ->
  buf_fits buf -> Forall window_fits out ->
  Forall window_fits (flush rel_path lang symbol out buf_start cur buf).
Proof.
  intros Hc Hb Ho. unfold flush.
  destruct (truthy _) eqn:Ht; [|exact Ho].
  apply Forall_app; split; [exact Ho|].
  constructor; [|constructor].
  destruct Hb as [->|[Hb|(line & -> & Hin & Hlen)]].
  - discriminate Ht.
  - left. simpl. pose proof (strip_slen (join nl buf)). lia.
  - right. simpl in *. split; [lia|]. exists line. auto.
Qed.

Lemma singleton_buf_fits line : line ∈ all_lines -> buf_fits [line].
Proof.
  intros Hin. unfold buf_fits.
  destruct (Z_le_gt_dec (slen line) max_chunk_chars).
  - right; left. exact l.
  - right; right. exists line. repeat split; [exact Hin|lia].
Qed.

Lemma window_step_ok st line :
  line ∈ all_lines -> wstate_ok st ->
  wstate_ok (window_step rel_path lang symbol max_chunk_chars st line).
Proof.
  intros Hin (Hc & Hb & Ho). unfold window_step.
  destruct (bool_decide (w_buf st ≠ [])) eqn:Hne; simpl.
  - destruct (Z.ltb_spec max_chunk_chars (slen (join nl (w_buf st ++ [line])))).
    + split; [|split]; simpl; [lia|by apply singleton_buf_fits|by apply flush_fits].
    + split; [|split]; simpl; [rewrite length_app; simpl; lia| |exact Ho].
      right; left. exact H.
  - apply bool_decide_eq_false in Hne. apply dec_stable in Hne.
    rewrite Hne in *. split; [|split]; simpl in *; [lia|by apply singleton_buf_fits|exact Ho].
Qed.

Lemma window_fold_ok l : forall st,
  l ⊆ all_lines -> wstate_ok st ->
  wstate_ok (fold_left (window_step rel_path lang symbol max_chunk_chars) l st).
Proof.
  induction l as [|x l IH]; intros st Hsub Hst; [exact Hst|].
  simpl. apply IH; [set_solver|]. apply window_step_ok; [set_solver|exact Hst].
Qed.

End WindowChunksFacts.

Lemma window_chunks_fit rel_path lang chunk_type symbol lines start max_chunk_chars :
  Forall (window_fits lines max_chunk_chars)
    (_window_chunks rel_path lang chunk_type symbol lines start max_chunk_chars).
Proof.
  unfold _window_chunks.
  pose proof (window_fold_ok rel_path lang symbol lines max_chunk_chars lines
                (mkWState [] [] start start)) as H.
  destruct H as (Hc & Hb & Ho); [set_solver| |].
  { split; [|split]; simpl; [lia|by left|constructor]. }
  destruct (bool_decide _); [|exact Ho].
  by apply flush_fits.
Qed.

(** ** What [chunk_fallback] returns *)

Section ChunkFallbackSpec.

Variables (rel_path language : string) (lines : list string).
Variables (max_lines overlap_lines : Z).
Hypothesis params_ok : 0 <= overlap_lines < max_lines.

Let n : Z := Z.of_nat (length lines).

Local Abbreviation loop fuel i out :=
  (chunk_fallback_loop fuel rel_path language lines max_lines overlap_lines i out).
Local Abbreviation chunk_at := (fallback_chunk rel_path language lines max_lines).
Local Abbreviation emit_at := (fallback_emit rel_path language lines max_lines).





End ChunkFallbackSpec.





Example window_chunks_long_line :
  map (fun c => (start_line c, end_line c, slen (text c)))
    (_window_chunks "a.py" "python" "function" (Some "f")
       ["def f():"; "    return 'aaaaaaaaaaaaaaaaaaaaaaaa'"] 1 20)
  = [(1, 1, 8); (2, 2, 33)].
Proof. reflexivity. Qed.

Example chunk_fallback_blank_window :
  option_map (map (fun c => (start_line c, end_line c)))
    (chunk_fallback "t.txt"
       ("a" +:+ nl +:+ "b" +:+ nl +:+ nl +:+ nl +:+ "c" +:+ nl +:+ "d") "text" 2 1)
  = Some [(1, 2); (2, 3); (4, 5); (5, 6)].
Proof. reflexivity. Qed.




(** C10: for [0 <= overlap_lines < max_lines], [chunk_fallback] returns on
    every text (the same list for every fuel above the number of lines),
    because the start index strictly advances on each iteration that does
    not break; the function does not check the precondition, and with the
    overlap raised to [max_lines] or more the loop never exits on a text of
    more than [max_lines] lines. *)
Theorem chunk_fallback_terminates
    (rel_path text language : string) (max_lines overlap_lines : Z) :
  0 <= overlap_lines < max_lines ->
  let lines := splitlines text in
  let n := Z.of_nat (length lines) in
  (exists out,
     chunk_fallback rel_path text language max_lines overlap_lines = Some out
     /\ forall fuel, (length lines < fuel)%nat ->
          chunk_fallback_loop fuel rel_path language lines
            max_lines overlap_lines 0 [] = Some out)
  /\ (forall i, 0 <= i < n -> Z.min n (i + max_lines) < n ->
        i < Z.max 0 (Z.min n (i + max_lines) - overlap_lines))
  /\ (forall overlap', max_lines <= overlap' -> max_lines < n ->
        forall fuel,
          chunk_fallback_loop fuel rel_path language lines
            max_lines overlap' 0 [] = None).
Proof.
  intros Hp lines n. split; [|split].
  - destruct (loop_returns rel_path language lines max_lines overlap_lines
                (S (length lines)) 0) as [out Hout]; [lia..|].
    exists out. split; [exact Hout|].
    intros fuel Hf. eapply loop_fuel_mono; [|exact Hout]. lia.
  - intros i Hi Hj.
    apply (fallback_next_advances lines max_lines overlap_lines i); [lia..|exact Hj].
  - intros ol' Hol Hn fuel.
    apply loop_stuck; [lia..|]. unfold fallback_next. lia.
Qed.

Lemma chunk_fallback_terminates_witness :
  0 <= 40 < 220
  /\ exists out, chunk_fallback "t.txt" ("a" +:+ nl +:+ "b") "text" 220 40 = Some out.
Proof.
  split; [lia|].
  destruct (chunk_fallback_terminates "t.txt" ("a" +:+ nl +:+ "b") "text" 220 40
              ltac:(lia)) as [(out & Hout & _) _].
  exists out. exact Hout.
Defined.

(** ** The indexing pipeline *)

(** A two-version scenario: a file with two functions, each calling [g],
    is indexed, then its second half is deleted and it is indexed again. *)
Module Scenario.

Definition v1 : string :=
  "def f():" +:+ nl +:+ "    g()" +:+ nl +:+ "def h():" +:+ nl +:+ "    g()" +:+ nl.

Definition v2 : string := "def f():" +:+ nl +:+ "    g()" +:+ nl.

(** [def name(): g()] on lines [l1..l2]: the [arguments] node, then the
    expression statement holding the call. *)
Definition fdef (name : string) (l1 l2 : Z) : node :=
  FunctionDef name (Some l1) (Some l2)
    [Other []; Other [Call (Name "g" Load (Some l2) (Some 4)) [] (Some l2)]].

(** [ast.parse] on the two versions. *)
Definition parse (s : string) : option module :=
  if seqb s v1 then Some [fdef "f" 1 2; fdef "h" 3 4]
  else if seqb s v2 then Some [fdef "f" 1 2]
  else None.

Definition uuid5 (key : string) : string := "uuid5(" +:+ key +:+ ")".
Definition sha256_text (s : string) : string := "sha256(" +:+ s +:+ ")".
Definition embed_passages (ps : list string) : list unit := map (fun _ => tt) ps.

Definition cfg : Config := mkConfig 8000 220 40.
Definition empty_store : Store unit := mkStore empty_tables [] [].

Definition obs1 : FileObs := mkFileObs "a.py" (Some (1%float, 36)) "python" "digest1" v1.
Definition obs2 : FileObs := mkFileObs "a.py" (Some (2%float, 18)) "python" "digest2" v2.

Definition run (now : string) (files : list FileObs) (st : Store unit) :=
  index_repo parse uuid5 sha256_text unit embed_passages cfg "W" "/repo" "working_tree"
    now files st.

Definition id_of (qualname : string) (l1 l2 : Z) : string :=
  make_symbol_id uuid5 "W" "working_tree" "a.py" qualname "function" l1 l2.

End Scenario.

(** *** Unchanged files *)

(** C3: a file whose stored FileRecord carries the same digest, the same
    modification time and the same size is counted as processed and
    nothing else happens: the tables, the vector points and the trace of
    write calls are the ones from before, and the changed count stays. *)
Theorem unchanged_file_no_writes
    (ast_parse : string -> option module) (uuid5 sha256_text : string -> string)
    (V : Type) (embed_passages : list string -> list V)
    (cfg : Config) (wid git_ref now : string) (run : Run V) (f : FileObs)
    (st_mtime : float) (st_size : Z) (row : FileRow) :
  f_stat f = Some (st_mtime, st_size) ->
  fetch_file_row wid git_ref (f_rel f) (tables (store V run)) = Some row ->
  fs_sha256 row = f_hash f ->
  PrimFloat.eqb (fs_mtime row) st_mtime = true ->
  fs_size row = st_size ->
  index_file ast_parse uuid5 sha256_text V embed_passages cfg wid git_ref now run f
  = Some (mkRun V (processed V run + 1) (changed V run) (store V run)).
Proof.
  intros Hstat Hrow Hsha Hmtime Hsize.
  unfold index_file. rewrite Hstat, Hrow. unfold unchanged, seqb.
  rewrite Hmtime, bool_decide_eq_true_2 by exact Hsha.
  apply Z.eqb_eq in Hsize. rewrite Hsize. reflexivity.
Qed.

Lemma unchanged_file_no_writes_witness :
  let st := mkStore
              (set_files_snap
                 [mkFileRow "W" "working_tree" "a.py" "digest1" 1%float 36 "python" "t1"]
                 empty_tables) [] [] in
  index_file Scenario.parse Scenario.uuid5 Scenario.sha256_text unit
    Scenario.embed_passages Scenario.cfg "W" "working_tree" "t2"
    (mkRun unit 0 0 st) Scenario.obs1
  = Some (mkRun unit 1 0 st).
Proof.
  intros st.
  apply (unchanged_file_no_writes Scenario.parse Scenario.uuid5 Scenario.sha256_text unit
           Scenario.embed_passages Scenario.cfg "W" "working_tree" "t2"
           (mkRun unit 0 0 st) Scenario.obs1 1%float 36
           (mkFileRow "W" "working_tree" "a.py" "digest1" 1%float 36 "python" "t1"));
    reflexivity.
Defined.

(** The scenario run twice on the same file state: the second run writes
    nothing for the file. *)
Example second_run_is_silent :
  exists st1,
    Scenario.run "t1" [Scenario.obs1] Scenario.empty_store = Some (st1, 1, 1)
    /\ index_file Scenario.parse Scenario.uuid5 Scenario.sha256_text unit
         Scenario.embed_passages Scenario.cfg "W" "working_tree" "t2"
         (mkRun unit 0 0 st1) Scenario.obs1
       = Some (mkRun unit 1 0 st1).
Proof. eexists. split; vm_compute; reflexivity. Qed.

(** *** Call-edge resolution *)

(** The ids of the rows named [name], in row order. *)
Definition ids_named (name : string) (rows : list (string * string)) : list string :=
  map snd (filter (fun r => r.1 = name) rows).

(** The resolution policy in words: the one same-file match, else the one
    snapshot-wide match, else nothing. *)
Definition resolution_policy (local_matches global_matches : list string) : option string :=
  match local_matches with
  | [sid] => Some sid
  | _ => match global_matches with
         | [sid] => Some sid
         | _ => None
         end
  end.

Lemma ids_named_cons name r rows :
  ids_named name (r :: rows)
  = if decide (r.1 = name) then r.2 :: ids_named name rows else ids_named name rows.
Proof. unfold ids_named. rewrite filter_cons. by destruct (decide _). Qed.

Lemma fold_add_name_lookup rows : forall (m : gmap string (list string)) nm,
  fold_left (fun m r => add_name m r.1 r.2) rows m !! nm
  = match ids_named nm rows with
    | [] => m !! nm
    | l => Some (default [] (m !! nm) ++ l)
    end.
Proof.
  induction rows as [|r rows IH]; intros m nm; [reflexivity|].
  simpl. rewrite IH, ids_named_cons. unfold add_name.
  destruct (decide (r.1 = nm)) as [->|Hne].
  - rewrite lookup_insert_eq. simpl.
    destruct (ids_named nm rows); [reflexivity|]. by rewrite <- app_assoc.
  - by rewrite lookup_insert_ne.
Qed.

Lemma name_to_ids_lookup rows nm :
  name_to_ids rows !! nm
  = match ids_named nm rows with [] => None | l => Some l end.
Proof.
  unfold name_to_ids. rewrite fold_add_name_lookup, lookup_empty.
  by destruct (ids_named nm rows).
Qed.

Lemma resolve_callee_policy local_rows global_rows to_name :
  resolve_callee (name_to_ids local_rows) (name_to_ids global_rows) to_name
  = resolution_policy (ids_named (last_segment "." to_name) local_rows)
      (ids_named (last_segment "." to_name) global_rows).
Proof.
  unfold resolve_callee, unique_in, first_of. rewrite !name_to_ids_lookup.
  set (base := last_segment "." to_name).
  destruct (ids_named base local_rows) as [|x [|x' l]]; simpl;
    destruct (ids_named base global_rows) as [|y [|y' g]]; reflexivity.
Qed.

(** The edge stored for one call site, by the policy. *)
Definition edge_by_policy (wid git_ref : string) (qual_to_id : gmap string string)
    (local_rows global_rows : list (string * string)) (c : PyCall) : option EdgeRow :=
  match qual_to_id !! caller_qualname c with
  | Some from_id =>
      if truthy from_id then
        Some (mkEdgeRow wid git_ref from_id (callee c)
                (resolution_policy
                   (ids_named (last_segment "." (callee c)) local_rows)
                   (ids_named (last_segment "." (callee c)) global_rows))
                (call_line c))
      else None
  | None => None
  end.

Lemma call_edge_rows_fold wid git_ref qual_to_id local_rows global_rows py_calls :
  forall acc : list EdgeRow,
  fold_left
    (fun edge_rows c =>
       match qual_to_id !! caller_qualname c with
       | Some from_id =>
           if truthy from_id then
             edge_rows ++
               [mkEdgeRow wid git_ref from_id (callee c)
                  (resolve_callee (name_to_ids local_rows) (name_to_ids global_rows)
                     (callee c))
                  (call_line c)]
           else edge_rows
       | None => edge_rows
       end)
    py_calls acc
  = acc ++ omap (edge_by_policy wid git_ref qual_to_id local_rows global_rows) py_calls.
Proof.
  induction py_calls as [|c cs IH]; intros acc; simpl; [by rewrite app_nil_r|].
  rewrite IH. unfold edge_by_policy at 2.
  destruct (qual_to_id !! caller_qualname c) as [from_id|]; [|reflexivity].
  destruct (truthy from_id); [|reflexivity].
  rewrite resolve_callee_policy, <- app_assoc. reflexivity.
Qed.


(** *** Replacement of a file's rows on re-index *)

Lemma filter_filter_neg {A} (p : A -> bool) (l : list A) :
  filter (fun x => p x = true) (filter (fun x => p x = false) l) = [].
Proof.
  induction l as [|x l IH]; [reflexivity|].
  rewrite (filter_cons (fun x => p x = false)).
  destruct (decide (p x = false)) as [Hx|Hx]; [|exact IH].
  rewrite filter_cons. destruct (decide (p x = true)); [congruence|exact IH].
Qed.

(** Once [py_symbols] holds no row of the file, the subquery of the edge
    [DELETE] is empty. *)
Lemma file_symbol_ids_after_delete wid git_ref rel t :
  file_symbol_ids wid git_ref rel (delete_py_refs wid git_ref rel
                                     (delete_py_symbols wid git_ref rel t)) = [].
Proof.
  unfold file_symbol_ids, delete_py_refs, delete_py_symbols. simpl.
  rewrite (filter_filter_neg
             (fun r => file_key wid git_ref rel (ps_workspace_id r) (ps_git_ref r)
                         (ps_file_path r))).
  reflexivity.
Qed.

(** The edge [DELETE] runs after the symbol [DELETE] and so removes no
    row, whatever the store holds. *)
Lemma delete_file_edges_removes_nothing wid git_ref rel t :
  let t' := delete_py_refs wid git_ref rel (delete_py_symbols wid git_ref rel t) in
  py_call_edges (delete_file_edges wid git_ref rel t') = py_call_edges t.
Proof.
  intros t'. unfold delete_file_edges. subst t'.
  rewrite file_symbol_ids_after_delete. simpl.
  induction (py_call_edges t) as [|e l IH]; [reflexivity|].
  rewrite filter_cons, IH.
  destruct (decide _) as [_|Hne]; [reflexivity|].
  exfalso. apply Hne. by rewrite andb_false_r.
Qed.

(** C1 fails on the code: after the file's second half is deleted and the
    file is indexed again, the call edge of the deleted function [h] is
    still stored, although no symbol row of [h] remains. *)
Theorem stale_call_edge_survives_reindex :
  exists st1 st2,
    Scenario.run "t1" [Scenario.obs1] Scenario.empty_store = Some (st1, 1, 1)
    /\ Scenario.run "t2" [Scenario.obs2] st1 = Some (st2, 1, 1)
    /\ map ps_symbol_id (py_symbols (tables st2)) = [Scenario.id_of "f" 1 2]
    /\ mkEdgeRow "W" "working_tree" (Scenario.id_of "h" 3 4) "g" None 4
       ∈ py_call_edges (tables st2).
Proof.
  eexists. eexists.
  split; [vm_compute; reflexivity|].
  split; [vm_compute; reflexivity|].
  split; [vm_compute; reflexivity|].
  vm_compute. right. left.
Qed.

(** In the same run the other per-file tables hold rows of the new content
    only. *)
Example other_tables_replaced :
  exists st1 st2,
    Scenario.run "t1" [Scenario.obs1] Scenario.empty_store = Some (st1, 1, 1)
    /\ Scenario.run "t2" [Scenario.obs2] st1 = Some (st2, 1, 1)
    /\ map ss_symbol_name (symbols_snap (tables st1)) = ["f"; "h"]
    /\ map ss_symbol_name (symbols_snap (tables st2)) = ["f"]
    /\ map pr_line (py_refs (tables st1)) = [2; 4]
    /\ map pr_line (py_refs (tables st2)) = [2]
    /\ map (fun r => (cf_start_line r, cf_end_line r)) (chunk_fts (tables st1))
       = [(1, 4); (1, 2); (3, 4)]
    /\ map (fun r => (cf_start_line r, cf_end_line r)) (chunk_fts (tables st2))
       = [(1, 2); (1, 2)].
Proof.
  eexists. eexists.
  repeat (split; [vm_compute; reflexivity|]). vm_compute; reflexivity.
Qed.

(** *** The resolution policy at work *)

(** Two files that each define [helper], and a third whose function
    [caller] calls it. *)
Module Helpers.

Definition a_text : string := "def helper():" +:+ nl +:+ "    pass" +:+ nl.
Definition b_text : string := "def helper():" +:+ nl +:+ "    return 1" +:+ nl.
Definition c_text : string := "def caller():" +:+ nl +:+ "    helper()" +:+ nl.

Definition parse (s : string) : option module :=
  if seqb s a_text || seqb s b_text
  then Some [FunctionDef "helper" (Some 1) (Some 2) [Other []; Other []]]
  else if seqb s c_text
  then Some [FunctionDef "caller" (Some 1) (Some 2)
               [Other []; Other [Call (Name "helper" Load (Some 2) (Some 4)) [] (Some 2)]]]
  else None.

Definition a_py : FileObs := mkFileObs "a.py" (Some (1%float, 23)) "python" "da" a_text.
Definition b_py : FileObs := mkFileObs "b.py" (Some (1%float, 27)) "python" "db" b_text.
Definition c_py : FileObs := mkFileObs "c.py" (Some (1%float, 27)) "python" "dc" c_text.

(** The targets of the stored edges after indexing [files] in order. *)
Definition edge_targets (files : list FileObs) : option (list (string * option string)) :=
  option_map
    (fun r => map (fun e => (e_to_name e, e_to_symbol_id e)) (py_call_edges (tables r.1.1)))
    (index_repo parse Scenario.uuid5 Scenario.sha256_text unit Scenario.embed_passages
       Scenario.cfg "W" "/repo" "working_tree" "t1" files Scenario.empty_store).

Definition helper_id (rel : string) : string :=
  make_symbol_id Scenario.uuid5 "W" "working_tree" rel "helper" "function" 1 2.

End Helpers.

Example ambiguous_callee_unresolved :
  Helpers.edge_targets [Helpers.a_py; Helpers.b_py; Helpers.c_py] = Some [("helper", None)].
Proof. vm_compute. reflexivity. Qed.

Example single_callee_resolved :
  Helpers.edge_targets [Helpers.a_py; Helpers.c_py]
  = Some [("helper", Some (Helpers.helper_id "a.py"))].
Proof. vm_compute. reflexivity. Qed.

(** The snapshot-wide lookup reads the symbols stored when the calling
    file is indexed: a definition indexed later does not undo the
    resolution. *)
Example resolution_uses_symbols_stored_so_far :
  Helpers.edge_targets [Helpers.a_py; Helpers.c_py; Helpers.b_py]
  = Some [("helper", Some (Helpers.helper_id "a.py"))].
Proof. vm_compute. reflexivity. Qed.

(** *** The rows that are replaced *)

Lemma filter_key_app_new {A} (p : A -> bool) (old new : list A) :
  Forall (fun x => p x = true) new ->
  filter (fun x => p x = true) (filter (fun x => p x = false) old ++ new) = new.
Proof.
  intros Hnew. rewrite filter_app, filter_filter_neg. simpl.
  induction Hnew as [|x l Hx _ IH]; [reflexivity|].
  rewrite filter_cons. destruct (decide (p x = true)); [by rewrite IH|done].
Qed.

Lemma insert_or_replace_elem {A} (pk : A -> A -> bool) (tbl : list A) (row x : A) :
  x ∈ insert_or_replace pk tbl row -> x ∈ tbl \/ x = row.
Proof.
  unfold insert_or_replace. intros H. apply elem_of_app in H as [H|H].
  - left. by apply list_elem_of_filter in H as [_ H].
  - right. by apply list_elem_of_singleton in H.
Qed.

Lemma insert_or_ignore_elem {A} (pk : A -> A -> bool) (tbl : list A) (row x : A) :
  x ∈ insert_or_ignore pk tbl row -> x ∈ tbl \/ x = row.
Proof.
  unfold insert_or_ignore. destruct (existsb _ tbl); [by left|].
  intros H. apply elem_of_app in H as [H|H]; [by left|].
  right. by apply list_elem_of_singleton in H.
Qed.

Lemma insert_many_elem {A} (ins : list A -> A -> list A) (rows : list A) :
  (forall tbl row x, x ∈ ins tbl row -> x ∈ tbl \/ x = row) ->
  forall tbl x, x ∈ insert_many ins tbl rows -> x ∈ tbl \/ x ∈ rows.
Proof.
  intros Hins. unfold insert_many.
  induction rows as [|r rows IH]; intros tbl x H; simpl in *; [by left|].
  apply IH in H as [H|H]; [|right; by right].
  apply Hins in H as [H| ->]; [by left|right; left].
Qed.

Section Replacement.

Variable ast_parse : string -> option module.
Variables uuid5 sha256_text : string -> string.
Variable V : Type.
Variable embed_passages : list string -> list V.
Variables (wid git_ref now : string) (f : FileObs) (st_mtime : float) (st_size : Z).
Variables (chunks : list Chunk) (symbols_ : list symbol_row).

Local Abbreviation reindexed st :=
  (tables (reindex_file ast_parse uuid5 sha256_text V embed_passages wid git_ref now f
             st_mtime st_size chunks symbols_ st)).

Local Abbreviation in_file w r p := (file_key wid git_ref (f_rel f) w r p).

Lemma file_key_refl : in_file wid git_ref (f_rel f) = true.
Proof. unfold file_key, seqb. by rewrite !bool_decide_eq_true_2. Qed.

(** After a changed file is re-indexed, its lexical rows are exactly the
    rows of the new chunks. *)
Lemma reindex_replaces_chunk_rows (st : Store V) :
  Forall (fun c => file_path c = f_rel f) chunks ->
  filter (fun r => in_file (cf_workspace_id r) (cf_git_ref r) (cf_file_path r) = true)
    (chunk_fts (reindexed st))
  = map (fun c => mkChunkRow wid git_ref (file_path c) (start_line c) (end_line c)
                    (language c) (chunk_type c) (symbol_name c) (text c)) chunks.
Proof.
  intros Hpath. unfold reindex_file.
  set (st3 := if seqb (f_lang f) "python" then _ else _).
  set (key := fun r => in_file (cf_workspace_id r) (cf_git_ref r) (cf_file_path r)).
  assert (Hnew : Forall (fun r => key r = true)
            (map (fun c => mkChunkRow wid git_ref (file_path c) (start_line c)
                             (end_line c) (language c) (chunk_type c)
                             (symbol_name c) (text c)) chunks)).
  { apply Forall_fmap. eapply Forall_impl; [exact Hpath|].
    intros c Hc. unfold key; simpl. rewrite Hc. apply file_key_refl. }
  unfold when.
  destruct (nonempty symbols_); destruct (nonempty chunks) eqn:Hne; simpl;
    try apply (filter_key_app_new key _ _ Hnew);
    destruct chunks; try discriminate; apply (filter_filter_neg key).
Qed.

(** After a changed file is re-indexed, each of its rows in [symbols_snap]
    comes from the new symbols. *)
Lemma reindex_leaves_no_stale_symbols (st : Store V) r :
  r ∈ symbols_snap (reindexed st) ->
  in_file (ss_workspace_id r) (ss_git_ref r) (ss_file_path r) = true ->
  r ∈ map (fun s => let '(sname, skind, sstart, send) := s in
                    mkSymbolSnapRow wid git_ref (f_rel f) sname skind sstart send)
        symbols_.
Proof.
  unfold reindex_file, when. intros Hin Hkey.
  destruct (nonempty symbols_) eqn:Hne.
  - simpl in Hin.
    apply (insert_many_elem (insert_or_ignore symbols_snap_pk)) in Hin as [Hin|Hin];
      [|exact Hin|apply insert_or_ignore_elem].
    apply list_elem_of_filter in Hin as [Hno _]. congruence.
  - simpl in Hin. apply list_elem_of_filter in Hin as [Hno _]. congruence.
Qed.

End Replacement.

(** ** Parse failures *)





Example chunk_python_on_parse_failure :
  option_map (fun r => (map (fun c => (chunk_type c, start_line c, end_line c, text c)) r.1, r.2))
    (chunk_python (fun _ => None) "bad.py" ("def broken(:" +:+ nl +:+ "    pass") 8000)
  = Some ([("window", 1, 2, "def broken(:" +:+ nl +:+ "    pass")], []).
Proof. reflexivity. Qed.

(** An oversized definition whose second line alone is longer than the
    limit: [chunk_python] emits that line as one window of 33 characters. *)
Example chunk_python_long_line :
  let src := "def f():" +:+ nl +:+ "    return 'aaaaaaaaaaaaaaaaaaaaaaaa'" in
  let tree := [FunctionDef "f" (Some 1) (Some 2) [Other []; Other []]] in
  option_map
    (fun r => map (fun c => (chunk_type c, start_line c, end_line c, slen (text c))) r.1)
    (chunk_python (fun _ => Some tree) "a.py" src 20)
  = Some [("module", 1, 2, 20); ("window", 1, 1, 8); ("window", 2, 2, 33)].
Proof. reflexivity. Qed.

(** ** The analyzer's definitions *)

Section NodeInduction.

Variable P : node -> Prop.
Hypothesis HClass : forall name ln eln ch, Forall P ch -> P (ClassDef name ln eln ch).
Hypothesis HFun : forall name ln eln ch, Forall P ch -> P (FunctionDef name ln eln ch).
Hypothesis HAsync : forall name ln eln ch, Forall P ch -> P (AsyncFunctionDef name ln eln ch).
Hypothesis HName : forall id ctx ln col, P (Name id ctx ln col).
Hypothesis HAttr : forall v attr, P v -> P (Attribute v attr).
Hypothesis HCall : forall f args ln, P f -> Forall P args -> P (Call f args ln).
Hypothesis HOther : forall ch, Forall P ch -> P (Other ch).

Fixpoint node_induction (nd : node) : P nd :=
  let fix all (l : list node) : Forall P l :=
    match l with
    | [] => List.Forall_nil P
    | x :: r => List.Forall_cons P x r (node_induction x) (all r)
    end in
  match nd with
  | ClassDef name ln eln ch => HClass name ln eln ch (all ch)
  | FunctionDef name ln eln ch => HFun name ln eln ch (all ch)
  | AsyncFunctionDef name ln eln ch => HAsync name ln eln ch (all ch)
  | Name id ctx ln col => HName id ctx ln col
  | Attribute v attr => HAttr v attr (node_induction v)
  | Call f args ln => HCall f args ln (node_induction f) (all args)
  | Other ch => HOther ch (all ch)
  end.

End NodeInduction.

(** The (name, kind) pairs the analyzer records under a node, given
    whether the scope stack is non-empty when the node is visited: a
    function is a method exactly when some class or function encloses it. *)
Fixpoint def_kinds (in_scope : bool) (nd : node) : list (string * def_kind) :=
  match nd with
  | ClassDef name _ _ ch => (name, KClass) :: flat_map (def_kinds true) ch
  | FunctionDef name _ _ ch
  | AsyncFunctionDef name _ _ ch =>
      (name, if in_scope then KMethod else KFunction) :: flat_map (def_kinds true) ch
  | Name _ _ _ _ => []
  | Attribute v _ => def_kinds in_scope v
  | Call f args _ => def_kinds in_scope f ++ flat_map (def_kinds in_scope) args
  | Other ch => flat_map (def_kinds in_scope) ch
  end.

Definition def_sig (d : PyDef) : string * def_kind := (d_name d, d_kind d).

(** What one visit does to the analyzer: the stacks come back as they
    were, and the definitions grow by [def_kinds]. *)
Definition visit_effect (lines : list string) (nd : node) : Prop :=
  forall an,
    _scope (visit lines nd an) = _scope an
    /\ _current_callable (visit lines nd an) = _current_callable an
    /\ map def_sig (defs (visit lines nd an))
       = map def_sig (defs an) ++ def_kinds (nonempty (_scope an)) nd.

Lemma generic_visit_effect lines ch :
  Forall (visit_effect lines) ch ->
  forall an,
    let an' := fold_left (fun a child => visit lines child a) ch an in
    _scope an' = _scope an
    /\ _current_callable an' = _current_callable an
    /\ map def_sig (defs an')
       = map def_sig (defs an) ++ flat_map (def_kinds (nonempty (_scope an))) ch.
Proof.
  induction 1 as [|x ch Hx _ IH]; intros an; simpl.
  - by rewrite app_nil_r.
  - destruct (Hx an) as (Hs & Hc & Hd).
    destruct (IH (visit lines x an)) as (Hs' & Hc' & Hd').
    rewrite Hs', Hc', Hd', Hs, Hc, Hd, <- app_assoc. done.
Qed.

Lemma nonempty_snoc {A} (l : list A) x : nonempty (l ++ [x]) = true.
Proof. by destruct l. Qed.

Lemma scope_nonempty_match (an : Analyzer) :
  match _scope an with [] => KFunction | _ => KMethod end
  = if nonempty (_scope an) then KMethod else KFunction.
Proof. by destruct (_scope an). Qed.

Lemma function_visit_effect lines name ln eln ch :
  Forall (visit_effect lines) ch ->
  forall an,
    let an' := pop_scope (pop_callable
                 (fold_left (fun a child => visit lines child a) ch
                    (enter_function an name ln eln))) in
    _scope an' = _scope an
    /\ _current_callable an' = _current_callable an
    /\ map def_sig (defs an')
       = map def_sig (defs an)
         ++ (name, if nonempty (_scope an) then KMethod else KFunction)
            :: flat_map (def_kinds true) ch.
Proof.
  intros Hch an.
  destruct (generic_visit_effect lines ch Hch (enter_function an name ln eln))
    as (Hs & Hc & Hd).
  simpl in *. rewrite Hs, Hc, Hd, !removelast_last, nonempty_snoc.
  rewrite map_app, <- app_assoc. simpl. unfold def_sig at 3. simpl.
  by rewrite scope_nonempty_match.
Qed.

Lemma visit_has_effect lines nd : visit_effect lines nd.
Proof.
  induction nd as [name ln eln ch IH|name ln eln ch IH|name ln eln ch IH
                  |id ctx ln col|v attr IH|f args ln IHf IHargs|ch IH]
    using node_induction; intros an.
  - destruct (generic_visit_effect lines ch IH (enter_class an name ln eln))
      as (Hs & Hc & Hd).
    simpl in *. rewrite Hs, Hc, Hd, removelast_last, nonempty_snoc.
    by rewrite map_app, <- app_assoc.
  - apply (function_visit_effect lines name ln eln ch IH an).
  - apply (function_visit_effect lines name ln eln ch IH an).
  - simpl. unfold record_name. destruct ctx; simpl; by rewrite ?app_nil_r.
  - apply IH.
  - assert (Hrec : _scope (record_call an f ln) = _scope an
                   /\ _current_callable (record_call an f ln) = _current_callable an
                   /\ defs (record_call an f ln) = defs an).
    { unfold record_call. by destruct (last _). }
    destruct Hrec as (Hs0 & Hc0 & Hd0).
    destruct (IHf (record_call an f ln)) as (Hs1 & Hc1 & Hd1).
    destruct (generic_visit_effect lines args IHargs (visit lines f (record_call an f ln)))
      as (Hs2 & Hc2 & Hd2).
    simpl in *. rewrite Hs2, Hc2, Hd2, Hs1, Hc1, Hd1, Hs0, Hc0, Hd0, <- app_assoc. done.
  - apply (generic_visit_effect lines ch IH an).
Qed.

(** The definitions [analyze_python_source] returns for a parsed module. *)
Lemma analyze_defs ast_parse text tree :
  ast_parse text = Some tree ->
  map def_sig (analyze_python_source ast_parse text).1.1
  = flat_map (def_kinds false) tree.
Proof.
  intros Hp. unfold analyze_python_source. rewrite Hp. simpl.
  assert (Hall : Forall (visit_effect (splitlines text)) tree).
  { apply Forall_forall. intros nd _. apply visit_has_effect. }
  destruct (generic_visit_effect (splitlines text) tree Hall
              (mkAnalyzer [] [] [] [] [])) as (_ & _ & Hd).
  exact Hd.
Qed.

(** C8 fails on the code: a function defined inside another function, with
    no class around it, is recorded as a method. *)
Theorem nested_function_is_recorded_as_method :
  let text := "def outer():" +:+ nl +:+ "    def inner():" +:+ nl +:+ "        pass" in
  let tree :=
    [FunctionDef "outer" (Some 1) (Some 3)
       [Other []; FunctionDef "inner" (Some 2) (Some 3) [Other []; Other []]]] in
  map (fun d => (d_qualname d, kind_str (d_kind d)))
    (analyze_python_source (fun _ => Some tree) text).1.1
  = [("outer", "function"); ("outer.inner", "method")].
Proof. reflexivity. Qed.

(** ** Every recorded call site has a recorded caller *)

Definition qualnames (an : Analyzer) : list string := map d_qualname (defs an).

(** The callables on the stack and the callers of the recorded calls are
    qualified names of recorded definitions. *)
Definition callers_known (an : Analyzer) : Prop :=
  Forall (fun q => q ∈ qualnames an) (_current_callable an)
  /\ Forall (fun c => caller_qualname c ∈ qualnames an) (calls an).

(** [an'] has the definitions of [an] and possibly more. *)
Definition defs_extend (an an' : Analyzer) : Prop :=
  exists more, defs an' = defs an ++ more.

Lemma defs_extend_refl an : defs_extend an an.
Proof. exists []. by rewrite app_nil_r. Qed.

Lemma defs_extend_trans a b c : defs_extend a b -> defs_extend b c -> defs_extend a c.
Proof. intros [m1 H1] [m2 H2]. exists (m1 ++ m2). by rewrite H2, H1, app_assoc. Qed.

Lemma qualnames_extend an an' q :
  defs_extend an an' -> q ∈ qualnames an -> q ∈ qualnames an'.
Proof.
  intros [more H] Hq. unfold qualnames in *. rewrite H, map_app.
  apply elem_of_app. by left.
Qed.

Definition keeps_callers_known (lines : list string) (nd : node) : Prop :=
  forall an, callers_known an ->
    callers_known (visit lines nd an) /\ defs_extend an (visit lines nd an).

Lemma generic_visit_keeps_callers lines ch :
  Forall (keeps_callers_known lines) ch ->
  forall an, callers_known an ->
    let an' := fold_left (fun a child => visit lines child a) ch an in
    callers_known an' /\ defs_extend an an'.
Proof.
  induction 1 as [|x ch Hx _ IH]; intros an Hk; simpl.
  - split; [exact Hk|apply defs_extend_refl].
  - destruct (Hx an Hk) as (Hk1 & He1).
    destruct (IH _ Hk1) as (Hk2 & He2).
    split; [exact Hk2|]. eapply defs_extend_trans; eauto.
Qed.

Lemma function_keeps_callers lines name ln eln ch :
  Forall (keeps_callers_known lines) ch ->
  forall an, callers_known an ->
    let an' := pop_scope (pop_callable
                 (fold_left (fun a child => visit lines child a) ch
                    (enter_function an name ln eln))) in
    callers_known an' /\ defs_extend an an'.
Proof.
  intros Hch an (Hcc & Hcalls).
  set (an1 := enter_function an name ln eln).
  assert (He1 : defs_extend an an1) by (eexists; reflexivity).
  assert (Hk1 : callers_known an1).
  { split; simpl.
    - apply Forall_app. split.
      + eapply Forall_impl; [exact Hcc|]. intros q. by apply qualnames_extend.
      + constructor; [|constructor]. unfold qualnames. simpl.
        rewrite map_app. apply elem_of_app. right. simpl. left.
    - eapply Forall_impl; [exact Hcalls|]. intros c. by apply qualnames_extend. }
  destruct (generic_visit_keeps_callers lines ch Hch an1 Hk1) as ((Hcc2 & Hcalls2) & He2).
  assert (Hall : Forall (visit_effect lines) ch).
  { apply Forall_forall. intros nd _. apply visit_has_effect. }
  destruct (generic_visit_effect lines ch Hall an1) as (_ & Hstack & _).
  simpl in Hstack.
  split; [|by eapply defs_extend_trans].
  split; simpl; [|exact Hcalls2].
  rewrite Hstack in Hcc2 |- *. rewrite removelast_last.
  apply Forall_app in Hcc2. tauto.
Qed.

Lemma visit_keeps_callers lines nd : keeps_callers_known lines nd.
Proof.
  induction nd as [name ln eln ch IH|name ln eln ch IH|name ln eln ch IH
                  |id ctx ln col|v attr IH|f args ln IHf IHargs|ch IH]
    using node_induction; intros an Hk.
  - destruct Hk as (Hcc & Hcalls).
    set (an1 := enter_class an name ln eln).
    assert (He1 : defs_extend an an1) by (eexists; reflexivity).
    assert (Hk1 : callers_known an1).
    { split; simpl.
      - eapply Forall_impl; [exact Hcc|]. intros q. by apply qualnames_extend.
      - eapply Forall_impl; [exact Hcalls|]. intros c. by apply qualnames_extend. }
    destruct (generic_visit_keeps_callers lines ch IH an1 Hk1) as (Hk2 & He2).
    split; [exact Hk2|by eapply defs_extend_trans].
  - by apply function_keeps_callers.
  - by apply function_keeps_callers.
  - simpl. unfold record_name.
    destruct ctx; (split; [exact Hk|exists []; simpl; by rewrite app_nil_r]).
  - by apply IH.
  - assert (Hk0 : callers_known (record_call an f ln)
                  /\ defs_extend an (record_call an f ln)).
    { split; [|unfold record_call; destruct (last _); exists []; simpl;
                 by rewrite app_nil_r].
      destruct Hk as (Hcc & Hcalls). unfold record_call.
      destruct (last (_current_callable an)) as [caller|] eqn:Hl; [|by split].
      split; simpl; [exact Hcc|].
      apply Forall_app. split; [exact Hcalls|]. constructor; [|constructor]. simpl.
      apply last_Some in Hl as [l' Hl]. rewrite Hl in Hcc.
      apply Forall_app in Hcc as [_ Hc]. by inversion Hc. }
    destruct Hk0 as (Hk0 & He0).
    destruct (IHf _ Hk0) as (Hk1 & He1).
    destruct (generic_visit_keeps_callers lines args IHargs _ Hk1) as (Hk2 & He2).
    split; [exact Hk2|]. eauto using defs_extend_trans.
  - by apply generic_visit_keeps_callers.
Qed.

(** Each call site [analyze_python_source] returns is attributed to a
    definition it returns. *)
Lemma analyze_calls_have_callers ast_parse text :
  let '(py_defs, _, py_calls) := analyze_python_source ast_parse text in
  Forall (fun c => caller_qualname c ∈ map d_qualname py_defs) py_calls.
Proof.
  unfold analyze_python_source. destruct (ast_parse text) as [tree|]; [|constructor].
  assert (Hall : Forall (keeps_callers_known (splitlines text)) tree).
  { apply Forall_forall. intros nd _. apply visit_keeps_callers. }
  destruct (generic_visit_keeps_callers (splitlines text) tree Hall
              (mkAnalyzer [] [] [] [] [])) as ((_ & Hcalls) & _).
  { split; constructor. }
  exact Hcalls.
Qed.

(** ** Every recorded call site yields an edge row *)

Lemma qual_to_id_lookup (rows : list PySymbolRow) : forall (m : gmap string string) q,
  q ∈ map ps_qualname rows \/ is_Some (m !! q) ->
  exists sid,
    fold_left (fun m r => <[ps_qualname r := ps_symbol_id r]> m) rows m !! q = Some sid
    /\ (sid ∈ map ps_symbol_id rows \/ m !! q = Some sid).
Proof.
  induction rows as [|r rows IH]; intros m q Hq; simpl.
  - destruct Hq as [Hq|[sid Hq]]; [by apply elem_of_nil in Hq|]. eauto.
  - destruct (IH (<[ps_qualname r := ps_symbol_id r]> m) q) as (sid & Hsid & Hfrom).
    { destruct (decide (ps_qualname r = q)) as [->|Hne].
      - right. rewrite lookup_insert_eq. eauto.
      - rewrite lookup_insert_ne by done.
        destruct Hq as [Hq|Hq]; [|by right].
        simpl in Hq. apply elem_of_cons in Hq as [Hq|Hq]; [congruence|by left]. }
    exists sid. split; [exact Hsid|].
    destruct Hfrom as [Hin|Hm].
    + left. by right.
    + destruct (decide (ps_qualname r = q)) as [Heq|Hne].
      * rewrite Heq, lookup_insert_eq in Hm. injection Hm as <-. left. left.
      * rewrite lookup_insert_ne in Hm by done. by right.
Qed.

Lemma edges_of_known_callers wid git_ref (qual_to_id : gmap string string)
    local_rows global_rows (py_calls : list PyCall) :
  Forall (fun c => exists sid, qual_to_id !! caller_qualname c = Some sid
                               /\ truthy sid = true) py_calls ->
  map (fun e => (e_to_name e, e_call_line e))
    (omap (edge_by_policy wid git_ref qual_to_id local_rows global_rows) py_calls)
  = map (fun c => (callee c, call_line c)) py_calls.
Proof.
  induction 1 as [|c cs (sid & Hsid & Ht) _ IH]; [reflexivity|].
  cbn [omap list_omap map]. unfold edge_by_policy at 1. rewrite Hsid, Ht.
  cbn [map]. by rewrite <- IH.
Qed.

(** X9: With symbol ids that are never the empty string (a UUID has 36
    characters), the loop that builds [edge_rows] skips no call site of the
    analyzed file: the rows are, in order, one per call site. *)
Lemma every_call_site_yields_an_edge
    (ast_parse : string -> option module) (uuid5 : string -> string)
    (wid git_ref rel text : string) (local_rows global_rows : list (string * string)) :
  (forall key, truthy (uuid5 key) = true) ->
  let '(py_defs, _, py_calls) := analyze_python_source ast_parse text in
  let def_rows := map (def_row uuid5 wid git_ref rel) py_defs in
  let qual_to_id : gmap string string :=
    fold_left (fun m r => <[ps_qualname r := ps_symbol_id r]> m) def_rows ∅ in
  map (fun e => (e_to_name e, e_call_line e))
    (call_edge_rows wid git_ref qual_to_id (name_to_ids local_rows)
       (name_to_ids global_rows) py_calls)
  = map (fun c => (callee c, call_line c)) py_calls.
Proof.
  intros Huuid.
  pose proof (analyze_calls_have_callers ast_parse text) as Hcalls.
  destruct (analyze_python_source ast_parse text) as [[py_defs py_refs_] py_calls].
  intros def_rows qual_to_id. unfold call_edge_rows.
  rewrite call_edge_rows_fold. rewrite app_nil_l.
  apply edges_of_known_callers.
  eapply Forall_impl; [exact Hcalls|]. intros c Hc. simpl in Hc.
  destruct (qual_to_id_lookup def_rows ∅ (caller_qualname c)) as (sid & Hsid & Hfrom).
  { left. subst def_rows. rewrite map_map. simpl. exact Hc. }
  exists sid. split; [exact Hsid|].
  destruct Hfrom as [Hin|Hm]; [|by rewrite lookup_empty in Hm].
  subst def_rows. rewrite map_map in Hin. simpl in Hin.
  apply list_elem_of_fmap in Hin as (d & -> & _). apply Huuid.
Qed.

(** ** Score fusion *)






(** The claim as worded, read over the binary64 values Python computes. *)
Definition in_unit_interval (x : float) : Prop :=
  PrimFloat.leb 0 x = true /\ PrimFloat.leb x 1 = true.


(** The binary64 values that the literals 0.1, 0.2, 0.3, 0.7 and 0.9 denote,
    and the successor of 0.1. *)
Definition b64_0_1 : float := 0x1.999999999999ap-4.
Definition b64_0_1_up : float := 0x1.999999999999bp-4.
Definition b64_0_2 : float := 0x1.999999999999ap-3.
Definition b64_0_3 : float := 0x1.3333333333333p-2.
Definition b64_0_7 : float := 0x1.6666666666666p-1.
Definition b64_0_9 : float := 0x1.ccccccccccccdp-1.

Example hybrid_binary64_equal_scores :
  PrimFloat.ltb (hybrid_score 0%float b64_0_9 b64_0_9)
    (hybrid_score b64_0_7 b64_0_9 b64_0_9) = true.
Proof. reflexivity. Qed.

Example hybrid_binary64_one_ulp :
  PrimFloat.ltb b64_0_1 b64_0_1_up = true
  /\ PrimFloat.ltb (hybrid_score b64_0_3 b64_0_1_up b64_0_1)
       (hybrid_score b64_0_2 b64_0_1_up b64_0_1) = true.
Proof. split; reflexivity. Qed.




(** ** Symbol lookup *)

Example like_substring :
  like "chunk_fallback" "%fall%" = true /\ like "chunk_python" "%fall%" = false
  /\ like "Helper" "%help%" = true /\ like "axb" "%a_b%" = true.
Proof. repeat split. Qed.

(** C6 fails on the code: the class defines [symbol_find] twice and the
    second definition wins; it reads the legacy table [symbols], which the
    pipeline never writes, so a symbol that was just indexed is not found.
    The first definition, on [symbols_snap], finds it. *)
Theorem symbol_find_reads_legacy_table :
  exists st1,
    Scenario.run "t1" [Scenario.obs1] Scenario.empty_store = Some (st1, 1, 1)
    /\ map ss_symbol_name (symbols_snap (tables st1)) = ["f"; "h"]
    /\ symbols (tables st1) = []
    /\ symbol_find (tables st1) "W" "f" (Some "python") None 50 = []
    /\ symbol_find_shadowed (tables st1) "W" "f" (Some "python") None None 50
       = [mkSymbolHit "a.py" "f" "function" 1 2 (Some "working_tree")].
Proof.
  eexists. repeat (split; [vm_compute; reflexivity|]). vm_compute; reflexivity.
Qed.

(** Nothing in the pipeline writes the legacy table. *)
Lemma reindex_file_keeps_legacy_symbols ast_parse uuid5 sha256_text V embed_passages
    wid git_ref now f st_mtime st_size chunks symbols_ (st : Store V) :
  symbols (tables (reindex_file ast_parse uuid5 sha256_text V embed_passages
                     wid git_ref now f st_mtime st_size chunks symbols_ st))
  = symbols (tables st).
Proof.
  unfold reindex_file, index_python, upsert_chunks, when.
  repeat match goal with
         | |- context [if ?b then _ else _] => destruct b
         | |- context [match ?x with _ => _ end] => destruct x
         end; reflexivity.
Qed.

(** ** Path validation *)

Example path_of_string_ex :
  path_of_string "./src//main.py" = mkPath false ["src"; "main.py"]
  /\ path_of_string "/etc/passwd" = mkPath true ["etc"; "passwd"]
  /\ path_of_string "" = mkPath false [].
Proof. repeat split. Qed.

Example normalize_rel_file_ex :
  let root := mkPath true ["srv"; "repo"] in
  normalize_rel_file lexical_resolve root "src/main.py"
  = Ok (mkPath true ["srv"; "repo"; "src"; "main.py"])
  /\ normalize_rel_file lexical_resolve root "/absolute/path/file.py"
     = PathAccessError "file_path must be relative to repo_root (not absolute)."
  /\ normalize_rel_file lexical_resolve root "../outside/file.py"
     = PathAccessError "file_path escapes repo_root (.. or symlink traversal)."
  /\ normalize_rel_file lexical_resolve root "subdir/../../outside/file.py"
     = PathAccessError "file_path escapes repo_root (.. or symlink traversal)."
  /\ normalize_rel_file lexical_resolve root "a/../b"
     = Ok (mkPath true ["srv"; "repo"; "b"]).
Proof. repeat split. Qed.

(** The three cases of the claim on a [file_path]. *)
Definition absolute_path (file_path : string) : Prop :=
  is_absolute (path_of_string file_path) = true.

Definition escapes_root (resolve : Path -> Path) (repo_root : Path) (file_path : string)
    : Prop :=
  is_absolute (path_of_string file_path) = false
  /\ is_relative_to (resolve (path_join repo_root (path_of_string file_path))) repo_root
     = false.

Definition stays_in_root (resolve : Path -> Path) (repo_root : Path) (file_path : string)
    : Prop :=
  is_absolute (path_of_string file_path) = false
  /\ is_relative_to (resolve (path_join repo_root (path_of_string file_path))) repo_root
     = true.


Lemma path_cases resolve repo_root file_path :
  absolute_path file_path \/ escapes_root resolve repo_root file_path
  \/ stays_in_root resolve repo_root file_path.
Proof.
  unfold absolute_path, escapes_root, stays_in_root.
  destruct (is_absolute (path_of_string file_path)); [by left|].
  destruct (is_relative_to _ repo_root); [right; right|right; left]; done.
Qed.





(** * Further properties of the code *)

(** ** Blank text *)

(** Every character of [s] is white space. *)
Fixpoint all_space (s : string) : bool :=
  match s with
  | EmptyString => true
  | String c r => is_space c && all_space r
  end.

Lemma lstrip_empty s : lstrip s = EmptyString <-> all_space s = true.
Proof.
  induction s as [|c r IH]; simpl; [done|].
  destruct (is_space c); simpl; [exact IH|]. split; discriminate.
Qed.

Lemma rstrip_empty s : rstrip s = EmptyString <-> all_space s = true.
Proof.
  induction s as [|c r IH]; simpl; [done|].
  destruct (rstrip r) eqn:E.
  - destruct (is_space c); simpl; [|split; discriminate].
    split; [intros _; by apply IH|done].
  - split; [discriminate|]. intros H. apply andb_true_iff in H as [_ H].
    apply IH in H. discriminate.
Qed.

Lemma rstrip_keeps_content s : all_space s = false -> all_space (rstrip s) = false.
Proof.
  induction s as [|c r IH]; simpl; [done|]. intros H.
  destruct (rstrip r) eqn:E.
  - apply rstrip_empty in E. rewrite E, andb_true_r in H. rewrite H. simpl.
    by rewrite H.
  - simpl in *. destruct (all_space r) eqn:Er.
    + apply rstrip_empty in Er. congruence.
    + rewrite (IH eq_refl). apply andb_false_r.
Qed.

(** The trimmed text is empty exactly when the text is blank. *)
Lemma truthy_strip s : truthy (strip s) = negb (all_space s).
Proof.
  unfold strip. destruct (all_space s) eqn:E; simpl.
  - apply rstrip_empty in E. by rewrite E.
  - apply rstrip_keeps_content in E.
    destruct (lstrip (rstrip s)) eqn:El; [|done].
    apply lstrip_empty in El. congruence.
Qed.

Lemma all_space_app a b : all_space (a +:+ b) = all_space a && all_space b.
Proof. induction a as [|c r IH]; simpl; [done|]. by rewrite IH, andb_assoc. Qed.

Lemma all_space_join l : all_space (join nl l) = forallb all_space l.
Proof.
  induction l as [|x l IH]; [done|]. destruct l as [|y l].
  - simpl. by rewrite andb_true_r.
  - change (join nl (x :: y :: l)) with (x +:+ nl +:+ join nl (y :: l)).
    rewrite !all_space_app, IH. reflexivity.
Qed.

(** A window that holds a non-blank line has non-empty trimmed text. *)
Lemma window_with_content l line :
  line ∈ l -> all_space line = false -> truthy (strip (join nl l)) = true.
Proof.
  intros Hin Hline. rewrite truthy_strip, all_space_join.
  apply negb_true_iff. apply not_true_iff_false. intros Hall.
  rewrite forallb_forall in Hall. apply list_elem_of_In in Hin.
  rewrite (Hall _ Hin) in Hline. discriminate.
Qed.

Lemma py_slice_lookup {A} (l : list A) (lo hi : Z) (k : nat) x :
  0 <= lo -> lo <= Z.of_nat k < hi -> hi <= Z.of_nat (length l) ->
  l !! k = Some x -> x ∈ py_slice l lo hi.
Proof.
  intros Hlo Hk Hhi Hx. unfold py_slice, slice_bound.
  destruct (Z.ltb_spec lo 0); [lia|]. destruct (Z.ltb_spec hi 0); [lia|].
  rewrite !Z.min_l by lia.
  apply list_elem_of_lookup. exists (k - Z.to_nat lo)%nat.
  rewrite lookup_take_lt by lia. rewrite lookup_drop.
  replace (Z.to_nat lo + (k - Z.to_nat lo))%nat with k by lia. exact Hx.
Qed.

(** ** Fallback windows lose no content *)

Section FallbackCoverage.

Variables (rel_path language : string) (lines : list string).
Variables (max_lines overlap_lines : Z).
Hypothesis params_ok : 0 <= overlap_lines < max_lines.

(** Line number [k + 1] lies in the line range of [c]. *)
Definition covers (c : Chunk) (k : nat) : Prop :=
  start_line c <= Z.of_nat k + 1 <= end_line c.

Lemma loop_covers fuel : forall i p (k : nat) line,
  0 <= i ->
  chunk_fallback_loop fuel rel_path language lines max_lines overlap_lines i [] = Some p ->
  i <= Z.of_nat k -> lines !! k = Some line -> all_space line = false ->
  exists c, c ∈ p /\ covers c k.
Proof.
  induction fuel as [|fuel IH]; intros i p k line Hi H Hk Hline Hnb; [discriminate|].
  rewrite loop_unfold in H.
  assert (Hkn : Z.of_nat k < Z.of_nat (length lines)).
  { apply lookup_lt_Some in Hline. lia. }
  destruct (Z.ltb_spec i (Z.of_nat (length lines))) as [Hlt|Hge]; [|lia].
  set (j := Z.min (Z.of_nat (length lines)) (i + max_lines)) in *.
  assert (Hhere : Z.of_nat k < j ->
            exists c, c ∈ fallback_emit rel_path language lines max_lines i /\ covers c k).
  { intros Hkj. unfold fallback_emit, window_text. fold j.
    rewrite (window_with_content _ line);
      [|apply (py_slice_lookup lines i j k); [lia|lia|subst j; lia|exact Hline]|done].
    eexists. split; [left|]. unfold covers. simpl. fold j. lia. }
  destruct (Z.leb_spec (Z.of_nat (length lines)) j) as [Hbrk|Hcont].
  - injection H as <-. simpl. apply Hhere. lia.
  - rewrite loop_acc in H. simpl in H.
    destruct (chunk_fallback_loop fuel _ _ _ _ _ _ []) as [p'|] eqn:Hp'; [|discriminate].
    injection H as <-.
    destruct (Z_lt_le_dec (Z.of_nat k) j) as [Hkj|Hkj].
    + destruct (Hhere Hkj) as (c & Hc & Hcov). exists c. split; [|done].
      apply elem_of_app. by left.
    + assert (Hn0 : 0 <= fallback_next lines max_lines overlap_lines i)
        by (unfold fallback_next; lia).
      assert (Hnk : fallback_next lines max_lines overlap_lines i <= Z.of_nat k)
        by (unfold fallback_next; fold j; lia).
      destruct (IH _ _ k line Hn0 Hp' Hnk Hline Hnb) as (c & Hc & Hcov).
      exists c. split; [|done]. apply elem_of_app. by right.
Qed.

End FallbackCoverage.

(** X1: For [0 <= overlap_lines < max_lines], every line of the text that is
    not blank lies in the line range of some window [chunk_fallback]
    returns. *)
Theorem chunk_fallback_covers_content
    (rel_path text language : string) (max_lines overlap_lines : Z) :
  0 <= overlap_lines < max_lines ->
  exists out,
    chunk_fallback rel_path text language max_lines overlap_lines = Some out
    /\ forall (k : nat) line,
         splitlines text !! k = Some line -> all_space line = false ->
         exists c, c ∈ out /\ covers c k.
Proof.
  intros Hp.
  destruct (loop_returns rel_path language (splitlines text) max_lines overlap_lines
              (S (length (splitlines text))) 0) as [out Hout]; [lia..|].
  exists out. split; [exact Hout|].
  intros k line Hline Hnb.
  eapply (loop_covers rel_path language (splitlines text) max_lines overlap_lines Hp);
    eauto; lia.
Qed.

Lemma chunk_fallback_covers_content_witness :
  0 <= 1 < 2
  /\ exists out,
       chunk_fallback "t.txt" ("a" +:+ nl +:+ nl +:+ "b") "text" 2 1 = Some out
       /\ exists c, c ∈ out /\ covers c 2.
Proof.
  split; [lia|].
  destruct (chunk_fallback_covers_content "t.txt" ("a" +:+ nl +:+ nl +:+ "b") "text" 2 1
              ltac:(lia)) as (out & Hout & Hcov).
  exists out. split; [exact Hout|]. apply (Hcov 2%nat "b"); reflexivity.
Defined.

(** ** Windows of an oversized definition *)

(** The line ranges of [out] follow one another without overlap inside
    [lo, hi). *)
Fixpoint windows_ordered (lo : Z) (out : list Chunk) (hi : Z) : Prop :=
  match out with
  | [] => lo <= hi
  | c :: r => lo <= start_line c /\ start_line c <= end_line c
              /\ windows_ordered (end_line c + 1) r hi
  end.

Lemma windows_ordered_snoc out : forall lo mid c hi,
  windows_ordered lo out mid -> mid <= start_line c -> start_line c <= end_line c ->
  end_line c + 1 <= hi ->
  windows_ordered lo (out ++ [c]) hi.
Proof.
  induction out as [|x out IH]; intros lo mid c hi H H1 H2 H3; simpl in *.
  - lia.
  - destruct H as (Ha & Hb & Hc). repeat split; [lia..|]. eapply IH; eauto.
Qed.

Lemma windows_ordered_widen out : forall lo hi hi',
  windows_ordered lo out hi -> hi <= hi' -> windows_ordered lo out hi'.
Proof.
  induction out as [|x out IH]; intros lo hi hi' H Hle; simpl in *; [lia|].
  destruct H as (Ha & Hb & Hc). repeat split; [lia..|]. eapply IH; eauto.
Qed.

Lemma windows_ordered_bounds out : forall lo hi,
  windows_ordered lo out hi ->
  lo <= hi /\ Forall (fun c => lo <= start_line c /\ start_line c <= end_line c
                               /\ end_line c < hi) out.
Proof.
  induction out as [|x out IH]; intros lo hi H; simpl in *; [by split|].
  destruct H as (Ha & Hb & Hc). destruct (IH _ _ Hc) as (Hle & Hall).
  split; [lia|]. constructor; [lia|].
  eapply Forall_impl; [exact Hall|]. simpl. intros c ?. lia.
Qed.

Lemma windows_ordered_adjacent out : forall lo hi (m : nat) c1 c2,
  windows_ordered lo out hi -> out !! m = Some c1 -> out !! S m = Some c2 ->
  end_line c1 < start_line c2.
Proof.
  induction out as [|x out IH]; intros lo hi m c1 c2 H H1 H2; [done|].
  destruct H as (Ha & Hb & Hc). destruct m as [|m]; simpl in *.
  - injection H1 as <-. destruct out as [|y out]; [done|].
    injection H2 as <-. simpl in Hc. lia.
  - eapply IH; eauto.
Qed.

Section WindowChunksOrder.

Variables (rel_path lang : string) (symbol : option string).
Variables (start max_chunk_chars : Z).

(** The state after the lines [done] have been read: the buffer is the
    tail of [done], the windows emitted so far lie before the buffer in
    order, and every non-blank line before the buffer is in one of them. *)
Definition wstate_covers (done : list string) (st : WState) : Prop :=
  exists pre,
    done = pre ++ w_buf st
    /\ w_buf_start st = start + Z.of_nat (length pre)
    /\ w_cur_line st = start + Z.of_nat (length done)
    /\ windows_ordered start (w_out st) (w_buf_start st)
    /\ forall (k : nat) line,
         pre !! k = Some line -> all_space line = false ->
         exists c, c ∈ w_out st /\ start_line c <= start + Z.of_nat k <= end_line c.

Lemma flush_covers done st :
  wstate_covers done st -> w_buf st ≠ [] ->
  wstate_covers done
    (mkWState (flush rel_path lang symbol (w_out st) (w_buf_start st) (w_cur_line st)
                 (w_buf st)) [] (w_cur_line st) (w_cur_line st)).
Proof.
  intros (pre & Hdone & Hbs & Hcur & Hord & Hcov) Hne.
  assert (Hlen : (0 < length (w_buf st))%nat) by (destruct (w_buf st); simpl; [done|lia]).
  assert (Hdl : length done = (length pre + length (w_buf st))%nat).
  { by rewrite Hdone, length_app. }
  exists done. simpl. rewrite app_nil_r. repeat split; [done..| |].
  - unfold flush. destruct (truthy _).
    + eapply windows_ordered_snoc; [exact Hord|simpl; lia..].
    + eapply windows_ordered_widen; [exact Hord|lia].
  - intros k line Hk Hnb. rewrite Hdone in Hk.
    destruct (decide (k < length pre)%nat) as [Hlt|Hge].
    + rewrite lookup_app_l in Hk by done.
      destruct (Hcov k line Hk Hnb) as (c & Hc & Hr). exists c. split; [|done].
      unfold flush. destruct (truthy _); [apply elem_of_app; by left|done].
    + rewrite lookup_app_r in Hk by lia.
      unfold flush.
      rewrite (window_with_content (w_buf st) line);
        [|by eapply list_elem_of_lookup_2|done].
      eexists. split; [apply elem_of_app; right; left|]. simpl.
      apply lookup_lt_Some in Hk. lia.
Qed.

Lemma append_covers done st line :
  wstate_covers done st ->
  wstate_covers (done ++ [line])
    (mkWState (w_out st) (w_buf st ++ [line]) (w_buf_start st) (w_cur_line st + 1)).
Proof.
  intros (pre & Hdone & Hbs & Hcur & Hord & Hcov).
  exists pre. simpl. split; [by rewrite Hdone, <- app_assoc|].
  split; [done|]. split; [|by split].
  rewrite Hcur, !length_app. simpl. lia.
Qed.

Lemma window_step_covers done st line :
  wstate_covers done st ->
  wstate_covers (done ++ [line])
    (window_step rel_path lang symbol max_chunk_chars st line).
Proof.
  intros Hst. unfold window_step.
  destruct (bool_decide (w_buf st ≠ [])) eqn:Hne; simpl; [|by apply append_covers].
  destruct (_ <? _); simpl; [|by apply append_covers].
  apply bool_decide_eq_true in Hne.
  apply (append_covers done _ line (flush_covers done st Hst Hne)).
Qed.

Lemma window_fold_covers todo : forall done st,
  wstate_covers done st ->
  wstate_covers (done ++ todo)
    (fold_left (window_step rel_path lang symbol max_chunk_chars) todo st).
Proof.
  induction todo as [|x todo IH]; intros done st Hst; simpl.
  - by rewrite app_nil_r.
  - replace (done ++ x :: todo) with ((done ++ [x]) ++ todo) by (by rewrite <- app_assoc).
    apply IH. by apply window_step_covers.
Qed.

Lemma window_chunks_covers chunk_type lines :
  let out := _window_chunks rel_path lang chunk_type symbol lines start max_chunk_chars in
  windows_ordered start out (start + Z.of_nat (length lines))
  /\ forall (k : nat) line,
       lines !! k = Some line -> all_space line = false ->
       exists c, c ∈ out /\ start_line c <= start + Z.of_nat k <= end_line c.
Proof.
  unfold _window_chunks.
  pose proof (window_fold_covers lines [] (mkWState [] [] start start)) as H.
  simpl in H.
  set (st := fold_left _ lines _) in *.
  assert (H0 : wstate_covers [] (mkWState [] [] start start)).
  { exists []. simpl. repeat split; [lia..|]. intros k line Hk. done. }
  specialize (H H0).
  destruct (bool_decide (w_buf st ≠ [])) eqn:Hne.
  - apply bool_decide_eq_true in Hne.
    destruct (flush_covers lines st H Hne) as (pre & Hdone & Hbs & Hcur & Hord & Hcov).
    simpl in *. rewrite app_nil_r in Hdone. subst pre.
    split; [by rewrite <- Hcur|]. exact Hcov.
  - apply bool_decide_eq_false in Hne. apply dec_stable in Hne.
    destruct H as (pre & Hdone & Hbs & Hcur & Hord & Hcov).
    rewrite Hne, app_nil_r in Hdone. subst pre.
    split; [by rewrite <- Hbs|]. exact Hcov.
Qed.

End WindowChunksOrder.

(** X2: The windows an oversized definition is split into keep the original
    line numbers: their line ranges lie inside the definition's range and
    follow one another without overlap. *)
Theorem window_chunks_sequential
    (rel_path lang chunk_type : string) (symbol : option string)
    (lines : list string) (start max_chunk_chars : Z) :
  let out := _window_chunks rel_path lang chunk_type symbol lines start max_chunk_chars in
  (forall c, c ∈ out ->
     start <= start_line c /\ start_line c <= end_line c
     /\ end_line c <= start + Z.of_nat (length lines) - 1)
  /\ (forall (m : nat) c1 c2,
        out !! m = Some c1 -> out !! S m = Some c2 -> end_line c1 < start_line c2).
Proof.
  intros out.
  destruct (window_chunks_covers rel_path lang symbol start max_chunk_chars
              chunk_type lines) as (Hord & _).
  fold out in Hord. split.
  - intros c Hc. destruct (windows_ordered_bounds _ _ _ Hord) as (_ & Hall).
    rewrite Forall_forall in Hall. specialize (Hall c Hc). lia.
  - intros m c1 c2.
    by apply (windows_ordered_adjacent out start (start + Z.of_nat (length lines)) m c1 c2).
Qed.

(** X3: Every non-blank line of an oversized definition lies in one of the
    windows it is split into. *)
Theorem window_chunks_cover_content
    (rel_path lang chunk_type : string) (symbol : option string)
    (lines : list string) (start max_chunk_chars : Z) (k : nat) (line : string) :
  lines !! k = Some line -> all_space line = false ->
  exists c,
    c ∈ _window_chunks rel_path lang chunk_type symbol lines start max_chunk_chars
    /\ start_line c <= start + Z.of_nat k <= end_line c.
Proof.
  intros Hk Hnb.
  destruct (window_chunks_covers rel_path lang symbol start max_chunk_chars
              chunk_type lines) as (_ & Hcov).
  by apply (Hcov k line).
Qed.

Lemma window_chunks_cover_content_witness :
  exists c,
    c ∈ _window_chunks "a.py" "python" "function" (Some "f")
          ["def f():"; "    x = 1"; "    return x"] 10 20
    /\ start_line c <= 10 + Z.of_nat 2 <= end_line c.
Proof.
  apply (window_chunks_cover_content "a.py" "python" "function" (Some "f")
           ["def f():"; "    x = 1"; "    return x"] 10 20 2 "    return x");
    reflexivity.
Defined.

(** ** What every emitted chunk carries *)

(** A chunk of file [rel] in language [lang] with non-empty text. *)
Definition tagged (rel lang : string) (c : Chunk) : Prop :=
  file_path c = rel /\ language c = lang /\ truthy (text c) = true.

Lemma flush_tagged rel lang symbol out buf_start cur buf :
  Forall (tagged rel lang) out ->
  Forall (tagged rel lang) (flush rel lang symbol out buf_start cur buf).
Proof.
  intros Ho. unfold flush. destruct (truthy _) eqn:Ht; [|done].
  apply Forall_app. split; [done|]. constructor; [|constructor]. by repeat split.
Qed.

Lemma window_fold_tagged rel lang symbol max_chunk_chars lines : forall st,
  Forall (tagged rel lang) (w_out st) ->
  Forall (tagged rel lang)
    (w_out (fold_left (window_step rel lang symbol max_chunk_chars) lines st)).
Proof.
  induction lines as [|x lines IH]; intros st Hst; [done|].
  simpl. apply IH. unfold window_step.
  destruct (bool_decide _ && _); simpl; [by apply flush_tagged|done].
Qed.

Lemma window_chunks_tagged rel lang ct symbol lines start max_chunk_chars :
  Forall (tagged rel lang)
    (_window_chunks rel lang ct symbol lines start max_chunk_chars).
Proof.
  unfold _window_chunks.
  pose proof (window_fold_tagged rel lang symbol max_chunk_chars lines
                (mkWState [] [] start start) ltac:(constructor)) as H.
  destruct (bool_decide _); [by apply flush_tagged|done].
Qed.

Lemma fallback_loop_tagged rel lang lines max_lines overlap_lines fuel : forall i out r,
  Forall (tagged rel lang) out ->
  chunk_fallback_loop fuel rel lang lines max_lines overlap_lines i out = Some r ->
  Forall (tagged rel lang) r.
Proof.
  induction fuel as [|fuel IH]; intros i out r Ho H; [discriminate|].
  rewrite loop_unfold in H.
  assert (He : Forall (tagged rel lang)
                 (out ++ fallback_emit rel lang lines max_lines i)).
  { apply Forall_app. split; [done|]. unfold fallback_emit.
    destruct (truthy _) eqn:Ht; constructor; [|constructor]. by repeat split. }
  destruct (_ <? _); [|by injection H as <-].
  destruct (_ <=? _); [by injection H as <-|].
  by eapply IH.
Qed.

Lemma fallback_windows_tagged rel text_ lang max_lines overlap_lines out :
  chunk_fallback rel text_ lang max_lines overlap_lines = Some out ->
  Forall (tagged rel lang) out.
Proof.
  unfold chunk_fallback. intros H.
  eapply fallback_loop_tagged; [|exact H]. constructor.
Qed.

(** Every window [chunk_fallback] returns is tagged with the path and the
    language it was called with and has non-empty text. *)
Theorem chunk_fallback_tagged rel text_ lang max_lines overlap_lines out :
  chunk_fallback rel text_ lang max_lines overlap_lines = Some out ->
  Forall (tagged rel lang) out.
Proof. apply fallback_windows_tagged. Qed.

Lemma chunk_fallback_tagged_witness :
  exists out,
    chunk_fallback "t.txt" ("a" +:+ nl +:+ "b") "text" 2 1 = Some out
    /\ Forall (tagged "t.txt" "text") out.
Proof.
  eexists. split; [reflexivity|].
  apply (chunk_fallback_tagged "t.txt" ("a" +:+ nl +:+ "b") "text" 2 1). reflexivity.
Defined.

(** ** [chunk_python] on a parsed module *)

Section ChunkPythonFacts.

Variables (rel_path : string) (lines : list string) (max_chunk_chars : Z).

(** The chunk fits the limit, or it is a window of one source line that is
    itself longer than the limit. *)
Definition fits_or_long_line (c : Chunk) : Prop :=
  slen (text c) <= max_chunk_chars
  \/ (chunk_type c = "window" /\ start_line c = end_line c
      /\ exists line, line ∈ lines /\ max_chunk_chars < slen line /\ text c = strip line).

Lemma py_slice_subset {A} (l : list A) lo hi x : x ∈ py_slice l lo hi -> x ∈ l.
Proof.
  unfold py_slice. intros H.
  apply subseteq_take in H. by apply subseteq_drop in H.
Qed.

Lemma window_chunks_fit_or_long kind name seg_start seg_end :
  Forall fits_or_long_line
    (_window_chunks rel_path "python" kind (Some name)
       (py_slice lines seg_start seg_end) (seg_start + 1) max_chunk_chars).
Proof.
  pose proof (window_chunks_fit rel_path "python" kind (Some name)
                (py_slice lines seg_start seg_end) (seg_start + 1) max_chunk_chars) as Hfit.
  pose proof (window_chunks_tagged rel_path "python" kind (Some name)
                (py_slice lines seg_start seg_end) (seg_start + 1) max_chunk_chars) as Htag.
  rewrite Forall_forall in Hfit |- *. intros c Hc.
  destruct (Hfit c Hc) as [Hle|(Heq & line & Hin & Hlong & Htxt)]; [by left|].
  right. split; [|split; [exact Heq|]].
  - clear Hfit Htag Hlong Htxt Hin Heq. revert c Hc. apply Forall_forall.
    unfold _window_chunks.
    assert (Hfold : forall l st,
              Forall (fun c => chunk_type c = "window") (w_out st) ->
              Forall (fun c => chunk_type c = "window")
                (w_out (fold_left (window_step rel_path "python" (Some name)
                                     max_chunk_chars) l st))).
    { induction l as [|x l IH]; intros st Hst; [done|]. simpl. apply IH.
      unfold window_step. destruct (bool_decide _ && _); simpl; [|done].
      unfold flush. destruct (truthy _); [|done].
      apply Forall_app. split; [done|]. by repeat constructor. }
    specialize (Hfold (py_slice lines seg_start seg_end)
                  (mkWState [] [] (seg_start + 1) (seg_start + 1)) ltac:(constructor)).
    destruct (bool_decide _); [|done].
    unfold flush. destruct (truthy _); [|done].
    apply Forall_app. split; [done|]. by repeat constructor.
  - exists line. split; [by eapply py_slice_subset|done].
Qed.

(** The invariant of [for node in tree.body] on the chunk list. *)
Definition chunks_ok (cs : list Chunk) : Prop :=
  Forall (fun c => file_path c = rel_path /\ language c = "python"
                   /\ fits_or_long_line c) cs.

Lemma chunk_python_step_ok acc nd :
  chunks_ok acc.1 ->
  chunks_ok (chunk_python_step rel_path lines max_chunk_chars acc nd).1.
Proof.
  destruct acc as [chunks symbols]. simpl. intros Hacc. unfold chunk_python_step.
  destruct (top_level_def nd) as [[[[is_class name] [start|]] [end_|]]|]; try done.
  destruct (truthy _) eqn:Ht; [|done].
  destruct (Z.ltb_spec max_chunk_chars
              (slen (strip (join nl (py_slice lines (start - 1) end_))))); simpl.
  - apply Forall_app. split; [done|].
    pose proof (window_chunks_tagged rel_path "python"
                  (if is_class then "class" else "function") (Some name)
                  (py_slice lines (start - 1) end_) start max_chunk_chars) as Htag.
    pose proof (window_chunks_fit_or_long (if is_class then "class" else "function")
                  name (start - 1) end_) as Hfit.
    replace (start - 1 + 1) with start in Hfit by lia.
    rewrite Forall_forall in Htag, Hfit |- *. intros c Hc.
    destruct (Htag c Hc) as (? & ? & _). by repeat split; [..|apply Hfit].
  - apply Forall_app. split; [done|]. constructor; [|constructor].
    repeat split. by left.
Qed.

Lemma chunk_python_fold_ok tree : forall acc,
  chunks_ok acc.1 ->
  chunks_ok (fold_left (chunk_python_step rel_path lines max_chunk_chars) tree acc).1.
Proof.
  induction tree as [|nd tree IH]; intros acc Hacc; [done|].
  simpl. apply IH. by apply chunk_python_step_ok.
Qed.

End ChunkPythonFacts.

Lemma str_prefix_slen s k : 0 <= k -> slen (str_prefix s k) <= k.
Proof.
  intros Hk. unfold str_prefix, slen, py_slice, slice_bound.
  rewrite <- (list_ascii_of_string_of_list_ascii
                (take _ (drop _ (list_ascii_of_string s)))) at 1.
  assert (Hlen : forall l, String.length (string_of_list_ascii l) = length l).
  { induction l as [|c l IH]; simpl; [done|]. by rewrite IH. }
  rewrite string_of_list_ascii_of_string, Hlen.
  destruct (Z.ltb_spec 0 0); [lia|]. destruct (Z.ltb_spec k 0); [lia|].
  rewrite length_take. lia.
Qed.

(** X4: When the text parses and the limit is not negative, every chunk
    [chunk_python] returns belongs to the file, is labelled python, and has
    at most [max_chunk_chars] characters unless it is a one-line window
    whose source line is itself longer than the limit. *)
Theorem chunk_python_chunks_bounded
    (ast_parse : string -> option module) (rel_path text_ : string)
    (max_chunk_chars : Z) (tree : module) :
  ast_parse text_ = Some tree -> 0 <= max_chunk_chars ->
  exists chunks symbols_,
    chunk_python ast_parse rel_path text_ max_chunk_chars = Some (chunks, symbols_)
    /\ Forall (fun c => file_path c = rel_path /\ language c = "python"
                        /\ fits_or_long_line (splitlines text_) max_chunk_chars c) chunks.
Proof.
  intros Hparse Hmax. unfold chunk_python. rewrite Hparse.
  set (acc0 := (_, @nil symbol_row)).
  pose proof (chunk_python_fold_ok rel_path (splitlines text_) max_chunk_chars tree acc0) as H.
  destruct (fold_left _ tree acc0) as [chunks symbols_] eqn:Hfold.
  exists chunks, symbols_. split; [done|]. apply H.
  subst acc0. simpl. destruct (truthy _); constructor; [|constructor].
  repeat split. left. simpl. by apply str_prefix_slen.
Qed.

Lemma chunk_python_chunks_bounded_witness :
  let src := "def f():" +:+ nl +:+ "    return 'aaaaaaaaaaaaaaaaaaaaaaaa'" in
  let tree := [FunctionDef "f" (Some 1) (Some 2) [Other []; Other []]] in
  exists chunks symbols_,
    chunk_python (fun _ => Some tree) "a.py" src 20 = Some (chunks, symbols_)
    /\ Forall (fun c => file_path c = "a.py" /\ language c = "python"
                        /\ fits_or_long_line (splitlines src) 20 c) chunks.
Proof.
  intros src tree.
  apply (chunk_python_chunks_bounded (fun _ => Some tree) "a.py" src 20 tree);
    [reflexivity|lia].
Defined.

(** The symbol row of a node of [tree.body]: only functions, async
    functions and classes with both line numbers have one. *)
Definition top_level_symbol (nd : node) : option symbol_row :=
  match top_level_def nd with
  | Some (is_class, name, Some start, Some end_) =>
      Some (if truthy name then name else "<unknown>",
            if is_class then "class" else "function", start, end_)
  | _ => None
  end.

Lemma chunk_python_fold_symbols rel_path lines max_chunk_chars tree : forall acc,
  (fold_left (chunk_python_step rel_path lines max_chunk_chars) tree acc).2
  = acc.2 ++ omap top_level_symbol tree.
Proof.
  induction tree as [|nd tree IH]; intros [chunks symbols_]; simpl.
  - by rewrite app_nil_r.
  - rewrite IH. unfold chunk_python_step, top_level_symbol.
    destruct (top_level_def nd) as [[[[is_class name] [start|]] [end_|]]|]; try done.
    destruct (truthy (strip _)); [destruct (_ <? _)|]; simpl; by rewrite <- app_assoc.
Qed.

(** X5: On a text that parses, the symbol rows [chunk_python] returns are the
    top-level functions and classes in source order, one row each: they do
    not depend on the size limit, and a definition gets its row even when
    no chunk is emitted for it. *)
Theorem chunk_python_symbols
    (ast_parse : string -> option module) (rel_path text_ : string)
    (max_chunk_chars : Z) (tree : module) :
  ast_parse text_ = Some tree ->
  exists chunks,
    chunk_python ast_parse rel_path text_ max_chunk_chars
    = Some (chunks, omap top_level_symbol tree).
Proof.
  intros Hparse. unfold chunk_python. rewrite Hparse.
  set (acc0 := (_, @nil symbol_row)).
  pose proof (chunk_python_fold_symbols rel_path (splitlines text_) max_chunk_chars
                tree acc0) as H.
  destruct (fold_left _ tree acc0) as [chunks symbols_]. simpl in H.
  exists chunks. by rewrite H.
Qed.

Lemma chunk_python_symbols_witness :
  let tree := [FunctionDef "f" (Some 1) (Some 2) [Other []; Other []];
               Other []; ClassDef "C" 3 (Some 4) []] in
  exists chunks,
    chunk_python (fun _ => Some tree) "a.py" "" 0
    = Some (chunks, [("f", "function", 1, 2); ("C", "class", 3, 4)]).
Proof.
  intros tree.
  apply (chunk_python_symbols (fun _ => Some tree) "a.py" "" 0 tree). reflexivity.
Defined.

(** ** The pipeline: what a re-index leaves alone, and what it repeats *)

(** Case analysis on the conditions of the pipeline's branches. *)
Ltac case_pipeline :=
  unfold reindex_file, index_python, upsert_chunks, when;
  repeat match goal with
         | |- context [analyze_python_source ?p ?t] =>
             destruct (analyze_python_source p t) as [[? ?] ?]
         end;
  cbn [nonempty map];
  repeat match goal with
         | |- context [if ?b then _ else _] => destruct b
         end.

Section PipelineFacts.

Variable ast_parse : string -> option module.
Variables uuid5 sha256_text : string -> string.
Variable V : Type.
Variable embed_passages : list string -> list V.
Variables (wid git_ref now : string).

Local Abbreviation reindex f m s chunks symbols_ st :=
  (reindex_file ast_parse uuid5 sha256_text V embed_passages wid git_ref now f m s
     chunks symbols_ st).
Local Abbreviation step cfg run f :=
  (index_file ast_parse uuid5 sha256_text V embed_passages cfg wid git_ref now run f).

(** *** The tables after a re-index *)

Lemma files_snap_reindexed f m s chunks symbols_ (st : Store V) :
  files_snap (tables (reindex f m s chunks symbols_ st))
  = upsert_file (files_snap (tables st))
      (mkFileRow wid git_ref (f_rel f) (f_hash f) m s (f_lang f) now).
Proof.
  case_pipeline; reflexivity.
Qed.

Lemma symbols_snap_reindexed f m s chunks symbols_ (st : Store V) :
  symbols_snap (tables (reindex f m s chunks symbols_ st))
  = insert_many (insert_or_ignore symbols_snap_pk)
      (filter (fun r => file_key wid git_ref (f_rel f) (ss_workspace_id r) (ss_git_ref r)
                          (ss_file_path r) = false) (symbols_snap (tables st)))
      (map (fun x => let '(sname, skind, sstart, send) := x in
                     mkSymbolSnapRow wid git_ref (f_rel f) sname skind sstart send)
         symbols_).
Proof.
  destruct symbols_; case_pipeline; reflexivity.
Qed.

Lemma chunk_fts_reindexed f m s chunks symbols_ (st : Store V) :
  chunk_fts (tables (reindex f m s chunks symbols_ st))
  = filter (fun r => file_key wid git_ref (f_rel f) (cf_workspace_id r) (cf_git_ref r)
                       (cf_file_path r) = false) (chunk_fts (tables st))
    ++ map (fun c => mkChunkRow wid git_ref (file_path c) (start_line c) (end_line c)
                       (language c) (chunk_type c) (symbol_name c) (text c)) chunks.
Proof.
  destruct chunks; case_pipeline; simpl; by rewrite ?app_nil_r.
Qed.

Lemma py_refs_reindexed f m s chunks symbols_ (st : Store V) :
  py_refs (tables (reindex f m s chunks symbols_ st))
  = if seqb (f_lang f) "python"
    then insert_many (insert_or_replace py_refs_pk)
           (filter (fun r => file_key wid git_ref (f_rel f) (pr_workspace_id r)
                               (pr_git_ref r) (pr_file_path r) = false)
              (py_refs (tables st)))
           (map (fun r => mkPyRefRow wid git_ref (r_name r) (f_rel f) (r_line r) (r_col r)
                            (r_context r))
              (analyze_python_source ast_parse (f_text f)).1.2)
    else py_refs (tables st).
Proof.
  unfold reindex_file, index_python.
  destruct (seqb (f_lang f) "python"); [|case_pipeline; reflexivity].
  destruct (analyze_python_source ast_parse (f_text f)) as [[py_defs py_refs_] py_calls].
  simpl. destruct py_refs_; case_pipeline; reflexivity.
Qed.

Lemma points_reindexed f m s chunks symbols_ (st : Store V) :
  points (reindex f m s chunks symbols_ st)
  = insert_many (insert_or_replace (fun a b => seqb (pt_id a) (pt_id b)))
      (filter (fun p => file_key wid git_ref (f_rel f) (p_workspace_id (pt_payload p))
                          (p_git_ref (pt_payload p)) (p_file_path (pt_payload p)) = false)
         (points st))
      (map (fun cv => point_of uuid5 sha256_text V wid git_ref now cv.1 cv.2)
         (zip chunks (if nonempty (map text chunks)
                      then embed_passages (map text chunks) else []))).
Proof.
  unfold reindex_file, upsert_chunks.
  destruct (map _ (zip chunks _)); case_pipeline; reflexivity.
Qed.

End PipelineFacts.

(** *** Rows of other files and revisions *)

Lemma filter_insert_or_replace_other {A} (key : A -> bool) (pk : A -> A -> bool)
    (tbl : list A) (row : A) :
  key row = true ->
  (forall old, pk old row = true -> key old = true) ->
  filter (fun x => key x = false) (insert_or_replace pk tbl row)
  = filter (fun x => key x = false) tbl.
Proof.
  intros Hrow Hpk. unfold insert_or_replace.
  rewrite filter_app, (filter_cons _ row). destruct (decide (key row = false)); [congruence|].
  rewrite filter_nil, app_nil_r.
  induction tbl as [|x tbl IH]; [done|].
  rewrite (filter_cons (fun old => pk old row = false)).
  destruct (decide (pk x row = false)) as [Hx|Hx].
  - rewrite !filter_cons. destruct (decide (key x = false)); by rewrite IH.
  - rewrite IH, filter_cons.
    destruct (decide (key x = false)) as [Hk|Hk]; [|done].
    apply not_false_iff_true in Hx. apply Hpk in Hx. congruence.
Qed.

Lemma filter_insert_or_ignore_other {A} (key : A -> bool) (pk : A -> A -> bool)
    (tbl : list A) (row : A) :
  key row = true ->
  filter (fun x => key x = false) (insert_or_ignore pk tbl row)
  = filter (fun x => key x = false) tbl.
Proof.
  intros Hrow. unfold insert_or_ignore. destruct (existsb _ tbl); [done|].
  rewrite filter_app, (filter_cons _ row). destruct (decide (key row = false)); [congruence|].
  by rewrite filter_nil, app_nil_r.
Qed.

Lemma filter_insert_many_other {A} (key : A -> bool) (ins : list A -> A -> list A)
    (rows : list A) :
  (forall tbl row, key row = true ->
     filter (fun x => key x = false) (ins tbl row) = filter (fun x => key x = false) tbl) ->
  Forall (fun r => key r = true) rows ->
  forall tbl,
    filter (fun x => key x = false) (insert_many ins tbl rows)
    = filter (fun x => key x = false) tbl.
Proof.
  intros Hins Hrows. unfold insert_many.
  induction Hrows as [|r rows Hr _ IH]; intros tbl; simpl; [done|].
  by rewrite IH, Hins.
Qed.

Lemma filter_other_idemp {A} (key : A -> bool) (l : list A) :
  filter (fun x => key x = false) (filter (fun x => key x = false) l)
  = filter (fun x => key x = false) l.
Proof.
  induction l as [|x l IH]; [done|]. rewrite filter_cons.
  destruct (decide (key x = false)) as [Hx|Hx]; [|done].
  rewrite filter_cons. destruct (decide (key x = false)); [by rewrite IH|done].
Qed.

Lemma filter_upsert_file_other (key : FileRow -> bool) (tbl : list FileRow) (row : FileRow) :
  key row = true ->
  (forall old, files_snap_pk old row = true -> key old = true) ->
  filter (fun x => key x = false) (upsert_file tbl row)
  = filter (fun x => key x = false) tbl.
Proof.
  intros Hrow Hpk. unfold upsert_file. destruct (existsb _ tbl).
  - induction tbl as [|x tbl IH]; [done|]. simpl.
    destruct (files_snap_pk x row) eqn:Hx.
    + rewrite !filter_cons. apply Hpk in Hx.
      destruct (decide (key row = false)); [congruence|].
      destruct (decide (key x = false)); [congruence|]. exact IH.
    + rewrite !filter_cons. destruct (decide (key x = false)); by rewrite IH.
  - rewrite filter_app, (filter_cons _ row).
    destruct (decide (key row = false)); [congruence|].
    by rewrite filter_nil, app_nil_r.
Qed.

Lemma seqb_eq a b : seqb a b = true -> a = b.
Proof. unfold seqb. apply bool_decide_eq_true. Qed.

Lemma seqb_refl a : seqb a a = true.
Proof. unfold seqb. by apply bool_decide_eq_true. Qed.

Section Frame.

Variable ast_parse : string -> option module.
Variables uuid5 sha256_text : string -> string.
Variable V : Type.
Variable embed_passages : list string -> list V.
Variables (wid git_ref now : string) (f : FileObs) (st_mtime : float) (st_size : Z).
Variables (chunks : list Chunk) (symbols_ : list symbol_row).

Local Abbreviation reindexed st :=
  (tables (reindex_file ast_parse uuid5 sha256_text V embed_passages wid git_ref now f
             st_mtime st_size chunks symbols_ st)).

Local Abbreviation other w r p := (file_key wid git_ref (f_rel f) w r p = false).

Lemma key_refl : file_key wid git_ref (f_rel f) wid git_ref (f_rel f) = true.
Proof. unfold file_key. by rewrite !seqb_refl. Qed.

(** X10: Re-indexing one file of one (workspace, revision) leaves every row of
    any other file, revision or workspace in the file manifest, the
    lexical index, the symbol table and the reference table as it was, in
    the same order. *)
Theorem reindex_keeps_other_rows (st : Store V) :
  Forall (fun c => file_path c = f_rel f) chunks ->
  filter (fun r => other (fs_workspace_id r) (fs_git_ref r) (fs_file_path r))
    (files_snap (reindexed st))
  = filter (fun r => other (fs_workspace_id r) (fs_git_ref r) (fs_file_path r))
      (files_snap (tables st))
  /\ filter (fun r => other (cf_workspace_id r) (cf_git_ref r) (cf_file_path r))
       (chunk_fts (reindexed st))
     = filter (fun r => other (cf_workspace_id r) (cf_git_ref r) (cf_file_path r))
         (chunk_fts (tables st))
  /\ filter (fun r => other (ss_workspace_id r) (ss_git_ref r) (ss_file_path r))
       (symbols_snap (reindexed st))
     = filter (fun r => other (ss_workspace_id r) (ss_git_ref r) (ss_file_path r))
         (symbols_snap (tables st))
  /\ filter (fun r => other (pr_workspace_id r) (pr_git_ref r) (pr_file_path r))
       (py_refs (reindexed st))
     = filter (fun r => other (pr_workspace_id r) (pr_git_ref r) (pr_file_path r))
         (py_refs (tables st)).
Proof.
  intros Hpath. repeat split.
  - rewrite files_snap_reindexed.
    apply (filter_upsert_file_other
             (fun r => file_key wid git_ref (f_rel f) (fs_workspace_id r) (fs_git_ref r)
                         (fs_file_path r))); [apply key_refl|].
    intros old Hold. exact Hold.
  - rewrite chunk_fts_reindexed, filter_app.
    rewrite (filter_other_idemp
               (fun r => file_key wid git_ref (f_rel f) (cf_workspace_id r) (cf_git_ref r)
                           (cf_file_path r))).
    rewrite <- (app_nil_r (filter _ (chunk_fts (tables st)))) at 2. f_equal.
    induction Hpath as [|c cs Hc _ IH]; [done|]. simpl.
    rewrite filter_cons. simpl. rewrite Hc.
    destruct (decide _) as [Hk|_]; [by rewrite key_refl in Hk|exact IH].
  - rewrite symbols_snap_reindexed.
    rewrite (filter_insert_many_other
               (fun r => file_key wid git_ref (f_rel f) (ss_workspace_id r) (ss_git_ref r)
                           (ss_file_path r))).
    + apply filter_other_idemp.
    + intros tbl row Hrow.
      by apply (filter_insert_or_ignore_other
                  (fun r => file_key wid git_ref (f_rel f) (ss_workspace_id r)
                              (ss_git_ref r) (ss_file_path r))).
    + apply Forall_fmap, Forall_forall. intros [[[sname skind] sstart] send] _.
      apply key_refl.
  - rewrite py_refs_reindexed. destruct (seqb (f_lang f) "python"); [|done].
    rewrite (filter_insert_many_other
               (fun r => file_key wid git_ref (f_rel f) (pr_workspace_id r) (pr_git_ref r)
                           (pr_file_path r))).
    + apply filter_other_idemp.
    + intros tbl row Hrow.
      apply (filter_insert_or_replace_other
               (fun r => file_key wid git_ref (f_rel f) (pr_workspace_id r)
                           (pr_git_ref r) (pr_file_path r))); [done|].
      intros old Hold. unfold py_refs_pk in Hold.
      repeat (apply andb_true_iff in Hold as [Hold ?]).
      unfold file_key in *. repeat (apply andb_true_iff in Hrow as [Hrow ?]).
      repeat match goal with H : seqb _ _ = true |- _ => apply seqb_eq in H end.
      rewrite Hold. by repeat match goal with H : _ = _ |- _ => rewrite H end;
        rewrite !seqb_refl.
    + apply Forall_fmap, Forall_forall. intros r _. apply key_refl.
Qed.

(** X11: After a changed file is re-indexed, every vector point stored for it
    is one of the points just built from its new chunks: the points of its
    earlier content are gone. *)
Theorem reindex_leaves_no_stale_points (st : Store V) (p : Point V) :
  p ∈ points (reindex_file ast_parse uuid5 sha256_text V embed_passages wid git_ref now f
                st_mtime st_size chunks symbols_ st) ->
  file_key wid git_ref (f_rel f) (p_workspace_id (pt_payload p))
    (p_git_ref (pt_payload p)) (p_file_path (pt_payload p)) = true ->
  p ∈ map (fun cv => point_of uuid5 sha256_text V wid git_ref now cv.1 cv.2)
        (zip chunks (if nonempty (map text chunks)
                     then embed_passages (map text chunks) else [])).
Proof.
  rewrite points_reindexed. intros Hin Hkey.
  apply insert_many_elem in Hin as [Hin|Hin]; [|done|apply insert_or_replace_elem].
  apply list_elem_of_filter in Hin as [Hno _]. congruence.
Qed.

End Frame.

(** *** Runs *)

Lemma fetch_after_upsert wid git_ref rel (tbl : list FileRow) h m s lang now :
  head (filter (fun r => file_key wid git_ref rel (fs_workspace_id r) (fs_git_ref r)
                           (fs_file_path r) = true)
          (upsert_file tbl (mkFileRow wid git_ref rel h m s lang now)))
  = Some (mkFileRow wid git_ref rel h m s lang now).
Proof.
  set (row := mkFileRow wid git_ref rel h m s lang now).
  set (key := fun r => file_key wid git_ref rel (fs_workspace_id r) (fs_git_ref r)
                         (fs_file_path r)).
  change (head (filter (fun r => key r = true) (upsert_file tbl row)) = Some row).
  assert (Hkey : forall old, files_snap_pk old row = key old) by done.
  assert (Hrow : key row = true).
  { unfold key, file_key. simpl. by rewrite !seqb_refl. }
  unfold upsert_file. destruct (existsb _ tbl) eqn:Hex.
  - induction tbl as [|x tbl IH]; [done|]. cbn [map existsb] in *.
    rewrite Hkey in *. destruct (key x) eqn:Hx.
    + rewrite filter_cons. case_decide as Hd; [done|]. exfalso. apply Hd. exact Hrow.
    + rewrite filter_cons. case_decide as Hd.
      * exfalso. change (key x = true) in Hd. congruence.
      * apply IH. by rewrite orb_false_l in Hex.
  - rewrite filter_app.
    assert (Hnone : filter (fun r => key r = true) tbl = []).
    { induction tbl as [|x tbl IH]; [done|]. cbn [existsb] in Hex.
      apply orb_false_iff in Hex as [Hx Hex]. rewrite Hkey in Hx.
      rewrite filter_cons. case_decide as Hd; [|by apply IH].
      exfalso. change (key x = true) in Hd. congruence. }
    rewrite Hnone, app_nil_l, filter_cons.
    case_decide as Hd; [done|]. exfalso. apply Hd. exact Hrow.
Qed.

Section Runs.

Variable ast_parse : string -> option module.
Variables uuid5 sha256_text : string -> string.
Variable V : Type.
Variable embed_passages : list string -> list V.
Variables (cfg : Config) (wid git_ref now : string).

Local Abbreviation step run f :=
  (index_file ast_parse uuid5 sha256_text V embed_passages cfg wid git_ref now run f).

(** X12: Indexing is idempotent per file: once a file has gone through the
    loop body, going through it again with the same digest, modification
    time and size only counts it; the store and the changed count stay.
    (A modification time that is not equal to itself, a NaN, would make
    the file look changed every time.) *)
Theorem index_file_idempotent (run run1 : Run V) (f : FileObs) (m : float) (s : Z) :
  f_stat f = Some (m, s) ->
  PrimFloat.eqb m m = true ->
  step run f = Some run1 ->
  step run1 f = Some (mkRun V (processed V run1 + 1) (changed V run1) (store V run1)).
Proof.
  intros Hstat Hm Hfirst.
  assert (Hgoal : forall row,
            fetch_file_row wid git_ref (f_rel f) (tables (store V run1)) = row ->
            unchanged row (f_hash f) m s = true ->
            step run1 f
            = Some (mkRun V (processed V run1 + 1) (changed V run1) (store V run1))).
  { intros row Hrow Hun. unfold index_file. by rewrite Hstat, Hrow, Hun. }
  unfold index_file in Hfirst. rewrite Hstat in Hfirst.
  destruct (unchanged _ (f_hash f) m s) eqn:Hun.
  - injection Hfirst as <-. simpl in *. by eapply Hgoal.
  - destruct (if seqb (f_lang f) "python" then _ else _) as [[chunks symbols_]|];
      [|discriminate].
    injection Hfirst as <-. simpl.
    eapply Hgoal; [reflexivity|]. simpl.
    unfold fetch_file_row. rewrite files_snap_reindexed, fetch_after_upsert.
    unfold unchanged. simpl. by rewrite seqb_refl, Hm, Z.eqb_refl.
Qed.

(** The loop keeps [processed] equal to the number of files seen, and
    [changed] between 0 and [processed]. *)
Lemma index_file_counts run f run' :
  step run f = Some run' ->
  processed V run' = processed V run + 1
  /\ changed V run <= changed V run' <= changed V run + 1.
Proof.
  unfold index_file. destruct (f_stat f) as [[m s]|].
  - destruct (unchanged _ _ _ _).
    + intros [= <-]. simpl. lia.
    + destruct (if seqb (f_lang f) "python" then _ else _) as [[chunks symbols_]|];
        [|discriminate].
      intros [= <-]. simpl. lia.
  - intros [= <-]. simpl. lia.
Qed.

Lemma index_files_counts files : forall run run',
  fold_left (fun acc f => acc ≫= fun run => step run f) files (Some run) = Some run' ->
  processed V run' = processed V run + Z.of_nat (length files)
  /\ changed V run <= changed V run' <= changed V run + Z.of_nat (length files).
Proof.
  induction files as [|f files IH]; intros run run' H; simpl in *.
  - injection H as <-. lia.
  - destruct (step run f) as [run1|] eqn:Hstep.
    + apply IH in H. apply index_file_counts in Hstep. lia.
    + exfalso. clear -H. induction files as [|x files IHf]; [discriminate|]. by apply IHf.
Qed.

(** X14: The summary of a run: [files_total] is the number of discovered files
    and [files_changed] lies between 0 and [files_total]. *)
Theorem index_repo_summary repo_root files (st0 st : Store V) total changed_ :
  index_repo ast_parse uuid5 sha256_text V embed_passages cfg wid repo_root git_ref now
    files st0 = Some (st, total, changed_) ->
  total = Z.of_nat (length files) /\ 0 <= changed_ <= total.
Proof.
  unfold index_repo. intros H.
  destruct (fold_left _ files _) as [run'|] eqn:Hfold; [|discriminate].
  injection H as <- <- <-. apply index_files_counts in Hfold. simpl in Hfold. lia.
Qed.




End Runs.

(** *** The chunker's output reaches the lexical index *)

Lemma chunk_python_paths ast_parse rel_path text_ max_chunk_chars chunks symbols_ :
  chunk_python ast_parse rel_path text_ max_chunk_chars = Some (chunks, symbols_) ->
  Forall (fun c => file_path c = rel_path) chunks.
Proof.
  unfold chunk_python. destruct (ast_parse text_) as [tree|].
  - intros [= H].
    assert (Hfold : forall tree acc,
              Forall (fun c => file_path c = rel_path) acc.1 ->
              Forall (fun c => file_path c = rel_path)
                (fold_left (chunk_python_step rel_path (splitlines text_) max_chunk_chars)
                   tree acc).1).
    { clear. induction tree as [|nd tree IH]; intros [cs ss] Hacc; [done|].
      simpl. apply IH. unfold chunk_python_step. simpl in Hacc.
      destruct (top_level_def nd) as [[[[is_class name] [start|]] [end_|]]|]; try done.
      destruct (truthy _); [|done]. destruct (_ <? _); simpl.
      - apply Forall_app. split; [done|].
        eapply Forall_impl; [apply window_chunks_tagged|]. by intros c (? & _).
      - apply Forall_app. split; [done|]. by repeat constructor. }
    match type of H with fold_left _ tree ?acc = _ => specialize (Hfold tree acc) end.
    rewrite H in Hfold. apply Hfold. simpl.
    destruct (truthy _); by repeat constructor.
  - destruct (chunk_fallback rel_path text_ "python" 220 40) as [cs|] eqn:Hf; [|discriminate].
    intros [= <- <-]. eapply Forall_impl; [by eapply fallback_windows_tagged|].
    by intros c (? & _).
Qed.

Section Compose.

Variable ast_parse : string -> option module.
Variables uuid5 sha256_text : string -> string.
Variable V : Type.
Variable embed_passages : list string -> list V.
Variables (cfg : Config) (wid git_ref now : string).

(** What the loop body chunks a file with. *)
Definition chunker_output (f : FileObs) : option (list Chunk * list symbol_row) :=
  if seqb (f_lang f) "python"
  then chunk_python ast_parse (f_rel f) (f_text f) (max_chunk_chars cfg)
  else option_map (fun cs => (cs, []))
         (chunk_fallback (f_rel f) (f_text f) (f_lang f)
            (max_fallback_lines cfg) (fallback_overlap_lines cfg)).

(** X13: When the loop body re-indexes a changed file, the lexical index then
    holds for that file and revision exactly one row per chunk the chunker
    returned for its current text, in the chunker's order. *)
Theorem index_file_stores_chunker_output (run run' : Run V) (f : FileObs) m s :
  f_stat f = Some (m, s) ->
  unchanged (fetch_file_row wid git_ref (f_rel f) (tables (store V run))) (f_hash f) m s
  = false ->
  index_file ast_parse uuid5 sha256_text V embed_passages cfg wid git_ref now run f
  = Some run' ->
  exists chunks symbols_,
    chunker_output f = Some (chunks, symbols_)
    /\ changed V run' = changed V run + 1
    /\ filter (fun r => file_key wid git_ref (f_rel f) (cf_workspace_id r) (cf_git_ref r)
                          (cf_file_path r) = true)
         (chunk_fts (tables (store V run')))
       = map (fun c => mkChunkRow wid git_ref (file_path c) (start_line c) (end_line c)
                         (language c) (chunk_type c) (symbol_name c) (text c)) chunks.
Proof.
  intros Hstat Hun Hstep. unfold index_file in Hstep. rewrite Hstat, Hun in Hstep.
  fold (chunker_output f) in Hstep.
  destruct (chunker_output f) as [[chunks symbols_]|] eqn:Hout; [|discriminate].
  injection Hstep as <-. exists chunks, symbols_. split; [done|]. split; [done|].
  simpl. apply reindex_replaces_chunk_rows.
  unfold chunker_output in Hout. destruct (seqb (f_lang f) "python").
  - by eapply chunk_python_paths.
  - destruct (chunk_fallback _ _ _ _ _) as [cs|] eqn:Hf; [|discriminate].
    injection Hout as <- <-. eapply Forall_impl; [by eapply fallback_windows_tagged|].
    by intros c (? & _).
Qed.

(** *** The legacy table *)

Lemma index_file_keeps_legacy_symbols (run run' : Run V) f :
  index_file ast_parse uuid5 sha256_text V embed_passages cfg wid git_ref now run f
  = Some run' ->
  symbols (tables (store V run')) = symbols (tables (store V run)).
Proof.
  unfold index_file. destruct (f_stat f) as [[m s]|]; [|by intros [= <-]].
  destruct (unchanged _ _ _ _); [by intros [= <-]|].
  destruct (if seqb (f_lang f) "python" then _ else _) as [[chunks symbols_]|];
    [|discriminate].
  intros [= <-]. simpl. apply reindex_file_keeps_legacy_symbols.
Qed.

(** X16: No run of [index_repo] changes what [symbol_find] returns: the run
    never writes the table [symbols], the only table the lookup reads. *)
Theorem index_repo_never_changes_symbol_find repo_root files (st0 st : Store V) total n
    (ws name : string) (lang path_prefix : option string) (limit : Z) :
  index_repo ast_parse uuid5 sha256_text V embed_passages cfg wid repo_root git_ref now
    files st0 = Some (st, total, n) ->
  symbol_find (tables st) ws name lang path_prefix limit
  = symbol_find (tables st0) ws name lang path_prefix limit.
Proof.
  unfold index_repo. intros H.
  destruct (fold_left _ files _) as [run'|] eqn:Hfold; [|discriminate].
  injection H as <- _ _.
  assert (Hsym : symbols (tables (store V run')) = symbols (tables st0)).
  {
    assert (Hgen : forall files run run',
              fold_left (fun acc f => acc ≫= fun run =>
                           index_file ast_parse uuid5 sha256_text V embed_passages cfg
                             wid git_ref now run f) files (Some run) = Some run' ->
              symbols (tables (store V run')) = symbols (tables (store V run))).
    { clear. induction files as [|f files IH]; intros run run' H; simpl in *.
      - by injection H as <-.
      - destruct (index_file _ _ _ _ _ _ _ _ _ run f) as [run1|] eqn:Hstep.
        + apply IH in H. apply index_file_keeps_legacy_symbols in Hstep. congruence.
        + exfalso. clear -H. induction files as [|x files IHf]; [discriminate|].
          by apply IHf. }
    apply Hgen in Hfold. exact Hfold. }
  unfold symbol_find. by rewrite Hsym.
Qed.

End Compose.

(** *** The pipeline theorems at the two-version scenario *)

Module ScenarioRuns.

Definition step (run : Run unit) (f : FileObs) : option (Run unit) :=
  index_file Scenario.parse Scenario.uuid5 Scenario.sha256_text unit
    Scenario.embed_passages Scenario.cfg "W" "working_tree" "t1" run f.

Definition run0 : Run unit := mkRun unit 0 0 Scenario.empty_store.

(** A second file of the same snapshot, already indexed. *)
Definition other_rows : Tables :=
  set_chunk_fts
    [mkChunkRow "W" "working_tree" "b.txt" 1 1 "text" "window" None "hello"]
    (set_files_snap
       [mkFileRow "W" "working_tree" "b.txt" "digest-b" 1%float 5 "text" "t0"]
       empty_tables).

Definition store_b : Store unit := mkStore other_rows [] [].

Definition reindex_a (st : Store unit) : Store unit :=
  reindex_file Scenario.parse Scenario.uuid5 Scenario.sha256_text unit
    Scenario.embed_passages "W" "working_tree" "t1" Scenario.obs2 2%float 18 [] [] st.

End ScenarioRuns.

Lemma index_file_idempotent_witness :
  exists run1,
    ScenarioRuns.step ScenarioRuns.run0 Scenario.obs1 = Some run1
    /\ ScenarioRuns.step run1 Scenario.obs1
       = Some (mkRun unit (processed unit run1 + 1) (changed unit run1) (store unit run1)).
Proof.
  destruct (ScenarioRuns.step ScenarioRuns.run0 Scenario.obs1) as [run1|] eqn:Hstep;
    [|vm_compute in Hstep; discriminate Hstep].
  exists run1. split; [reflexivity|].
  apply (index_file_idempotent Scenario.parse Scenario.uuid5 Scenario.sha256_text unit
           Scenario.embed_passages Scenario.cfg "W" "working_tree" "t1"
           ScenarioRuns.run0 run1 Scenario.obs1 1%float 36);
    [reflexivity|reflexivity|exact Hstep].
Defined.

Lemma index_repo_summary_witness :
  exists st total n,
    Scenario.run "t1" [Scenario.obs1] Scenario.empty_store = Some (st, total, n)
    /\ total = 1 /\ 0 <= n <= total.
Proof.
  destruct (Scenario.run "t1" [Scenario.obs1] Scenario.empty_store)
    as [[[st total] n]|] eqn:Hrun; [|vm_compute in Hrun; discriminate Hrun].
  exists st, total, n. split; [reflexivity|].
  apply (index_repo_summary Scenario.parse Scenario.uuid5 Scenario.sha256_text unit
           Scenario.embed_passages Scenario.cfg "W" "working_tree" "t1" "/repo"
           [Scenario.obs1] Scenario.empty_store st total n Hrun).
Defined.


Lemma reindex_keeps_other_rows_witness :
  filter (fun r => file_key "W" "working_tree" "a.py" (cf_workspace_id r) (cf_git_ref r)
                     (cf_file_path r) = false)
    (chunk_fts (tables (ScenarioRuns.reindex_a ScenarioRuns.store_b)))
  = filter (fun r => file_key "W" "working_tree" "a.py" (cf_workspace_id r) (cf_git_ref r)
                       (cf_file_path r) = false)
      (chunk_fts (tables ScenarioRuns.store_b)).
Proof.
  destruct (reindex_keeps_other_rows Scenario.parse Scenario.uuid5 Scenario.sha256_text
              unit Scenario.embed_passages "W" "working_tree" "t1" Scenario.obs2 2%float 18
              [] [] ScenarioRuns.store_b ltac:(constructor)) as (_ & H & _).
  exact H.
Defined.

Lemma index_file_stores_chunker_output_witness :
  exists run' chunks symbols_,
    ScenarioRuns.step ScenarioRuns.run0 Scenario.obs1 = Some run'
    /\ chunker_output Scenario.parse Scenario.cfg Scenario.obs1 = Some (chunks, symbols_)
    /\ filter (fun r => file_key "W" "working_tree" "a.py" (cf_workspace_id r)
                          (cf_git_ref r) (cf_file_path r) = true)
         (chunk_fts (tables (store unit run')))
       = map (fun c => mkChunkRow "W" "working_tree" (file_path c) (start_line c)
                         (end_line c) (language c) (chunk_type c) (symbol_name c) (text c))
           chunks.
Proof.
  destruct (ScenarioRuns.step ScenarioRuns.run0 Scenario.obs1) as [run'|] eqn:Hstep;
    [|vm_compute in Hstep; discriminate Hstep].
  destruct (index_file_stores_chunker_output Scenario.parse Scenario.uuid5
              Scenario.sha256_text unit Scenario.embed_passages Scenario.cfg
              "W" "working_tree" "t1" ScenarioRuns.run0 run' Scenario.obs1 1%float 36
              eq_refl eq_refl Hstep) as (chunks & symbols_ & Hout & _ & Hrows).
  exists run', chunks, symbols_. split; [reflexivity|]. split; [exact Hout|exact Hrows].
Defined.

Lemma index_repo_never_changes_symbol_find_witness :
  exists st,
    Scenario.run "t1" [Scenario.obs1] Scenario.empty_store = Some (st, 1, 1)
    /\ symbol_find (tables st) "W" "f" (Some "python") None 50
       = symbol_find (tables Scenario.empty_store) "W" "f" (Some "python") None 50.
Proof.
  destruct (Scenario.run "t1" [Scenario.obs1] Scenario.empty_store)
    as [[[st total] n]|] eqn:Hrun; [|vm_compute in Hrun; discriminate Hrun].
  assert (Htn : total = 1 /\ n = 1).
  { vm_compute in Hrun. injection Hrun as _ <- <-. split; reflexivity. }
  destruct Htn as [-> ->].
  exists st. split; [reflexivity|].
  apply (index_repo_never_changes_symbol_find Scenario.parse Scenario.uuid5
           Scenario.sha256_text unit Scenario.embed_passages Scenario.cfg
           "W" "working_tree" "t1" "/repo" [Scenario.obs1] Scenario.empty_store st 1 1).
  exact Hrun.
Defined.

Lemma reindex_leaves_no_stale_points_witness :
  let c := mkChunk "a.py" "python" "module" None 1 1 "x = 1" in
  let p := point_of Scenario.uuid5 Scenario.sha256_text unit "W" "working_tree" "t1" c tt in
  p ∈ points (reindex_file Scenario.parse Scenario.uuid5 Scenario.sha256_text unit
                Scenario.embed_passages "W" "working_tree" "t1" Scenario.obs2 2%float 18
                [c] [] ScenarioRuns.store_b)
  /\ p ∈ map (fun cv => point_of Scenario.uuid5 Scenario.sha256_text unit
                          "W" "working_tree" "t1" cv.1 cv.2) [(c, tt)].
Proof.
  intros c p.
  assert (Hin : p ∈ points (reindex_file Scenario.parse Scenario.uuid5 Scenario.sha256_text
                              unit Scenario.embed_passages "W" "working_tree" "t1"
                              Scenario.obs2 2%float 18 [c] [] ScenarioRuns.store_b)).
  { vm_compute. left. }
  split; [exact Hin|].
  apply (reindex_leaves_no_stale_points Scenario.parse Scenario.uuid5
           Scenario.sha256_text unit Scenario.embed_passages "W" "working_tree" "t1"
           Scenario.obs2 2%float 18 [c] [] ScenarioRuns.store_b p Hin).
  reflexivity.
Defined.

(** ** The analyzer as a traversal with the scope passed down *)

Definition results : Type := list PyDef * list PyRef * list PyCall.

Definition results_concat (l : list results) : results :=
  (flat_map (fun r => r.1.1) l, flat_map (fun r => r.1.2) l, flat_map (fun r => r.2) l).

Definition results_app (a b : results) : results :=
  (a.1.1 ++ b.1.1, a.1.2 ++ b.1.2, a.2 ++ b.2).

(** What the analyzer records under [nd] when [scope] is the path of the
    enclosing classes and functions and [callable] the qualified name of
    the innermost enclosing function, if any. No stack is involved. *)
Fixpoint walk (lines : list string) (scope : list string) (callable : option string)
    (nd : node) : results :=
  match nd with
  | ClassDef name ln eln ch =>
      results_app
        ([mkPyDef name (join "." (scope ++ [name])) KClass ln (default ln eln)], [], [])
        (results_concat (map (walk lines (scope ++ [name]) callable) ch))
  | FunctionDef name ln eln ch
  | AsyncFunctionDef name ln eln ch =>
      let qn := join "." (scope ++ [name]) in
      results_app
        ([mkPyDef name qn (match scope with [] => KFunction | _ => KMethod end)
            (default 1 ln) (default (default 1 ln) eln)], [], [])
        (results_concat (map (walk lines (scope ++ [name]) (Some qn)) ch))
  | Name id ctx ln col =>
      match ctx with
      | Load =>
          let line := default 1 ln in
          let c := default 0 col in
          let lt := _get_line lines line in
          ([], [mkPyRef id line c
                  (string_of_list_ascii
                     (py_slice (list_ascii_of_string lt) (Z.max 0 (c - 40))
                        (Z.min (slen lt) (c + slen id + 40))))], [])
      | _ => ([], [], [])
      end
  | Attribute v _ => walk lines scope callable v
  | Call f args ln =>
      results_app
        ([], [], match callable with
                 | Some caller => [mkPyCall caller (_callee_str f) (default 1 ln)]
                 | None => []
                 end)
        (results_app (walk lines scope callable f)
           (results_concat (map (walk lines scope callable) args)))
  | Other ch => results_concat (map (walk lines scope callable) ch)
  end.

(** The analyzer after [r] has been recorded. *)
Definition record (an : Analyzer) (r : results) : Analyzer :=
  mkAnalyzer (defs an ++ r.1.1) (refs an ++ r.1.2) (calls an ++ r.2)
    (_scope an) (_current_callable an).

Definition visit_is_walk (lines : list string) (nd : node) : Prop :=
  forall an,
    visit lines nd an
    = record an (walk lines (_scope an) (last (_current_callable an)) nd).

Lemma record_nil an : record an ([], [], []) = an.
Proof. destruct an. unfold record. simpl. by rewrite !app_nil_r. Qed.

Lemma record_app an a b : record (record an a) b = record an (results_app a b).
Proof. unfold record, results_app. simpl. by rewrite !app_assoc. Qed.

Lemma results_concat_cons r l :
  results_concat (r :: l) = results_app r (results_concat l).
Proof. reflexivity. Qed.

Lemma generic_visit_is_walk lines ch :
  Forall (visit_is_walk lines) ch ->
  forall an,
    fold_left (fun a child => visit lines child a) ch an
    = record an (results_concat
                   (map (walk lines (_scope an) (last (_current_callable an))) ch)).
Proof.
  induction 1 as [|x ch Hx _ IH]; intros an.
  - simpl. by rewrite record_nil.
  - simpl fold_left. rewrite Hx, IH. simpl map.
    rewrite results_concat_cons, record_app. reflexivity.
Qed.

Lemma qualname_is_path an name : _qualname an name = join "." (_scope an ++ [name]).
Proof. unfold _qualname. by destruct (_scope an). Qed.

Lemma function_is_walk lines name ln eln ch :
  Forall (visit_is_walk lines) ch ->
  forall an,
    pop_scope (pop_callable
      (fold_left (fun a child => visit lines child a) ch (enter_function an name ln eln)))
    = record an
        (results_app
           ([mkPyDef name (join "." (_scope an ++ [name]))
               (match _scope an with [] => KFunction | _ => KMethod end)
               (default 1 ln) (default (default 1 ln) eln)], [], [])
           (results_concat
              (map (walk lines (_scope an ++ [name])
                      (Some (join "." (_scope an ++ [name])))) ch))).
Proof.
  intros Hch an. rewrite (generic_visit_is_walk lines ch Hch).
  unfold enter_function. rewrite qualname_is_path. simpl.
  rewrite last_snoc. unfold record, pop_scope, pop_callable. simpl.
  rewrite !removelast_last, ?app_nil_r, <- ?app_assoc. reflexivity.
Qed.

(** The visitor with its two mutable stacks records exactly what the
    stack-free traversal computes, and hands both stacks back as it found
    them. *)
Theorem visit_refines_walk lines nd : visit_is_walk lines nd.
Proof.
  induction nd as [name ln eln ch IH|name ln eln ch IH|name ln eln ch IH
                  |id ctx ln col|v attr IH|f args ln IHf IHargs|ch IH]
    using node_induction; intros an.
  - simpl visit. rewrite (generic_visit_is_walk lines ch IH).
    unfold enter_class. rewrite qualname_is_path. simpl.
    unfold record, pop_scope. simpl.
    rewrite removelast_last, ?app_nil_r, <- ?app_assoc. reflexivity.
  - apply (function_is_walk lines name ln eln ch IH an).
  - apply (function_is_walk lines name ln eln ch IH an).
  - simpl. unfold record_name.
    destruct ctx; simpl; rewrite ?record_nil; [|done..].
    unfold record, push_ref. simpl. by rewrite !app_nil_r.
  - apply IH.
  - simpl visit. rewrite (generic_visit_is_walk lines args IHargs), IHf.
    assert (Hrec : record_call an f ln
                   = record an ([], [], match last (_current_callable an) with
                                        | Some caller =>
                                            [mkPyCall caller (_callee_str f) (default 1 ln)]
                                        | None => []
                                        end)).
    { unfold record_call. destruct (last (_current_callable an)); [|by rewrite record_nil].
      unfold record, push_call. simpl. by rewrite !app_nil_r. }
    rewrite Hrec. simpl. rewrite !record_app. reflexivity.
  - simpl visit. apply (generic_visit_is_walk lines ch IH).
Qed.

Lemma analyze_parsed ast_parse text_ tree :
  ast_parse text_ = Some tree ->
  analyze_python_source ast_parse text_
  = results_concat (map (walk (splitlines text_) [] None) tree).
Proof.
  intros Hp. unfold analyze_python_source. rewrite Hp.
  rewrite (generic_visit_is_walk (splitlines text_) tree).
  - reflexivity.
  - apply Forall_forall. intros nd _. apply visit_refines_walk.
Qed.

(** X6: [analyze_python_source] on a text that parses returns the traversal of
    the module body from the empty scope. *)
Theorem analyze_is_walk ast_parse text_ tree :
  ast_parse text_ = Some tree ->
  analyze_python_source ast_parse text_
  = results_concat (map (walk (splitlines text_) [] None) tree).
Proof. apply analyze_parsed. Qed.

Lemma analyze_is_walk_witness :
  let tree := [ClassDef "C" 1 (Some 3)
                 [FunctionDef "m" (Some 2) (Some 3)
                    [Other []; Other [Call (Attribute (Name "self" Load (Some 3) (Some 8)) "n")
                                        [] (Some 3)]]]] in
  map (fun d => (d_qualname d, kind_str (d_kind d)))
    (analyze_python_source (fun _ => Some tree) "").1.1
  = [("C", "class"); ("C.m", "method")]
  /\ map (fun c => (caller_qualname c, callee c))
       (analyze_python_source (fun _ => Some tree) "").2
     = [("C.m", "self.n")].
Proof.
  intros tree.
  rewrite (analyze_is_walk (fun _ => Some tree) "" tree eq_refl).
  split; reflexivity.
Defined.

(** ** References *)

Lemma py_slice_length_le {A} (l : list A) lo hi :
  0 <= lo -> 0 <= hi -> Z.of_nat (length (py_slice l lo hi)) <= Z.max 0 (hi - lo).
Proof.
  intros Hlo Hhi. unfold py_slice, slice_bound.
  destruct (Z.ltb_spec lo 0); [lia|]. destruct (Z.ltb_spec hi 0); [lia|].
  rewrite length_take, length_drop. lia.
Qed.

Lemma string_of_list_length l : String.length (string_of_list_ascii l) = length l.
Proof. induction l as [|c l IH]; simpl; [done|]. by rewrite IH. Qed.

(** The context of a reference at a non-negative column spans at most 40
    characters on either side of the name. *)
Definition context_bounded (r : PyRef) : Prop :=
  0 <= r_col r -> slen (r_context r) <= slen (r_name r) + 80.

Lemma walk_refs_bounded lines nd : forall scope callable,
  Forall context_bounded (walk lines scope callable nd).1.2.
Proof.
  assert (Hlist : forall ch scope callable,
            Forall (fun nd => forall scope callable,
                      Forall context_bounded (walk lines scope callable nd).1.2) ch ->
            Forall context_bounded
              (results_concat (map (walk lines scope callable) ch)).1.2).
  { intros ch scope callable Hch. simpl.
    induction Hch as [|x ch Hx _ IH]; simpl; [constructor|].
    apply Forall_app. split; [apply Hx|exact IH]. }
  induction nd as [name ln eln ch IH|name ln eln ch IH|name ln eln ch IH
                  |id ctx ln col|v attr IH|f args ln IHf IHargs|ch IH]
    using node_induction; intros scope callable.
  - simpl. by apply Hlist.
  - simpl. by apply Hlist.
  - simpl. by apply Hlist.
  - simpl. destruct ctx; simpl; constructor; [|constructor].
    unfold context_bounded. simpl. intros Hcol.
    pose proof (slen_nonneg id). pose proof (slen_nonneg (_get_line lines (default 1 ln))).
    unfold slen at 1. rewrite string_of_list_length.
    etransitivity; [apply py_slice_length_le; lia|]. lia.
  - apply IH.
  - simpl. apply Forall_app. split; [apply IHf|]. by apply (Hlist args scope callable).
  - by apply Hlist.
Qed.

(** X7: Every reference [analyze_python_source] returns for a name at a
    non-negative column carries a context of at most the name's length
    plus 80 characters. *)
Theorem analyze_refs_bounded ast_parse text_ :
  Forall context_bounded (analyze_python_source ast_parse text_).1.2.
Proof.
  destruct (ast_parse text_) as [tree|] eqn:Hp.
  - rewrite (analyze_parsed ast_parse text_ tree Hp). simpl. clear Hp.
    induction tree as [|nd tree IH]; simpl; [constructor|].
    apply Forall_app. split; [apply walk_refs_bounded|exact IH].
  - unfold analyze_python_source. rewrite Hp. constructor.
Qed.

(** ** The repository root and the tools built on it *)

Lemma first_allowed_spec rr allowed_roots :
  first_allowed rr allowed_roots = true
  <-> exists base, base ∈ allowed_roots /\ is_relative_to rr base = true.
Proof.
  induction allowed_roots as [|b rest IH]; simpl.
  - split; [done|]. intros (base & Hin & _). by apply elem_of_nil in Hin.
  - destruct (is_relative_to rr b) eqn:E.
    + split; [|done]. intros _. exists b. split; [left|done].
    + rewrite IH. split.
      * intros (base & Hin & Hb). exists base. split; [by right|done].
      * intros (base & Hin & Hb). apply elem_of_cons in Hin as [->|Hin]; [congruence|].
        by exists base.
Qed.

Lemma is_relative_to_trans p q r :
  is_relative_to p q = true -> is_relative_to q r = true -> is_relative_to p r = true.
Proof.
  unfold is_relative_to. intros Hpq Hqr.
  apply andb_true_iff in Hpq as [Ha1 Hp1]. apply andb_true_iff in Hqr as [Ha2 Hp2].
  apply Bool.eqb_prop in Ha1, Ha2. apply bool_decide_eq_true in Hp1, Hp2.
  apply andb_true_iff. split; [rewrite Ha1, Ha2; apply Bool.eqb_reflx|].
  apply bool_decide_eq_true.
  assert (Hlen : (length (parts r) <= length (parts q))%nat).
  { rewrite <- Hp2 at 1. rewrite length_take. lia. }
  etransitivity; [|exact Hp2]. rewrite <- Hp1.
  rewrite take_take. f_equal. lia.
Qed.

(** A path lies under one of the allowed roots. *)
Definition under_allowed_root (allowed_roots : list Path) (p : Path) : Prop :=
  exists base, base ∈ allowed_roots /\ is_relative_to p base = true.

Section Tools.

Variable resolve : Path -> Path.
Variable expanduser : Path -> Path.
Variable exists_ : Path -> bool.
Variable is_dir : Path -> bool.
Variable read_text : Path -> option string.

Lemma repo_root_accepted repo_root allowed_roots rr :
  normalize_repo_root resolve expanduser exists_ is_dir repo_root allowed_roots = Ok rr
  <-> rr = resolve (expanduser (path_of_string repo_root))
      /\ exists_ rr = true /\ is_dir rr = true
      /\ under_allowed_root allowed_roots rr.
Proof.
  unfold normalize_repo_root, under_allowed_root.
  set (r := resolve (expanduser (path_of_string repo_root))).
  rewrite <- first_allowed_spec. split.
  - destruct (exists_ r) eqn:He; [|done]. destruct (is_dir r) eqn:Hd; [|done]. simpl.
    destruct (first_allowed r allowed_roots) eqn:Hf; [|done].
    intros [= <-]. by rewrite He, Hd, Hf.
  - intros (-> & He & Hd & Hf). by rewrite He, Hd, Hf.
Qed.


Lemma fetch_reads_in_root rr file_path start_line end_line :
  Forall (fun p => is_relative_to p rr = true)
    (codebase_fetch resolve read_text rr file_path start_line end_line).2.
Proof.
  unfold codebase_fetch, normalize_rel_file.
  destruct (is_absolute (path_of_string file_path)); [constructor|].
  destruct (is_relative_to _ rr) eqn:Hin; [|constructor].
  destruct (read_text _); simpl; repeat constructor; exact Hin.
Qed.

(** X20: Whatever its arguments, the fetch tool reads the contents only of
    paths that lie under one of the allowed roots. *)
Theorem fetch_tool_reads_under_allowed_root
    allowed_roots repo_root file_path start_line end_line :
  Forall (under_allowed_root allowed_roots)
    (codebase_fetch_tool resolve expanduser exists_ is_dir read_text
       allowed_roots repo_root file_path start_line end_line).2.
Proof.
  unfold codebase_fetch_tool.
  destruct (normalize_repo_root _ _ _ _ repo_root allowed_roots) as [rr| |] eqn:Hrr;
    [|constructor..].
  apply repo_root_accepted in Hrr as (_ & _ & _ & base & Hin & Hbase).
  eapply Forall_impl; [apply fetch_reads_in_root|].
  intros p Hp. exists base. split; [done|].
  eapply is_relative_to_trans; [exact Hp|exact Hbase].
Qed.

(** X21: A successful fetch read exactly one file and returns a slice of its
    lines: the start line is at least 1, at most 601 lines are
    returned, and a start line past the end of the file gives the empty
    text. *)
Theorem fetch_is_bounded rr file_path start_line end_line sl el snippet reads :
  codebase_fetch resolve read_text rr file_path start_line end_line
  = (Ok (sl, el, snippet), reads) ->
  exists abs_path content,
    let lines := splitlines content in
    reads = [abs_path]
    /\ read_text abs_path = Some content
    /\ snippet = join nl (py_slice lines (sl - 1) el)
    /\ 1 <= sl
    /\ (length (py_slice lines (sl - 1) el) <= 601)%nat
    /\ (Z.of_nat (length lines) < start_line -> snippet = "").
Proof.
  unfold codebase_fetch. destruct (normalize_rel_file resolve rr file_path) as [p| |]; [|done..].
  destruct (read_text p) as [content|] eqn:Hread; [|done].
  intros [= <- <- <- <-]. exists p, content. cbv zeta.
  set (lines := splitlines content). set (n := Z.of_nat (length lines)).
  split; [done|]. split; [done|]. split; [done|]. split; [lia|].
  assert (Hn : 0 <= n) by (unfold n; lia).
  split.
  - pose proof (py_slice_length_le lines
      (Z.min (Z.max 1 start_line) (n + 1) - 1)
      (Z.min (Z.min (Z.max (Z.max 1 start_line) end_line) (Z.max 1 start_line + 600)) n)
      ltac:(lia) ltac:(lia)) as Hlen.
    lia.
  - intros Hpast.
    assert (Hnil : py_slice lines
      (Z.min (Z.max 1 start_line) (n + 1) - 1)
      (Z.min (Z.min (Z.max (Z.max 1 start_line) end_line) (Z.max 1 start_line + 600)) n)
      = []).
    { apply length_zero_iff_nil.
      pose proof (py_slice_length_le lines
        (Z.min (Z.max 1 start_line) (n + 1) - 1)
        (Z.min (Z.min (Z.max (Z.max 1 start_line) end_line) (Z.max 1 start_line + 600)) n)
        ltac:(lia) ltac:(lia)) as Hlen.
      lia. }
    by rewrite Hnil.
Qed.

End Tools.

Lemma lstrip_slash_no_slash s : String.prefix "/" (lstrip_slash s) = false.
Proof.
  induction s as [|c r IH]; simpl; [done|].
  destruct (Ascii.eqb c "/") eqn:E; [exact IH|].
  simpl. destruct c as [[] [] [] [] [] [] [] []]; simpl in *; try done.
Qed.

Lemma truthy_nonempty s : truthy s = true <-> s <> "".
Proof. by destruct s. Qed.

(** Every path that [index_refresh] passes on to [index_paths] is the
    trimmed form of a given path, is not empty, is not absolute and
    does not begin with two dots; the given order is kept. *)
Theorem refresh_paths_are_relative (rel_paths : list string) :
  clean_rel_paths rel_paths
  = filter (fun p => p <> "" /\ startswith p ".." = false)
      (map (fun p => lstrip_slash (strip p)) rel_paths)
  /\ Forall (fun p => is_absolute (path_of_string p) = false) (clean_rel_paths rel_paths).
Proof.
  assert (Hfold : forall acc,
    fold_left
      (fun clean p =>
         let p := lstrip_slash (strip p) in
         if negb (truthy p) || startswith p ".." then clean else clean ++ [p])
      rel_paths acc
    = acc ++ filter (fun p => p <> "" /\ startswith p ".." = false)
               (map (fun p => lstrip_slash (strip p)) rel_paths)).
  { induction rel_paths as [|p rest IH]; intros acc; simpl; [by rewrite app_nil_r|].
    rewrite IH, filter_cons. set (q := lstrip_slash (strip p)).
    destruct (truthy q) eqn:Ht; simpl.
    - apply truthy_nonempty in Ht. destruct (startswith q "..") eqn:Hs.
      + case_decide as Hd; [|done]. by destruct Hd.
      + case_decide as Hd; [|by exfalso; apply Hd]. by rewrite <- app_assoc.
    - case_decide as Hd; [|done]. destruct Hd as [Hne _].
      apply truthy_nonempty in Hne. congruence. }
  assert (Heq : clean_rel_paths rel_paths
    = filter (fun p => p <> "" /\ startswith p ".." = false)
        (map (fun p => lstrip_slash (strip p)) rel_paths)).
  { unfold clean_rel_paths. by rewrite Hfold. }
  split; [exact Heq|]. rewrite Heq. apply Forall_forall. intros q Hq.
  apply list_elem_of_filter in Hq as [_ Hq].
  apply list_elem_of_fmap in Hq as (p & -> & _).
  apply lstrip_slash_no_slash.
Qed.

(** ** Incremental indexing of given paths *)

Section PathRuns.

Variable ast_parse : string -> option module.
Variables uuid5 sha256_text : string -> string.
Variable V : Type.
Variable embed_passages : list string -> list V.
Variable resolve : Path -> Path.
Variable file_at : Path -> option (option (float * Z) * string * string * string).
Variables (cfg : Config) (repo_root : Path) (wid git_ref now : string).

Local Abbreviation path_step run rel :=
  (index_path ast_parse uuid5 sha256_text V embed_passages resolve file_at
     cfg repo_root wid git_ref now run rel).
Local Abbreviation file_step run f :=
  (index_file ast_parse uuid5 sha256_text V embed_passages cfg wid git_ref now run f).

(** A path the loop goes on with: it resolves to a place under the
    root where a regular file exists. *)
Definition indexable (rel : string) : bool :=
  let f := resolve (path_join repo_root (path_of_string rel)) in
  is_relative_to f repo_root
  && match file_at f with Some _ => true | None => false end.

(** Two runs that differ at most in the number of paths processed. *)
Definition same_state (a b : option (Run V)) : Prop :=
  match a, b with
  | Some x, Some y => changed V x = changed V y /\ store V x = store V y
  | None, None => True
  | _, _ => False
  end.

Lemma same_state_refl a : same_state a a.
Proof. by destruct a. Qed.

Lemma file_step_same x y f :
  changed V x = changed V y -> store V x = store V y ->
  same_state (file_step x f) (file_step y f).
Proof.
  intros Hc Hs. unfold index_file. rewrite Hc, Hs.
  destruct (f_stat f) as [[m s]|]; [|done].
  destruct (unchanged _ _ _ _); [done|].
  destruct (if seqb (f_lang f) "python" then _ else _) as [[chunks symbols_]|]; done.
Qed.

Lemma path_step_same a b rel :
  same_state a b ->
  same_state (a ≫= fun run => path_step run rel) (b ≫= fun run => path_step run rel).
Proof.
  destruct a as [x|], b as [y|]; simpl; try done. intros [Hc Hs].
  unfold index_path. destruct (is_relative_to _ repo_root); [|done].
  destruct (file_at _) as [[[[st lang] h] t]|]; [|done].
  by apply file_step_same.
Qed.

Lemma path_step_skip a b rel :
  indexable rel = false ->
  same_state a b ->
  same_state (a ≫= fun run => path_step run rel) b.
Proof.
  unfold indexable. destruct a as [x|], b as [y|]; simpl; try done. intros Hskip [Hc Hs].
  unfold index_path. destruct (is_relative_to _ repo_root); [|done].
  destruct (file_at _); [done|]. done.
Qed.

Lemma path_fold_filter rel_paths : forall a b,
  same_state a b ->
  same_state
    (fold_left (fun acc rel => acc ≫= fun run => path_step run rel) rel_paths a)
    (fold_left (fun acc rel => acc ≫= fun run => path_step run rel)
       (filter (fun rel => indexable rel = true) rel_paths) b).
Proof.
  induction rel_paths as [|rel rest IH]; intros a b Hab; [done|].
  rewrite filter_cons. case_decide as Hd; simpl.
  - apply IH. by apply path_step_same.
  - apply IH. apply path_step_skip; [|done]. by destruct (indexable rel).
Qed.

(** X17: Paths that resolve outside the repository root, or to no regular
    file, are only counted: [index_paths] leaves the same store and the
    same changed count as on the list without them. *)
Theorem index_paths_ignores_unindexable (rel_paths : list string) (st0 : Store V) :
  let run paths :=
    index_paths ast_parse uuid5 sha256_text V embed_passages resolve file_at
      cfg repo_root wid git_ref now paths st0 in
  let view := option_map (fun r : Store V * Z * Z => (r.1.1, r.2)) in
  view (run rel_paths) = view (run (filter (fun rel => indexable rel = true) rel_paths)).
Proof.
  cbv zeta. unfold index_paths.
  match goal with
  | |- context [fold_left ?f rel_paths ?a] =>
      pose proof (path_fold_filter rel_paths a a (same_state_refl a)) as H;
      destruct (fold_left f rel_paths a) as [x|];
      destruct (fold_left f (filter (fun rel => indexable rel = true) rel_paths) a) as [y|]
  end; simpl in *; try done.
  destruct H as [-> ->]. done.
Qed.




End PathRuns.

(** ** Reranking *)

Section RerankFacts.

Context {F : Type} `{FloatOps F}.

Lemma py_slice_from_zero {A} (l : list A) (k : Z) :
  0 <= k -> py_slice l 0 k = take (Z.to_nat k) l.
Proof.
  intros Hk. unfold py_slice, slice_bound.
  destruct (Z.ltb_spec 0 0); [lia|].
  destruct (Z.ltb_spec k 0); [lia|].
  replace (Z.to_nat (Z.min 0 (Z.of_nat (length l)))) with 0%nat by lia.
  rewrite drop_0.
  destruct (Z.min_spec k (Z.of_nat (length l))) as [[Hlt ->]|[Hge ->]].
  - f_equal. lia.
  - rewrite !take_ge by lia. done.
Qed.

Lemma py_slice_to_end {A} (l : list A) (k : nat) :
  (k <= length l)%nat -> py_slice l (Z.of_nat k) (Z.of_nat (length l)) = drop k l.
Proof.
  intros Hk. unfold py_slice, slice_bound.
  destruct (Z.ltb_spec (Z.of_nat k) 0); [lia|].
  destruct (Z.ltb_spec (Z.of_nat (length l)) 0); [lia|].
  replace (Z.to_nat (Z.min (Z.of_nat k) (Z.of_nat (length l)))) with k by lia.
  apply take_ge. rewrite length_drop. lia.
Qed.

(** X23: With a model that scores every pair it is given, [rerank] returns
    one score per passage, in the order of the passages; the passages
    from position [max_pairs] on are not shown to the model and score
    zero. *)
Theorem rerank_one_score_per_passage
    (predict : list (string * string) -> list F) (max_pairs : Z)
    (query : string) (passages : list string) :
  (forall pairs, length (predict pairs) = length pairs) ->
  0 <= max_pairs ->
  let scores := rerank (Some predict) max_pairs query passages in
  length scores = length passages
  /\ take (Z.to_nat max_pairs) scores
     = predict (map (fun p => (query, p)) (take (Z.to_nat max_pairs) passages))
  /\ drop (Z.to_nat max_pairs) scores
     = map (fun _ => fzero) (drop (Z.to_nat max_pairs) passages).
Proof.
  intros Hpredict Hmax. cbv zeta. unfold rerank.
  rewrite py_slice_from_zero by done.
  set (k := Z.to_nat max_pairs).
  set (pairs := map (fun p => (query, p)) (take k passages)).
  assert (Hlen : length pairs = Nat.min k (length passages)).
  { unfold pairs. by rewrite length_map, length_take. }
  rewrite py_slice_to_end by lia. rewrite Hlen.
  destruct (Nat.le_ge_cases k (length passages)) as [Hle|Hge].
  - rewrite Nat.min_l by done.
    assert (Hk : length (predict pairs) = k) by (rewrite Hpredict, Hlen; lia).
    split; [|split].
    + rewrite length_app, length_map, length_drop, Hk. lia.
    + rewrite take_app_length' by done. done.
    + rewrite drop_app_length' by done. done.
  - rewrite Nat.min_r by done.
    assert (Hk : length (predict pairs) = length passages) by (rewrite Hpredict, Hlen; lia).
    rewrite drop_all. simpl. rewrite app_nil_r.
    split; [done|]. split.
    + rewrite take_ge by lia. done.
    + rewrite !drop_ge by lia. done.
Qed.

(** Without a model every passage scores zero. *)
Lemma rerank_without_model (max_pairs : Z) (query : string) (passages : list string) :
  rerank (F := F) None max_pairs query passages = map (fun _ => fzero) passages.
Proof. reflexivity. Qed.

End RerankFacts.

(** ** The callee of an attribute call *)

(** A string without a dot, as every Python identifier is. *)
Fixpoint dotless (s : string) : bool :=
  match s with
  | EmptyString => true
  | String c r => negb (Ascii.eqb c ".") && dotless r
  end.

Lemma last_segment_dotless cur s :
  dotless s = true -> last_segment_from "." cur s = cur.
Proof.
  revert cur. induction s as [|c r IH]; intros cur Hs; simpl in *; [done|].
  apply andb_true_iff in Hs as [Hc Hr]. apply negb_true_iff in Hc. rewrite Hc.
  by apply IH.
Qed.

Lemma last_segment_after_dot x a cur :
  dotless a = true ->
  last_segment_from "." cur (x +:+ String "." a) = a.
Proof.
  intros Ha. revert cur. induction x as [|c r IH]; intros cur; simpl.
  - by apply last_segment_dotless.
  - destruct (Ascii.eqb c "."); apply IH.
Qed.

Lemma string_append_assoc (a b c : string) : (a +:+ b) +:+ c = a +:+ (b +:+ c).
Proof.
  induction a as [|x a IH]; [done|].
  change (String x ((a +:+ b) +:+ c) = String x (a +:+ (b +:+ c))). by rewrite IH.
Qed.

Lemma join_snoc sep l a :
  l <> [] -> join sep (l ++ [a]) = join sep l +:+ sep +:+ a.
Proof.
  induction l as [|x r IH]; intros Hl; [done|].
  destruct r as [|y r'].
  - reflexivity.
  - change (join sep ((x :: y :: r') ++ [a]))
      with (x +:+ sep +:+ join sep ((y :: r') ++ [a])).
    rewrite IH by done.
    change (join sep (x :: y :: r')) with (x +:+ sep +:+ join sep (y :: r')).
    by rewrite !string_append_assoc.
Qed.

(** X8: The receiver of an attribute call plays no part in resolving it:
    [obj.method()] is resolved exactly as a call of the bare name
    [method] would be. *)
Theorem attribute_call_resolves_by_method_name
    (name_to_ids_local name_to_ids_global : gmap string (list string))
    (value : node) (attr : string) :
  dotless attr = true ->
  resolve_callee name_to_ids_local name_to_ids_global (_callee_str (Attribute value attr))
  = resolve_callee name_to_ids_local name_to_ids_global attr.
Proof.
  intros Hattr.
  assert (Hseg : last_segment "." (_callee_str (Attribute value attr)) = attr).
  { unfold last_segment, _callee_str. cbn [attr_parts rev].
    destruct (rev (attr_parts value)) as [|y l] eqn:E.
    - by apply last_segment_dotless.
    - rewrite join_snoc by done.
      change ("." +:+ attr) with (String "." attr).
      by apply last_segment_after_dot. }
  unfold resolve_callee. rewrite Hseg.
  unfold last_segment. by rewrite last_segment_dotless.
Qed.

(** ** The clamp of the scores *)

Lemma b64_ltb_leb x y : PrimFloat.ltb x y = true -> PrimFloat.leb x y = true.
Proof.
  rewrite FloatAxioms.ltb_spec, FloatAxioms.leb_spec. unfold SFltb, SFleb.
  by destruct (SFcompare _ _) as [[]|].
Qed.

Lemma b64_leb_not_ltb_eq x y :
  PrimFloat.leb x y = true -> PrimFloat.ltb x y = false ->
  SFcompare (Prim2SF x) (Prim2SF y) = Some Eq.
Proof.
  rewrite FloatAxioms.ltb_spec, FloatAxioms.leb_spec. unfold SFltb, SFleb.
  by destruct (SFcompare _ _) as [[]|].
Qed.

Lemma SFcompare_eq_sym a b : SFcompare a b = Some Eq -> SFcompare b a = Some Eq.
Proof.
  destruct a as [sa|sa| |sa ma ea], b as [sb|sb| |sb mb eb]; simpl; try done;
    try (by destruct sa); try (by destruct sb); try (by destruct sa, sb).
  destruct sa, sb; try done.
  - destruct (Z.compare ea eb) eqn:He; try done.
    apply Z.compare_eq in He as ->. rewrite Z.compare_refl.
    intros Hm. injection Hm as Hm.
    destruct (Pos.compare_cont Eq ma mb) eqn:Hc; try done.
    apply Pos.compare_eq in Hc as ->. by rewrite Pos.compare_cont_refl.
  - destruct (Z.compare ea eb) eqn:He; try done.
    apply Z.compare_eq in He as ->. rewrite Z.compare_refl.
    intros Hm. injection Hm as Hm.
    apply Pos.compare_eq in Hm as ->. by rewrite Pos.compare_cont_refl.
Qed.

Lemma b64_leb_self x y : PrimFloat.leb x y = true -> PrimFloat.eqb x x = true.
Proof.
  rewrite FloatAxioms.leb_spec, FloatAxioms.eqb_spec. unfold SFleb, SFeqb.
  destruct (Prim2SF x) as [s|s| |s m e], (Prim2SF y); simpl; try done;
    try (by destruct s).
  all: destruct s; rewrite ?Z.compare_refl, ?Pos.compare_cont_refl; done.
Qed.

(** X24: [clamp01] always yields a score between 0 and 1: a NaN becomes 0,
    and a score already between 0 and 1 is returned as it is (up to the
    sign of zero). *)
Theorem clamp01_in_unit_interval (x : float) :
  in_unit_interval (clamp01 x)
  /\ (PrimFloat.eqb x x = false -> clamp01 x = 0%float)
  /\ (in_unit_interval x -> PrimFloat.eqb (clamp01 x) x = true).
Proof.
  unfold in_unit_interval, clamp01, py_max, py_min. simpl.
  assert (H00 : PrimFloat.leb 0 0 = true) by reflexivity.
  assert (H01 : PrimFloat.leb 0 1 = true) by reflexivity.
  assert (H11 : PrimFloat.leb 1 1 = true) by reflexivity.
  assert (L01 : PrimFloat.ltb 0 1 = true) by reflexivity.
  split; [|split].
  - destruct (PrimFloat.eqb x x); simpl; [|done].
    destruct (PrimFloat.ltb x 1) eqn:E1.
    + destruct (PrimFloat.ltb 0 x) eqn:E0; [|done].
      split; by apply b64_ltb_leb.
    + by rewrite L01.
  - by intros ->.
  - intros [H0 H1]. rewrite (b64_leb_self x 1 H1). simpl.
    destruct (PrimFloat.ltb x 1) eqn:E1.
    + destruct (PrimFloat.ltb 0 x) eqn:E0; [by apply (b64_leb_self x 1)|].
      rewrite FloatAxioms.eqb_spec. unfold SFeqb. by rewrite (b64_leb_not_ltb_eq 0 x H0 E0).
    + rewrite L01. rewrite FloatAxioms.eqb_spec. unfold SFeqb.
      by rewrite (SFcompare_eq_sym _ _ (b64_leb_not_ltb_eq x 1 H1 E1)).
Qed.

(** ** The merge of semantic and lexical hits *)

Section MergeFacts.

Context {F : Type} `{FloatOps F}.

Implicit Types (m : list (Key * Candidate F)) (k : Key) (c v : Candidate F) (h : Hit F).

Lemma dict_set_fst k v m :
  map fst (dict_set k v m)
  = if decide (k ∈ map fst m) then map fst m else map fst m ++ [k].
Proof.
  induction m as [|[k' v'] rest IH]; simpl.
  - destruct (decide (k ∈ [])) as [Hin|_]; [by apply elem_of_nil in Hin|done].
  - destruct (decide (k' = k)) as [->|Hne]; simpl.
    + destruct (decide (k ∈ k :: map fst rest)) as [_|Hn]; [done|].
      exfalso. apply Hn. left.
    + rewrite IH. destruct (decide (k ∈ map fst rest)) as [Hin|Hn].
      * destruct (decide (k ∈ k' :: map fst rest)) as [_|Hn']; [done|].
        exfalso. apply Hn'. by right.
      * destruct (decide (k ∈ k' :: map fst rest)) as [Hin'|_]; [|done].
        apply elem_of_cons in Hin' as [->|Hin']; done.
Qed.

Lemma dict_set_elem k v m x :
  NoDup (map fst m) ->
  x ∈ dict_set k v m -> x = (k, v) \/ (x ∈ m /\ x.1 <> k).
Proof.
  induction m as [|[k' v'] rest IH]; simpl; intros Hnd.
  - intros Hx. apply list_elem_of_singleton in Hx. by left.
  - apply NoDup_cons in Hnd as [Hk' Hnd].
    destruct (decide (k' = k)) as [->|Hne]; intros Hx.
    + apply elem_of_cons in Hx as [->|Hx]; [by left|].
      right. split; [by right|]. intros Hk. apply Hk'. rewrite <- Hk.
      apply list_elem_of_fmap. by exists x.
    + apply elem_of_cons in Hx as [->|Hx].
      * right. split; [left|done].
      * apply IH in Hx as [->|[Hx Hk]]; [by left| |done]. right. split; [by right|done].
Qed.

Lemma dict_set_nodup k v m : NoDup (map fst m) -> NoDup (map fst (dict_set k v m)).
Proof.
  intros Hnd. rewrite dict_set_fst. destruct (decide (k ∈ map fst m)) as [Hin|Hn]; [done|].
  apply NoDup_app. split; [done|]. split; [|apply NoDup_singleton].
  intros x Hx Hx'. apply list_elem_of_singleton in Hx'. by subst.
Qed.

Lemma dict_set_keys k v m k' :
  k' ∈ map fst (dict_set k v m) <-> k' = k \/ k' ∈ map fst m.
Proof.
  rewrite dict_set_fst. destruct (decide (k ∈ map fst m)) as [Hin|Hn].
  - split; [by right|]. intros [->|Hk]; done.
  - rewrite elem_of_app, list_elem_of_singleton. tauto.
Qed.

Lemma dict_get_none k m : dict_get k m = None -> k ∉ map fst m.
Proof.
  induction m as [|[k' v'] rest IH]; simpl; [intros _; apply not_elem_of_nil|].
  destruct (decide (k' = k)) as [->|Hne]; [done|]. intros Hg Hin.
  apply elem_of_cons in Hin as [->|Hin]; [done|]. by apply IH.
Qed.

Lemma dict_get_some k m c : dict_get k m = Some c -> (k, c) ∈ m.
Proof.
  induction m as [|[k' v'] rest IH]; simpl; [done|].
  destruct (decide (k' = k)) as [->|Hne].
  - intros [= ->]. left.
  - intros Hg. right. by apply IH.
Qed.

(** What the merge keeps true of an entry, given the semantic and the
    lexical hits seen so far. *)
Definition sem_ok (sem : list (Hit F)) (kv : Key * Candidate F) : Prop :=
  (kv.1 ∉ map key sem -> _sem kv.2 = fzero)
  /\ (kv.1 ∈ map key sem ->
      exists h, h ∈ sem /\ key h = kv.1 /\ _sem kv.2 = clamp01 (hit_score h)).

Definition lex_ok (lex : list (Hit F)) (kv : Key * Candidate F) : Prop :=
  (kv.1 ∉ map key lex -> _lex kv.2 = fzero)
  /\ (_lex kv.2 = fzero
      \/ exists h, h ∈ lex /\ key h = kv.1 /\ _lex kv.2 = clamp01 (hit_score h)).

Definition merge_inv (sem lex : list (Hit F)) m : Prop :=
  NoDup (map fst m)
  /\ (forall k, k ∈ map fst m <-> k ∈ map key sem \/ k ∈ map key lex)
  /\ Forall (fun kv => key (c_hit kv.2) = kv.1 /\ sem_ok sem kv /\ lex_ok lex kv) m.

Lemma sem_ok_snoc sem h kv : kv.1 <> key h -> sem_ok sem kv -> sem_ok (sem ++ [h]) kv.
Proof.
  intros Hne [H0 H1]. unfold sem_ok. rewrite map_app, elem_of_app. simpl.
  rewrite list_elem_of_singleton. split.
  - intros Hn. apply H0. tauto.
  - intros [Hin|Heq]; [|done]. destruct (H1 Hin) as (h' & Hh' & Hk & Hs).
    exists h'. split; [|done]. apply elem_of_app. by left.
Qed.

Lemma lex_ok_snoc lex h kv : kv.1 <> key h -> lex_ok lex kv -> lex_ok (lex ++ [h]) kv.
Proof.
  intros Hne [H0 H1]. unfold lex_ok. rewrite map_app, elem_of_app. simpl.
  rewrite list_elem_of_singleton. split.
  - intros Hn. apply H0. tauto.
  - destruct H1 as [Hz|(h' & Hh' & Hk & Hs)]; [by left|right].
    exists h'. split; [|done]. apply elem_of_app. by left.
Qed.

Lemma merge_semantic_step sem h m :
  merge_inv sem [] m ->
  merge_inv (sem ++ [h]) []
    (dict_set (key h) (mkCandidate h (clamp01 (hit_score h)) fzero) m).
Proof.
  intros (Hnd & Hkeys & Hall). split; [by apply dict_set_nodup|]. split.
  - intros k. rewrite dict_set_keys, Hkeys, map_app, elem_of_app. simpl.
    rewrite list_elem_of_singleton. pose proof (not_elem_of_nil k). tauto.
  - apply Forall_forall. intros kv Hkv.
    apply dict_set_elem in Hkv as [->|[Hkv Hne]]; [| |done].
    + simpl. split; [done|]. split.
      * split; simpl.
        -- intros Hn. exfalso. apply Hn. rewrite map_app, elem_of_app. right. left.
        -- intros _. exists h. split; [|done]. apply elem_of_app. right. left.
      * split; [done|by left].
    + rewrite Forall_forall in Hall. destruct (Hall kv Hkv) as (Hk & Hs & Hl).
      split; [done|]. split; [by apply sem_ok_snoc|done].
Qed.

Lemma merge_semantic_inv sem : forall seen m,
  merge_inv seen [] m -> merge_inv (seen ++ sem) [] (merge_semantic sem m).
Proof.
  induction sem as [|h sem IH]; intros seen m Hinv; simpl.
  - by rewrite app_nil_r.
  - replace (seen ++ h :: sem) with ((seen ++ [h]) ++ sem) by by rewrite <- app_assoc.
    apply IH. by apply merge_semantic_step.
Qed.

Lemma key_set_text t c : key (c_hit (set_text t c)) = key (c_hit c).
Proof. reflexivity. Qed.

Lemma merge_lexical_step sem lex h m :
  merge_inv sem lex m ->
  merge_inv sem (lex ++ [h])
    (match dict_get (key h) m with
     | None => dict_set (key h) (mkCandidate h fzero (clamp01 (hit_score h))) m
     | Some c =>
         let c := set_lex (py_max (_lex c) (clamp01 (hit_score h))) c in
         let c := if negb (truthy (hit_text (c_hit c))) && truthy (hit_text h)
                  then set_text (hit_text h) c else c in
         dict_set (key h) c m
     end).
Proof.
  intros (Hnd & Hkeys & Hall).
  assert (Hk : forall v k,
    k ∈ map fst (dict_set (key h) v m) <-> k ∈ map key sem \/ k ∈ map key (lex ++ [h])).
  { intros v k. rewrite dict_set_keys, Hkeys, map_app, elem_of_app. simpl.
    rewrite list_elem_of_singleton. tauto. }
  assert (Hold : forall kv, kv ∈ m -> kv.1 <> key h ->
    key (c_hit kv.2) = kv.1 /\ sem_ok sem kv /\ lex_ok (lex ++ [h]) kv).
  { intros kv Hkv Hne. rewrite Forall_forall in Hall.
    destruct (Hall kv Hkv) as (? & ? & ?). split; [done|]. split; [done|].
    by apply lex_ok_snoc. }
  assert (Hh : key h ∈ map key (lex ++ [h])).
  { rewrite map_app, elem_of_app. right. left. }
  destruct (dict_get (key h) m) as [c|] eqn:Hget.
  - apply dict_get_some in Hget. rewrite Forall_forall in Hall.
    destruct (Hall _ Hget) as (Hkc & [Hs0 Hs1] & [Hl0 Hl1]). simpl in *.
    cbv zeta. split; [by apply dict_set_nodup|]. split; [apply Hk|].
    apply Forall_forall. intros kv Hkv.
    apply dict_set_elem in Hkv as [->|[Hkv Hne]]; [|by apply Hold|done].
    cbn [fst snd]. split; [|split].
    + by destruct (negb _ && _).
    + split; [intros Hn|intros Hin]; destruct (negb _ && _); simpl; auto.
    + split; [done|].
      assert (Hlex : forall x, _lex x = py_max (_lex c) (clamp01 (hit_score h)) ->
        _lex x = fzero
        \/ exists h', h' ∈ lex ++ [h] /\ key h' = key h /\ _lex x = clamp01 (hit_score h')).
      { intros x ->. unfold py_max. destruct (flt _ _).
        - right. exists h. split; [|done]. apply elem_of_app. right. left.
        - destruct Hl1 as [Hz|(h' & Hh' & Hk' & Hs')]; [by left|right].
          exists h'. split; [|done]. apply elem_of_app. by left. }
      destruct (negb _ && _); apply Hlex; reflexivity.
  - apply dict_get_none in Hget.
    split; [by apply dict_set_nodup|]. split; [apply Hk|].
    apply Forall_forall. intros kv Hkv.
    apply dict_set_elem in Hkv as [->|[Hkv Hne]]; [|by apply Hold|done].
    cbn [fst snd]. split; [done|]. split.
    + split; [done|]. intros Hin. exfalso. apply Hget. apply Hkeys. by left.
    + split; [done|]. right. exists h. split; [|done]. apply elem_of_app. right. left.
Qed.

Lemma merge_lexical_inv sem lex : forall seen m,
  merge_inv sem seen m -> merge_inv sem (seen ++ lex) (merge_lexical lex m).
Proof.
  induction lex as [|h lex IH]; intros seen m Hinv; simpl.
  - by rewrite app_nil_r.
  - replace (seen ++ h :: lex) with ((seen ++ [h]) ++ lex) by by rewrite <- app_assoc.
    apply IH. by apply merge_lexical_step.
Qed.

Lemma merge_invariant sem lex :
  merge_inv sem lex (merge_lexical lex (merge_semantic sem [])).
Proof.
  apply (merge_lexical_inv sem lex []). apply (merge_semantic_inv sem [] []).
  split; [constructor|]. split; [|constructor].
  intros k. simpl. pose proof (not_elem_of_nil k). tauto.
Qed.

Lemma merge_candidate_keys sem lex :
  map (fun c => key (c_hit c)) (merge_candidates sem lex)
  = map fst (merge_lexical lex (merge_semantic sem [])).
Proof.
  unfold merge_candidates. destruct (merge_invariant sem lex) as (_ & _ & Hall).
  induction Hall as [|kv m (Hk & _) _ IH]; simpl; [done|]. by rewrite Hk, IH.
Qed.

(** X25: The merge returns one candidate per location: no two candidates
    share (git_ref, file_path, start_line, end_line), and the locations
    of the candidates are those of the semantic and the lexical hits. *)
Theorem merge_one_candidate_per_location (sem lex : list (Hit F)) :
  let locations := map (fun c => key (c_hit c)) (merge_candidates sem lex) in
  NoDup locations
  /\ forall k, k ∈ locations <-> k ∈ map key sem \/ k ∈ map key lex.
Proof.
  cbv zeta. rewrite merge_candidate_keys.
  destruct (merge_invariant sem lex) as (Hnd & Hkeys & _). done.
Qed.

(** X26: The two scores of a merged candidate: the semantic score is the
    clamped score of a semantic hit at that location, and zero when
    there is none; the lexical score is zero or the clamped score of a
    lexical hit at that location, and zero when there is none. *)
Theorem merge_scores_come_from_hits (sem lex : list (Hit F)) (c : Candidate F) :
  c ∈ merge_candidates sem lex ->
  let k := key (c_hit c) in
  (k ∉ map key sem -> _sem c = fzero)
  /\ (k ∈ map key sem ->
      exists h, h ∈ sem /\ key h = k /\ _sem c = clamp01 (hit_score h))
  /\ (k ∉ map key lex -> _lex c = fzero)
  /\ (_lex c = fzero
      \/ exists h, h ∈ lex /\ key h = k /\ _lex c = clamp01 (hit_score h)).
Proof.
  unfold merge_candidates. intros Hc. apply list_elem_of_fmap in Hc as ([k' c'] & -> & Hin).
  destruct (merge_invariant sem lex) as (_ & _ & Hall).
  rewrite Forall_forall in Hall. destruct (Hall _ Hin) as (Hk & Hs & Hl).
  simpl in *. rewrite Hk. destruct Hs, Hl. done.
Qed.

End MergeFacts.

(** ** The reference lookup *)

Lemma insert_ref_elem r l x : x ∈ insert_ref r l <-> x = r \/ x ∈ l.
Proof.
  induction l as [|y l IH]; simpl.
  - rewrite list_elem_of_singleton. pose proof (not_elem_of_nil x). tauto.
  - destruct (ref_le y r).
    + rewrite !elem_of_cons, IH. tauto.
    + rewrite !elem_of_cons. tauto.
Qed.

Lemma order_refs_fold l : forall acc x,
  x ∈ fold_left (fun acc r => insert_ref r acc) l acc <-> x ∈ l \/ x ∈ acc.
Proof.
  induction l as [|r l IH]; intros acc x; simpl.
  - pose proof (not_elem_of_nil x). tauto.
  - rewrite IH, insert_ref_elem, elem_of_cons. tauto.
Qed.

Lemma order_refs_elem l x : x ∈ order_refs l <-> x ∈ l.
Proof.
  unfold order_refs. rewrite order_refs_fold. pose proof (not_elem_of_nil x). tauto.
Qed.







(** The rows behind the hits of a lookup. *)
Definition reference_rows (t : Tables) (wid symbol_name : string)
    (git_ref path_prefix : option string) (limit : Z) : list PyRefRow :=
  sql_limit limit
    (order_refs
       (filter (fun r => ref_selected wid symbol_name git_ref path_prefix r = true)
          (py_refs t))).

Definition hit_of_row (r : PyRefRow) : RefHit :=
  mkRefHit (pr_file_path r) (pr_line r) (pr_col r) (pr_context r) (pr_git_ref r).

Lemma references_are_rows t wid symbol_name git_ref path_prefix limit :
  py_symbol_references t wid symbol_name git_ref path_prefix limit
  = map hit_of_row (reference_rows t wid symbol_name git_ref path_prefix limit).
Proof. reflexivity. Qed.

Lemma reference_rows_selected t wid symbol_name git_ref path_prefix limit r :
  r ∈ reference_rows t wid symbol_name git_ref path_prefix limit ->
  r ∈ py_refs t /\ ref_selected wid symbol_name git_ref path_prefix r = true.
Proof.
  unfold reference_rows, sql_limit. intros Hr.
  assert (Hin : r ∈ order_refs
            (filter (fun r => ref_selected wid symbol_name git_ref path_prefix r = true)
               (py_refs t))).
  { destruct (limit <? 0); [done|]. by eapply subseteq_take. }
  apply order_refs_elem, list_elem_of_filter in Hin. tauto.
Qed.

Lemma ref_selected_fields wid symbol_name git_ref path_prefix r :
  ref_selected wid symbol_name git_ref path_prefix r = true ->
  pr_workspace_id r = wid /\ pr_symbol_name r = symbol_name
  /\ forall g, git_ref = Some g -> g <> "" -> pr_git_ref r = g.
Proof.
  unfold ref_selected, seqb. intros Hsel.
  apply andb_true_iff in Hsel as [Hsel _]. apply andb_true_iff in Hsel as [Hsel Hg].
  apply andb_true_iff in Hsel as [Hw Hn].
  apply bool_decide_eq_true in Hw, Hn. split; [done|]. split; [done|].
  intros g -> Hne. destruct g; [done|]. simpl in Hg. by apply bool_decide_eq_true in Hg.
Qed.


Section LookupAfterReindex.

Variable ast_parse : string -> option module.
Variables uuid5 sha256_text : string -> string.
Variable V : Type.
Variable embed_passages : list string -> list V.
Variables (wid git_ref now : string) (f : FileObs) (st_mtime : float) (st_size : Z).
Variables (chunks : list Chunk) (symbols_ : list symbol_row).

(** X28: After a Python file is re-indexed, a lookup in its revision returns
    for that file only references that the analysis of its current text
    reports: none of the earlier text is served. *)
Theorem lookup_after_reindex_is_current
    (st : Store V) (symbol_name : string) (path_prefix : option string) (limit : Z)
    (hit : RefHit) :
  f_lang f = "python" ->
  git_ref <> "" ->
  hit ∈ py_symbol_references
          (tables (reindex_file ast_parse uuid5 sha256_text V embed_passages wid git_ref
                     now f st_mtime st_size chunks symbols_ st))
          wid symbol_name (Some git_ref) path_prefix limit ->
  rh_file_path hit = f_rel f ->
  exists ref, ref ∈ (analyze_python_source ast_parse (f_text f)).1.2
    /\ r_name ref = symbol_name /\ r_line ref = rh_line hit
    /\ r_col ref = rh_col hit /\ r_context ref = rh_context hit.
Proof.
  intros Hlang Href Hhit Hpath.
  rewrite references_are_rows in Hhit.
  apply list_elem_of_fmap in Hhit as (r & -> & Hr).
  apply reference_rows_selected in Hr as [Hin Hsel].
  apply ref_selected_fields in Hsel as (Hw & Hn & Hg).
  specialize (Hg git_ref eq_refl Href). simpl in Hpath.
  rewrite py_refs_reindexed, Hlang in Hin. simpl in Hin.
  apply (insert_many_elem (insert_or_replace py_refs_pk)) in Hin as [Hin|Hin];
    [| |apply insert_or_replace_elem].
  - apply list_elem_of_filter in Hin as [Hkey _]. exfalso.
    rewrite Hw, Hg, Hpath in Hkey. unfold file_key in Hkey.
    by rewrite !seqb_refl in Hkey.
  - apply list_elem_of_fmap in Hin as (ref & -> & Href'). exists ref. done.
Qed.

End LookupAfterReindex.

(** ** The call graph neighbourhood *)

Lemma existsb_seqb x (l : list string) : existsb (seqb x) l = true <-> x ∈ l.
Proof.
  rewrite existsb_exists. unfold seqb. split.
  - intros (y & Hin & Heq). apply bool_decide_eq_true in Heq as ->.
    by apply list_elem_of_In.
  - intros Hin. exists x. split; [by apply list_elem_of_In|by apply bool_decide_eq_true].
Qed.

Lemma set_add_elem x y s : x ∈ set_add y s <-> x = y \/ x ∈ s.
Proof.
  unfold set_add. destruct (existsb (seqb y) s) eqn:E.
  - apply existsb_seqb in E. split; [by right|]. intros [->|Hin]; done.
  - rewrite elem_of_app, list_elem_of_singleton. tauto.
Qed.

Lemma sql_limit_subseteq {A} limit (l : list A) x : x ∈ sql_limit limit l -> x ∈ l.
Proof.
  unfold sql_limit. destruct (limit <? 0); [done|]. apply subseteq_take.
Qed.

(** The symbol id that an entry of [nodes] carries. *)
Definition node_id (n : NodeInfo) : string :=
  match n with Found r => ps_symbol_id r | Missing sid => sid end.

Section GraphFacts.

Variable set_order : list string -> list string.
Hypothesis set_order_sub : forall l x, x ∈ set_order l -> x ∈ l.

Variables (t : Tables) (wid git_ref : string) (limit_per_hop : Z).

(** An edge of the result is a stored call edge of the workspace and
    revision. *)
Definition edge_stored (e : GraphEdge) : Prop :=
  exists r, r ∈ py_call_edges t
    /\ e_workspace_id r = wid /\ e_git_ref r = git_ref
    /\ ge_from e = e_from_symbol_id r /\ ge_to_symbol_id e = e_to_symbol_id r
    /\ ge_to_name e = e_to_name r /\ ge_call_line e = e_call_line r.

(** Both ends of an edge that carry a symbol id have an entry in
    [nodes]. *)
Definition edge_closed (ids : list string) (e : GraphEdge) : Prop :=
  (ge_from e <> "" -> ge_from e ∈ ids)
  /\ (forall i, ge_to_symbol_id e = Some i -> i <> "" -> i ∈ ids).

(** An entry of [nodes] is the stored row of its symbol, and is marked
    missing only when the symbol has no row in the revision. *)
Definition node_stored (n : NodeInfo) : Prop :=
  match n with
  | Found r => r ∈ py_symbols t /\ ps_workspace_id r = wid /\ ps_git_ref r = git_ref
  | Missing sid =>
      forall r, r ∈ py_symbols t ->
        ~ (ps_symbol_id r = sid /\ ps_workspace_id r = wid /\ ps_git_ref r = git_ref)
  end.

Definition graph_inv (keep frontier : list string) (g : Graph) : Prop :=
  NoDup (map fst (nodes g))
  /\ Forall (fun kv => node_id kv.2 = kv.1 /\ node_stored kv.2) (nodes g)
  /\ Forall edge_stored (edges g)
  /\ Forall (edge_closed (map fst (nodes g))) (edges g)
  /\ (forall x, x ∈ new_frontier g -> x ∈ map fst (nodes g))
  /\ (forall x, x ∈ frontier -> x ∈ map fst (nodes g))
  /\ (forall x, x ∈ keep -> x ∈ map fst (nodes g)).

Lemma fetch_symbol_stored sid :
  node_id (match fetch_symbol t wid git_ref sid with
           | Some r => Found r | None => Missing sid end) = sid
  /\ node_stored (match fetch_symbol t wid git_ref sid with
                  | Some r => Found r | None => Missing sid end).
Proof.
  unfold fetch_symbol.
  destruct (filter _ (py_symbols t)) as [|r rest] eqn:E; simpl.
  - split; [done|]. intros r Hin (Hid & Hw & Hg).
    assert (Hr : r ∈ filter (fun r => (seqb (ps_symbol_id r) sid
                    && seqb (ps_workspace_id r) wid && seqb (ps_git_ref r) git_ref) = true)
                   (py_symbols t)).
    { apply list_elem_of_filter. split; [|done]. by rewrite Hid, Hw, Hg, !seqb_refl. }
    rewrite E in Hr. by apply elem_of_nil in Hr.
  - assert (Hr : r ∈ filter (fun r => (seqb (ps_symbol_id r) sid
                    && seqb (ps_workspace_id r) wid && seqb (ps_git_ref r) git_ref) = true)
                   (py_symbols t)) by (rewrite E; left).
    apply list_elem_of_filter in Hr as [Hsel Hin].
    apply andb_true_iff in Hsel as [Hsel Hg]. apply andb_true_iff in Hsel as [Hid Hw].
    unfold seqb in *. apply bool_decide_eq_true in Hid, Hw, Hg. done.
Qed.

Lemma add_node_self sid ns : sid ∈ map fst (add_node t wid git_ref sid ns).
Proof.
  unfold add_node. destruct (existsb _ _) eqn:E; [by apply existsb_seqb|].
  rewrite map_app, elem_of_app. right. left.
Qed.

Lemma add_node_mono sid ns x :
  x ∈ map fst ns -> x ∈ map fst (add_node t wid git_ref sid ns).
Proof.
  unfold add_node. destruct (existsb _ _); [done|].
  rewrite map_app, elem_of_app. by left.
Qed.

Lemma edge_closed_mono ids ids' e :
  (forall x, x ∈ ids -> x ∈ ids') -> edge_closed ids e -> edge_closed ids' e.
Proof.
  intros Hsub [Hf Ht]. split; [auto|]. intros i Hi Hne. by apply Hsub, Ht.
Qed.

Lemma add_node_inv keep frontier g sid e :
  graph_inv keep frontier g ->
  edge_stored e ->
  edge_closed (map fst (add_node t wid git_ref sid (nodes g))) e ->
  graph_inv keep frontier
    (mkGraph (add_node t wid git_ref sid (nodes g)) (edges g ++ [e])
       (set_add sid (new_frontier g))).
Proof.
  intros (Hnd & Hns & Hst & Hcl & Hnf & Hfr & Hkeep) He Hc. unfold graph_inv. simpl.
  split; [|split; [|split; [|split; [|split; [|split]]]]].
  - unfold add_node. destruct (existsb _ _) eqn:E; [done|].
    rewrite map_app. apply NoDup_app. split; [done|]. split; [|apply NoDup_singleton].
    intros x Hx Hx'. apply list_elem_of_singleton in Hx'. subst x.
    apply existsb_seqb in Hx. simpl in *. rewrite E in Hx. discriminate.
  - unfold add_node. destruct (existsb _ _); [done|].
    apply Forall_app. split; [done|]. apply Forall_singleton. apply fetch_symbol_stored.
  - apply Forall_app. split; [done|]. by apply Forall_singleton.
  - apply Forall_app. split; [|by apply Forall_singleton].
    eapply Forall_impl; [exact Hcl|]. intros e' He'.
    eapply edge_closed_mono; [|exact He']. apply add_node_mono.
  - intros x Hx. apply set_add_elem in Hx as [->|Hx]; [apply add_node_self|].
    by apply add_node_mono, Hnf.
  - intros x Hx. by apply add_node_mono, Hfr.
  - intros x Hx. by apply add_node_mono, Hkeep.
Qed.

Lemma add_edge_inv keep frontier g e :
  graph_inv keep frontier g ->
  edge_stored e ->
  edge_closed (map fst (nodes g)) e ->
  graph_inv keep frontier (mkGraph (nodes g) (edges g ++ [e]) (new_frontier g)).
Proof.
  intros (Hnd & Hns & Hst & Hcl & Hnf & Hfr & Hkeep) He Hc. unfold graph_inv. simpl.
  split; [done|]. split; [done|].
  split; [apply Forall_app; split; [done|by apply Forall_singleton]|].
  split; [apply Forall_app; split; [done|by apply Forall_singleton]|]. done.
Qed.

Lemma out_row_inv keep frontier g sid r :
  graph_inv keep frontier g -> sid ∈ frontier -> r ∈ out_rows t wid git_ref limit_per_hop sid ->
  graph_inv keep frontier (out_row t wid git_ref sid g r).
Proof.
  intros Hinv Hsid Hr. unfold out_rows in Hr.
  apply sql_limit_subseteq, list_elem_of_filter in Hr as [Hsel Hin].
  apply andb_true_iff in Hsel as [Hsel Hf]. apply andb_true_iff in Hsel as [Hw Hg].
  unfold seqb in *. apply bool_decide_eq_true in Hw, Hg, Hf.
  assert (Hsid' : sid ∈ map fst (nodes g)).
  { destruct Hinv as (_ & _ & _ & _ & _ & Hfr & _). by apply Hfr. }
  assert (Hst : forall to_, edge_stored
            (mkGraphEdge sid to_ (e_to_symbol_id r) (e_to_name r) (e_call_line r))).
  { intros to_. exists r. simpl. done. }
  unfold out_row. destruct (e_to_symbol_id r) as [i|] eqn:Eto.
  - destruct (truthy i) eqn:Ei.
    + apply add_node_inv; [done|apply Hst|]. split; simpl.
      * intros _. by apply add_node_mono.
      * intros j [= <-] _. apply add_node_self.
    + apply add_edge_inv; [done|apply Hst|]. split; simpl; [done|].
      intros j [= <-] Hne. by destruct i.
  - apply add_edge_inv; [done|apply Hst|]. split; simpl; done.
Qed.

Lemma in_row_inv keep frontier g sid r :
  graph_inv keep frontier g -> sid ∈ frontier -> r ∈ in_rows t wid git_ref limit_per_hop sid ->
  graph_inv keep frontier (in_row t wid git_ref sid g r).
Proof.
  intros Hinv Hsid Hr. unfold in_rows in Hr.
  apply sql_limit_subseteq, list_elem_of_filter in Hr as [Hsel Hin].
  apply andb_true_iff in Hsel as [Hsel Ht]. apply andb_true_iff in Hsel as [Hw Hg].
  unfold seqb in *. apply bool_decide_eq_true in Hw, Hg, Ht.
  assert (Hsid' : sid ∈ map fst (nodes g)).
  { destruct Hinv as (_ & _ & _ & _ & _ & Hfr & _). by apply Hfr. }
  assert (Hst : edge_stored
            (mkGraphEdge (e_from_symbol_id r) sid (Some sid) (e_to_name r) (e_call_line r))).
  { exists r. simpl. done. }
  unfold in_row. destruct (truthy (e_from_symbol_id r)) eqn:Ef.
  - apply add_node_inv; [done|done|]. split; simpl.
    + intros _. apply add_node_self.
    + intros j [= <-] _. by apply add_node_mono.
  - apply add_edge_inv; [done|done|]. split; simpl.
    + intros Hne. by destruct (e_from_symbol_id r).
    + by intros j [= <-] _.
Qed.

Lemma fold_rows_inv keep frontier (step : Graph -> EdgeRow -> Graph) rows :
  (forall g r, graph_inv keep frontier g -> r ∈ rows -> graph_inv keep frontier (step g r)) ->
  forall g, graph_inv keep frontier g -> graph_inv keep frontier (fold_left step rows g).
Proof.
  intros Hstep. induction rows as [|r rows IH]; intros g Hg; simpl; [done|].
  apply IH.
  - intros g' r' Hg' Hr'. apply Hstep; [done|by right].
  - apply Hstep; [done|left].
Qed.

Lemma visit_symbol_inv keep frontier direction g sid :
  graph_inv keep frontier g -> sid ∈ frontier ->
  graph_inv keep frontier (visit_symbol t wid git_ref limit_per_hop direction g sid).
Proof.
  intros Hinv Hsid. unfold visit_symbol.
  assert (Hg1 : graph_inv keep frontier
            (if seqb direction "out" || seqb direction "both"
             then fold_left (out_row t wid git_ref sid)
                    (out_rows t wid git_ref limit_per_hop sid) g
             else g)).
  { destruct (_ || _); [|done].
    apply fold_rows_inv; [|done]. intros g' r Hg' Hr. by apply out_row_inv. }
  destruct (seqb direction "in" || seqb direction "both"); [|done].
  apply fold_rows_inv; [|done]. intros g' r Hg' Hr. by apply in_row_inv.
Qed.

Lemma hop_inv keep frontier direction sids : forall g,
  (forall x, x ∈ sids -> x ∈ frontier) ->
  graph_inv keep frontier g ->
  graph_inv keep frontier
    (fold_left (visit_symbol t wid git_ref limit_per_hop direction) sids g).
Proof.
  induction sids as [|sid sids IH]; intros g Hsub Hg; simpl; [done|].
  apply IH; [intros x Hx; apply Hsub; by right|].
  apply visit_symbol_inv; [done|]. apply Hsub. left.
Qed.

Lemma hops_inv keep depth direction : forall frontier g,
  graph_inv keep frontier g ->
  graph_inv keep [] (hops set_order t wid git_ref limit_per_hop depth direction frontier g).
Proof.
  induction depth as [|depth IH]; intros frontier g Hg; simpl.
  - destruct Hg as (? & ? & ? & ? & ? & ? & ?). unfold graph_inv.
    repeat (split; [done|]). split; [|done]. intros x Hx. by apply elem_of_nil in Hx.
  - set (g' := fold_left _ (set_order frontier) _).
    assert (Hg' : graph_inv keep frontier g').
    { apply hop_inv; [apply set_order_sub|].
      destruct Hg as (? & ? & ? & ? & ? & ? & ?). unfold graph_inv. simpl.
      repeat (split; [done|]). split; [|done]. intros x Hx. by apply elem_of_nil in Hx. }
    destruct (new_frontier g') as [|y rest] eqn:Enf.
    + destruct Hg' as (? & ? & ? & ? & ? & ? & ?). unfold graph_inv.
      repeat (split; [done|]). split; [|done]. intros x Hx. by apply elem_of_nil in Hx.
    + apply IH. destruct Hg' as (? & ? & ? & ? & Hnf & ? & ?). unfold graph_inv.
      repeat (split; [done|]). split; [|done]. by rewrite <- Enf.
Qed.

End GraphFacts.

Lemma callgraph_invariant set_order t wid symbol_id depth direction git_ref limit_per_hop
    ns es g :
  (forall l x, x ∈ set_order l -> x ∈ l) ->
  py_callgraph set_order t wid symbol_id depth direction git_ref limit_per_hop
  = GraphOf ns es g ->
  exists gr, graph_inv t wid g [symbol_id] [] gr
    /\ ns = map snd (nodes gr) /\ es = edges gr.
Proof.
  intros Hsub. unfold py_callgraph.
  set (g1 := if truthy_opt git_ref then git_ref else _).
  destruct g1 as [g'|]; [|done]. destruct (truthy g'); [|done].
  intros [= <- <- <-]. eexists. split; [|split; reflexivity].
  apply hops_inv; [done|].
  unfold graph_inv. cbn [nodes edges new_frontier].
  change (map fst (add_node t wid g' symbol_id [])) with [symbol_id].
  split; [apply NoDup_singleton|]. split.
  { unfold add_node. simpl. apply Forall_singleton. apply fetch_symbol_stored. }
  split; [constructor|]. split; [constructor|].
  split; [intros x Hx; by apply elem_of_nil in Hx|]. done.
Qed.

Lemma node_ids_of_graph t wid g keep frontier gr :
  graph_inv t wid g keep frontier gr ->
  map node_id (map snd (nodes gr)) = map fst (nodes gr).
Proof.
  intros (_ & Hns & _). induction Hns as [|kv l [Hk _] _ IH]; simpl; [done|].
  by rewrite Hk, IH.
Qed.

(** X29: Every edge of a call graph is a stored call edge of the workspace
    and revision, with the same caller, resolved callee, callee name
    and line; every node is the stored row of its symbol in that
    revision, and is marked missing only when there is no such row. *)
Theorem callgraph_shows_stored_edges
    set_order t wid symbol_id depth direction git_ref limit_per_hop ns es g :
  (forall l x, x ∈ set_order l -> x ∈ l) ->
  py_callgraph set_order t wid symbol_id depth direction git_ref limit_per_hop
  = GraphOf ns es g ->
  Forall (edge_stored t wid g) es /\ Forall (node_stored t wid g) ns.
Proof.
  intros Hsub Hres.
  destruct (callgraph_invariant _ _ _ _ _ _ _ _ _ _ _ Hsub Hres)
    as (gr & (_ & Hns & Hst & _) & -> & ->).
  split; [done|]. apply Forall_fmap. eapply Forall_impl; [exact Hns|].
  by intros kv [_ Hs].
Qed.

(** X30: A call graph is closed: the start symbol has a node, no symbol has
    two nodes, and each end of an edge that carries a symbol id has a
    node. *)
Theorem callgraph_is_closed
    set_order t wid symbol_id depth direction git_ref limit_per_hop ns es g :
  (forall l x, x ∈ set_order l -> x ∈ l) ->
  py_callgraph set_order t wid symbol_id depth direction git_ref limit_per_hop
  = GraphOf ns es g ->
  let ids := map node_id ns in
  symbol_id ∈ ids /\ NoDup ids /\ Forall (edge_closed ids) es.
Proof.
  intros Hsub Hres. cbv zeta.
  destruct (callgraph_invariant _ _ _ _ _ _ _ _ _ _ _ Hsub Hres) as (gr & Hinv & -> & ->).
  rewrite (node_ids_of_graph _ _ _ _ _ _ Hinv).
  destruct Hinv as (Hnd & _ & _ & Hcl & _ & _ & Hkeep).
  split; [apply Hkeep; left|]. done.
Qed.

(** *** The tool and search theorems at concrete inputs *)

Module ScenarioTools.

Definition root : Path := mkPath true ["srv"; "repo"].

Definition read_text (p : Path) : option string :=
  if bool_decide (parts p = ["srv"; "repo"; "src"; "main.py"])
  then Some ("a" +:+ nl +:+ "b" +:+ nl +:+ "c")
  else None.

(** The host of the indexing scenario: [a.py] under the root. *)
Definition file_at (p : Path) : option (option (float * Z) * string * string * string) :=
  if bool_decide (parts p = ["srv"; "repo"; "a.py"])
  then Some (Some (1%float, 36), "python", "digest1", Scenario.v1)
  else None.

Definition predict (pairs : list (string * string)) : list Q :=
  map (fun qp => if seqb qp.2 "x" then 1%Q else (1 # 2)%Q) pairs.

Definition hit (score : Q) (source : string) : Hit Q :=
  mkHit score (Some "a.py") 1 5 (Some "python") (Some "function") (Some "f")
    (Some "working_tree") "def f():" "def f():" source.

(** Two symbols and the resolved call from the first to the second. *)
Definition graph_tables : Tables :=
  set_py_call_edges
    [mkEdgeRow "W" "working_tree" "id-f" "g" (Some "id-g") 2;
     mkEdgeRow "W" "working_tree" "id-g" "print" None 5]
    (set_py_symbols
       [mkPySymbolRow "id-f" "W" "working_tree" "a.py" "f" "f" "function" 1 2;
        mkPySymbolRow "id-g" "W" "working_tree" "a.py" "g" "g" "function" 4 5]
       empty_tables).

End ScenarioTools.

Lemma fetch_is_bounded_witness :
  codebase_fetch lexical_resolve ScenarioTools.read_text ScenarioTools.root
    "src/main.py" 2 10
  = (Ok (2, 3, "b" +:+ nl +:+ "c"), [mkPath true ["srv"; "repo"; "src"; "main.py"]])
  /\ exists abs_path content,
       [mkPath true ["srv"; "repo"; "src"; "main.py"]] = [abs_path]
       /\ ScenarioTools.read_text abs_path = Some content
       /\ "b" +:+ nl +:+ "c" = join nl (py_slice (splitlines content) (2 - 1) 3)
       /\ 1 <= 2
       /\ (length (py_slice (splitlines content) (2 - 1) 3) <= 601)%nat
       /\ (Z.of_nat (length (splitlines content)) < 2 -> "b" +:+ nl +:+ "c" = "").
Proof.
  split; [reflexivity|].
  apply (fetch_is_bounded lexical_resolve ScenarioTools.read_text ScenarioTools.root
           "src/main.py" 2 10 2 3 ("b" +:+ nl +:+ "c")
           [mkPath true ["srv"; "repo"; "src"; "main.py"]]).
  reflexivity.
Defined.


Lemma rerank_one_score_per_passage_witness :
  rerank (Some ScenarioTools.predict) 2 "q" ["x"; "y"; "z"] = [1%Q; (1 # 2)%Q; 0%Q]
  /\ length (rerank (Some ScenarioTools.predict) 2 "q" ["x"; "y"; "z"]) = 3%nat.
Proof.
  split; [reflexivity|].
  apply (rerank_one_score_per_passage ScenarioTools.predict 2 "q" ["x"; "y"; "z"]).
  - intros pairs. apply length_map.
  - lia.
Defined.

Lemma attribute_call_resolves_by_method_name_witness :
  let ids := name_to_ids [("run", "id-run")] in
  resolve_callee ids ∅
    (_callee_str (Attribute (Name "self" Load (Some 3) (Some 8)) "run"))
  = resolve_callee ids ∅ "run"
  /\ resolve_callee ids ∅ "run" = Some "id-run".
Proof.
  intros ids. split; [|reflexivity].
  apply (attribute_call_resolves_by_method_name ids ∅
           (Name "self" Load (Some 3) (Some 8)) "run").
  reflexivity.
Defined.

Lemma merge_scores_come_from_hits_witness :
  let sem := [ScenarioTools.hit (3 # 4) "semantic"] in
  let lex := [ScenarioTools.hit (1 # 4) "lexical"] in
  let c := mkCandidate (ScenarioTools.hit (3 # 4) "semantic") (3 # 4)%Q (1 # 4)%Q in
  merge_candidates sem lex = [c]
  /\ exists h, h ∈ sem /\ key h = key (c_hit c) /\ _sem c = clamp01 (hit_score h).
Proof.
  intros sem lex c.
  assert (Hc : merge_candidates sem lex = [c]) by reflexivity.
  split; [exact Hc|].
  assert (Hin : c ∈ merge_candidates sem lex) by (rewrite Hc; left).
  destruct (merge_scores_come_from_hits sem lex c Hin) as (_ & Hsem & _).
  apply Hsem. left.
Defined.

Lemma lookup_after_reindex_is_current_witness :
  let t := tables (ScenarioRuns.reindex_a ScenarioRuns.store_b) in
  py_symbol_references t "W" "g" (Some "working_tree") None 200
  = [mkRefHit "a.py" 2 4 "    g()" "working_tree"]
  /\ exists ref, ref ∈ (analyze_python_source Scenario.parse Scenario.v2).1.2
       /\ r_name ref = "g" /\ r_line ref = 2 /\ r_col ref = 4
       /\ r_context ref = "    g()".
Proof.
  intros t. split; [reflexivity|].
  apply (lookup_after_reindex_is_current Scenario.parse Scenario.uuid5
           Scenario.sha256_text unit Scenario.embed_passages "W" "working_tree" "t1"
           Scenario.obs2 2%float 18 [] [] ScenarioRuns.store_b "g" None 200
           (mkRefHit "a.py" 2 4 "    g()" "working_tree")).
  - reflexivity.
  - discriminate.
  - left.
  - reflexivity.
Defined.

Lemma callgraph_shows_stored_edges_witness :
  exists ns es,
    py_callgraph (fun l => l) ScenarioTools.graph_tables "W" "id-f" 2 "out" None 50
    = GraphOf ns es "working_tree"
    /\ length es = 2%nat
    /\ Forall (edge_stored ScenarioTools.graph_tables "W" "working_tree") es
    /\ Forall (node_stored ScenarioTools.graph_tables "W" "working_tree") ns.
Proof.
  eexists _, _. split; [reflexivity|]. split; [reflexivity|].
  eapply (callgraph_shows_stored_edges (fun l => l) ScenarioTools.graph_tables "W" "id-f"
            2 "out" None 50).
  - intros l x Hx. exact Hx.
  - reflexivity.
Defined.

Lemma callgraph_is_closed_witness :
  exists ns es,
    py_callgraph (fun l => l) ScenarioTools.graph_tables "W" "id-g" 1 "both" None 50
    = GraphOf ns es "working_tree"
    /\ map node_id ns = ["id-g"; "id-f"]
    /\ "id-g" ∈ map node_id ns /\ NoDup (map node_id ns)
    /\ Forall (edge_closed (map node_id ns)) es.
Proof.
  eexists _, _. split; [reflexivity|]. split; [reflexivity|].
  eapply (callgraph_is_closed (fun l => l) ScenarioTools.graph_tables "W" "id-g"
            1 "both" None 50).
  - intros l x Hx. exact Hx.
  - reflexivity.
Defined.

Lemma every_call_site_yields_an_edge_witness :
  (forall key, truthy (Scenario.uuid5 key) = true)
  /\ let '(py_defs, _, py_calls) := analyze_python_source Scenario.parse Scenario.v1 in
     let def_rows := map (def_row Scenario.uuid5 "W" "working_tree" "a.py") py_defs in
     let qual_to_id : gmap string string :=
       fold_left (fun m r => <[ps_qualname r := ps_symbol_id r]> m) def_rows ∅ in
     map (fun e => (e_to_name e, e_call_line e))
       (call_edge_rows "W" "working_tree" qual_to_id (name_to_ids [])
          (name_to_ids []) py_calls)
     = map (fun c => (callee c, call_line c)) py_calls.
Proof.
  assert (H : forall key, truthy (Scenario.uuid5 key) = true) by (intros key; reflexivity).
  split; [exact H|].
  exact (every_call_site_yields_an_edge Scenario.parse Scenario.uuid5 "W" "working_tree"
           "a.py" Scenario.v1 [] [] H).
Defined.

